(** * The lc0 search graph: edges, high nodes, shared payloads and iterators

    A shallow embedding of [src/mcts/node.h].  Unsigned fields are carried as
    [Z] with the wrap-around of their width written out, [double] and [float]
    fields as binary64 values (every binary32 value is one), pointers as
    [option] of an address, and the sibling list as a store of [Node]s linked
    through [sibling_]. *)

From Stdlib Require Import ZArith Lia Bool List Sorted PrimFloat.
From stdpp Require Import base option list gmap.

Local Open Scope Z_scope.

(** ** Primitive data *)

(** [Move] comes from chess/board.h; only its 16-bit encoding matters here. *)
Definition Move := Z.

(** [Node*]: the identity of an allocated high node. *)
Definition addr := nat.

(** chess/position.h *)
Inductive GameResult := UNDECIDED | BLACK_WON | DRAW | WHITE_WON.

Inductive Terminal := NonTerminal | EndOfGame | Tablebase.

Definition Bounds := (GameResult * GameResult)%type.

Definition uint8_max := 2 ^ 8.
Definition uint16_max := 2 ^ 16.
Definition uint32_max := 2 ^ 32.

(** [assert(c)]: aborts unless [c], and is compiled out under NDEBUG. *)
Definition assert_ (ndebug c : bool) : option unit :=
  if ndebug || c then Some () else None.

Module Edge.
Record t := mk { move_ : Move; p_ : Z }.
End Edge.

(** [memcpy(dst, src, n * sizeof(Edge))] into a fresh array of [n] edges;
    reading past the end of [src] is undefined. *)
Definition memcpy_edges (src : list Edge.t) (n : Z) : option (list Edge.t) :=
  if decide (n ≤ Z.of_nat (length src)) then Some (take (Z.to_nat n) src) else None.

Module NNEval.
Record t := mk {
  edges : option (list Edge.t);
  q : float; d : float; e : float; m : float;
  num_edges : Z }.
End NNEval.

(** ** High nodes *)

Module Node.
Record t := mk {
  wl_ : float; vs_ : float; weight_ : float; d_ : float;
  low_node_ : option nat;
  sibling_ : option addr;
  m_ : float;
  n_ : Z;
  n_in_flight_ : Z;
  edge_ : Edge.t;
  index_ : Z;
  terminal_type_ : Terminal;
  lower_bound_ : GameResult;
  upper_bound_ : GameResult;
  repetition_ : bool }.

(** [Node(const Edge& edge, uint16_t index)] *)
Definition make (edge : Edge.t) (index : Z) : t :=
  {| wl_ := 0; vs_ := 0; weight_ := 0; d_ := 0;
     low_node_ := None; sibling_ := None;
     m_ := 0; n_ := 0; n_in_flight_ := 0;
     edge_ := edge; index_ := index;
     terminal_type_ := NonTerminal;
     lower_bound_ := BLACK_WON; upper_bound_ := WHITE_WON;
     repetition_ := false |}.

Definition GetN (nd : t) : Z := n_ nd.
(** Declared in node.h, defined elsewhere: the atomic load of
    [n_in_flight_]. *)
Definition GetNInFlight (nd : t) : Z := n_in_flight_ nd.
Definition Index (nd : t) : Z := index_ nd.
Definition GetSibling (nd : t) : option addr := sibling_ nd.

(** The ranges of the unsigned fields. *)
Definition in_range (nd : t) : Prop :=
  0 ≤ n_ nd < uint32_max ∧ 0 ≤ n_in_flight_ nd < uint32_max ∧
  0 ≤ index_ nd < uint16_max.

(** [sibling_.set(p)] and [sibling_.release()] ([set] with a null pointer). *)
Definition set_sibling (p : option addr) (nd : t) : t :=
  {| wl_ := wl_ nd; vs_ := vs_ nd; weight_ := weight_ nd; d_ := d_ nd;
     low_node_ := low_node_ nd; sibling_ := p;
     m_ := m_ nd; n_ := n_ nd; n_in_flight_ := n_in_flight_ nd;
     edge_ := edge_ nd; index_ := index_ nd;
     terminal_type_ := terminal_type_ nd;
     lower_bound_ := lower_bound_ nd; upper_bound_ := upper_bound_ nd;
     repetition_ := repetition_ nd |}.
End Node.

(** ** Shared payloads *)

Module LowNode.
Record t := mk {
  wl_ : float; vs_ : float; weight_ : float; d_ : float;
  hash_ : Z;
  edges_ : option (list Edge.t);
  child_ : option addr;
  m_ : float; v_ : float; e_ : float;
  n_ : Z;
  num_parents_ : Z;
  num_edges_ : Z;
  terminal_type_ : Terminal;
  lower_bound_ : GameResult;
  upper_bound_ : GameResult;
  is_transposition : bool;
  is_tt_ : bool }.

(** [LowNode(uint64_t hash)], for TT nodes. *)
Definition make (hash : Z) : t :=
  {| wl_ := 0; vs_ := 0; weight_ := 0; d_ := 0;
     hash_ := hash; edges_ := None; child_ := None;
     m_ := 0; v_ := 0; e_ := 0;
     n_ := 0; num_parents_ := 0; num_edges_ := 0;
     terminal_type_ := NonTerminal;
     lower_bound_ := BLACK_WON; upper_bound_ := WHITE_WON;
     is_transposition := false; is_tt_ := true |}.

(** [LowNode(const LowNode& p)], for non-TT nodes.  [assert(p.edges_)]
    precedes a [memcpy] from [p.edges_], so a null array is a failure in
    every build. *)
Definition copy (p : t) : option t :=
  src ← edges_ p;
  es ← memcpy_edges src (num_edges_ p);
  Some {| wl_ := wl_ p; vs_ := vs_ p; weight_ := 0; d_ := d_ p;
          hash_ := hash_ p; edges_ := Some es; child_ := None;
          m_ := m_ p; v_ := v_ p; e_ := e_ p;
          n_ := 0; num_parents_ := 0; num_edges_ := num_edges_ p;
          terminal_type_ := NonTerminal;
          lower_bound_ := BLACK_WON; upper_bound_ := WHITE_WON;
          is_transposition := false; is_tt_ := false |}.

(** [LowNode(const LowNode& p, const uint64_t hash)] *)
Definition copy_hash (p : t) (hash : Z) : option t :=
  src ← edges_ p;
  es ← memcpy_edges src (num_edges_ p);
  Some {| wl_ := wl_ p; vs_ := vs_ p; weight_ := 0; d_ := d_ p;
          hash_ := hash; edges_ := Some es; child_ := None;
          m_ := m_ p; v_ := v_ p; e_ := e_ p;
          n_ := 0; num_parents_ := 0; num_edges_ := num_edges_ p;
          terminal_type_ := NonTerminal;
          lower_bound_ := BLACK_WON; upper_bound_ := WHITE_WON;
          is_transposition := false; is_tt_ := false |}.

(** [SetNNEval(const NNEval* eval)].  The three leading assertions guard
    against a payload that was already evaluated; the copy reads
    [eval->num_edges] edges of [eval->edges].  [assert(WLDMInvariantsHold())]
    is about the floating-point values, its body is defined elsewhere, and it
    is left out. *)
Definition SetNNEval (ndebug : bool) (eval : NNEval.t) (l : t) : option t :=
  _ ← assert_ ndebug (bool_decide (edges_ l = None));
  _ ← assert_ ndebug (n_ l =? 0);
  _ ← assert_ ndebug (bool_decide (child_ l = None));
  es ← memcpy_edges (default [] (NNEval.edges eval)) (NNEval.num_edges eval);
  Some {| wl_ := NNEval.q eval; vs_ := PrimFloat.mul (NNEval.q eval) (NNEval.q eval);
          weight_ := weight_ l; d_ := NNEval.d eval;
          hash_ := hash_ l; edges_ := Some es; child_ := child_ l;
          m_ := NNEval.m eval; v_ := NNEval.q eval; e_ := NNEval.e eval;
          n_ := n_ l; num_parents_ := num_parents_ l;
          num_edges_ := NNEval.num_edges eval;
          terminal_type_ := terminal_type_ l;
          lower_bound_ := lower_bound_ l; upper_bound_ := upper_bound_ l;
          is_transposition := is_transposition l; is_tt_ := is_tt_ l |}.

Definition GetChild (l : t) : option addr := child_ l.
Definition HasChildren (l : t) : bool := 0 <? num_edges_ l.
Definition GetN (l : t) : Z := n_ l.
(** [n_ - 1] on [uint32_t]. *)
Definition GetChildrenVisits (l : t) : Z := (n_ l - 1) mod uint32_max.
Definition IsTerminal (l : t) : bool :=
  match terminal_type_ l with NonTerminal => false | _ => true end.
Definition GetBounds (l : t) : Bounds := (lower_bound_ l, upper_bound_ l).
Definition GetNumEdges (l : t) : Z := num_edges_ l.
Definition GetEdges (l : t) : option (list Edge.t) := edges_ l.
Definition GetNumParents (l : t) : Z := num_parents_ l.
Definition IsTransposition (l : t) : bool := is_transposition l.
Definition GetHash (l : t) : Z := hash_ l.
Definition IsTT (l : t) : bool := is_tt_ l.

(** Modelled from the spec: [LowNode::GetEdgeAt] is declared in node.h and
    defined elsewhere.  A high node's edge is "a copy of the parent's Edge
    at [index]", and spawning a child with [index ≥ num_edges] is a
    contract violation; an index outside the array yields no edge. *)
Definition GetEdgeAt (l : t) (index : Z) : option Edge.t :=
  es ← edges_ l;
  if decide (0 ≤ index) then es !! Z.to_nat index else None.

Definition set_child (c : option addr) (l : t) : t :=
  {| wl_ := wl_ l; vs_ := vs_ l; weight_ := weight_ l; d_ := d_ l;
     hash_ := hash_ l; edges_ := edges_ l; child_ := c;
     m_ := m_ l; v_ := v_ l; e_ := e_ l;
     n_ := n_ l; num_parents_ := num_parents_ l; num_edges_ := num_edges_ l;
     terminal_type_ := terminal_type_ l;
     lower_bound_ := lower_bound_ l; upper_bound_ := upper_bound_ l;
     is_transposition := is_transposition l; is_tt_ := is_tt_ l |}.

Definition set_parents (np : Z) (tr : bool) (l : t) : t :=
  {| wl_ := wl_ l; vs_ := vs_ l; weight_ := weight_ l; d_ := d_ l;
     hash_ := hash_ l; edges_ := edges_ l; child_ := child_ l;
     m_ := m_ l; v_ := v_ l; e_ := e_ l;
     n_ := n_ l; num_parents_ := np; num_edges_ := num_edges_ l;
     terminal_type_ := terminal_type_ l;
     lower_bound_ := lower_bound_ l; upper_bound_ := upper_bound_ l;
     is_transposition := tr; is_tt_ := is_tt_ l |}.

Definition set_is_tt (b : bool) (l : t) : t :=
  {| wl_ := wl_ l; vs_ := vs_ l; weight_ := weight_ l; d_ := d_ l;
     hash_ := hash_ l; edges_ := edges_ l; child_ := child_ l;
     m_ := m_ l; v_ := v_ l; e_ := e_ l;
     n_ := n_ l; num_parents_ := num_parents_ l; num_edges_ := num_edges_ l;
     terminal_type_ := terminal_type_ l;
     lower_bound_ := lower_bound_ l; upper_bound_ := upper_bound_ l;
     is_transposition := is_transposition l; is_tt_ := b |}.

(** [++num_parents_; assert(num_parents_ > 0);
     is_transposition |= num_parents_ > 1;] on a [uint16_t] counter. *)
Definition AddParent (ndebug : bool) (l : t) : option t :=
  let np := (num_parents_ l + 1) mod uint16_max in
  _ ← assert_ ndebug (0 <? np);
  Some (set_parents np (is_transposition l || (1 <? np)) l).

(** [assert(num_parents_ > 0); --num_parents_;] *)
Definition RemoveParent (ndebug : bool) (l : t) : option t :=
  _ ← assert_ ndebug (0 <? num_parents_ l);
  Some (set_parents ((num_parents_ l - 1) mod uint16_max) (is_transposition l) l).

(** [is_tt_ = !is_tt_;] *)
Definition ClearTT (l : t) : t := set_is_tt (negb (is_tt_ l)) l.

(** The aggregates that back-propagation ([FinalizeScoreUpdate],
    [AdjustForTerminal], defined elsewhere) keeps up to date. *)
Record Statistics := mkStatistics {
  s_n : Z; s_wl : float; s_d : float; s_m : float; s_vs : float;
  s_weight : float }.

Definition statistics (l : t) : Statistics :=
  {| s_n := n_ l; s_wl := wl_ l; s_d := d_ l; s_m := m_ l; s_vs := vs_ l;
     s_weight := weight_ l |}.

Definition set_statistics (s : Statistics) (l : t) : t :=
  {| wl_ := s_wl s; vs_ := s_vs s; weight_ := s_weight s; d_ := s_d s;
     hash_ := hash_ l; edges_ := edges_ l; child_ := child_ l;
     m_ := s_m s; v_ := v_ l; e_ := e_ l;
     n_ := s_n s; num_parents_ := num_parents_ l; num_edges_ := num_edges_ l;
     terminal_type_ := terminal_type_ l;
     lower_bound_ := lower_bound_ l; upper_bound_ := upper_bound_ l;
     is_transposition := is_transposition l; is_tt_ := is_tt_ l |}.

(** The two calls that change the parent count, and a sequence of them. *)
Inductive ParentOp := OpAddParent | OpRemoveParent.

Definition parent_op (ndebug : bool) (o : ParentOp) (l : t) : option t :=
  match o with
  | OpAddParent => AddParent ndebug l
  | OpRemoveParent => RemoveParent ndebug l
  end.

Fixpoint parent_ops (ndebug : bool) (os : list ParentOp) (l : t) : option t :=
  match os with
  | [] => Some l
  | o :: os' => l' ← parent_op ndebug o l; parent_ops ndebug os' l'
  end.

(** What an array of [num_edges_] edges looks like after [SetNNEval] or a
    copy: the allocation holds exactly [num_edges_] elements. *)
Definition edges_ok (l : t) : Prop :=
  ∀ es, edges_ l = Some es → Z.of_nat (length es) = num_edges_ l.
End LowNode.

(** ** The node store

    High nodes live in a store indexed by address; a payload reaches its
    children through [child_] and every node its successor through
    [sibling_].  [allocated] counts the nodes ever created with
    [std::make_unique<Node>] and is the next fresh address. *)

Module Store.
Record t := mk {
  low : LowNode.t;
  nodes : gmap addr Node.t;
  allocated : nat }.

(** [std::make_unique<Node>(...)] *)
Definition alloc (nd : Node.t) (σ : t) : t :=
  {| low := low σ; nodes := <[allocated σ := nd]> (nodes σ);
     allocated := S (allocated σ) |}.

(** [delete p]: [~Node] destroys [sibling_], whose [reset()] deletes the
    node it still owns, and so on down the chain. *)
Fixpoint delete_chain (fuel : nat) (ns : gmap addr Node.t) (p : option addr)
  : gmap addr Node.t :=
  match p, fuel with
  | Some a, S fuel' =>
      match ns !! a with
      | Some nd => delete_chain fuel' (delete a ns) (Node.sibling_ nd)
      | None => ns
      end
  | _, _ => ns
  end.

Definition delete_node (a : addr) (σ : t) : t :=
  {| low := low σ;
     nodes := delete_chain (S (size (nodes σ))) (nodes σ) (Some a);
     allocated := allocated σ |}.
End Store.

(** [atomic_unique_ptr<Node>*]: the address of a payload's [child_] or of a
    node's [sibling_]. *)
Inductive Slot := ChildSlot | SiblingSlot (a : addr).

Module atomic_unique_ptr.
(** [get()]; a slot of a node that is not in the store is dangling. *)
Definition get (σ : Store.t) (s : Slot) : option (option addr) :=
  match s with
  | ChildSlot => Some (LowNode.child_ (Store.low σ))
  | SiblingSlot a => Node.sibling_ <$> Store.nodes σ !! a
  end.

(** [set(p)]: stores [p], the old pointer is returned to the caller and not
    deleted. *)
Definition set (s : Slot) (p : option addr) (σ : Store.t) : Store.t :=
  match s with
  | ChildSlot =>
      {| Store.low := LowNode.set_child p (Store.low σ);
         Store.nodes := Store.nodes σ; Store.allocated := Store.allocated σ |}
  | SiblingSlot a =>
      {| Store.low := Store.low σ;
         Store.nodes := alter (Node.set_sibling p) a (Store.nodes σ);
         Store.allocated := Store.allocated σ |}
  end.

(** [compare_exchange(expected, source)]: installs the node held by [source]
    iff the slot still holds [expected]; [source] gives up the node on
    success. *)
Definition compare_exchange (s : Slot) (expected : option addr) (source : addr)
    (σ : Store.t) : option (Store.t * bool) :=
  cur ← get σ s;
  if decide (cur = expected) then Some (set s (Some source) σ, true)
  else Some (σ, false).
End atomic_unique_ptr.

(** ** Edge iterator *)

Module Edge_Iterator.
(** [edge_] is the offset of the pointed edge in the payload's array, [None]
    for [nullptr]. *)
Record t := mk {
  edge_ : option Z;
  node_ : option addr;
  node_ptr_ : Slot;
  current_idx_ : Z;
  total_count_ : Z }.

(** [Edge_Iterator()], the end iterator; its [node_ptr_] is indeterminate. *)
Definition end_ : t :=
  {| edge_ := None; node_ := None; node_ptr_ := ChildSlot;
     current_idx_ := 0; total_count_ := 0 |}.

(** [operator==] of [EdgeAndNode]: the edge pointers are compared. *)
Definition eqb (x y : t) : bool := bool_decide (edge_ x = edge_ y).

(** What one pass through the loop of [Actualize] does after the load
    [node = node_ptr_->get()]. *)
Inductive Loaded :=
| Advance (it : t)
| Return (it : t) (node : option addr).

(** [Actualize()], one load at a time: the loop test, the loop body, and once
    the loop is left the update of [node_] and [node_ptr_]. *)
Definition Actualize_load (σ : Store.t) (it : t) : option Loaded :=
  node ← atomic_unique_ptr.get σ (node_ptr_ it);
  match node with
  | None =>
      Some (Return {| edge_ := edge_ it; node_ := None; node_ptr_ := node_ptr_ it;
                      current_idx_ := current_idx_ it;
                      total_count_ := total_count_ it |} None)
  | Some a =>
      nd ← Store.nodes σ !! a;
      if Node.Index nd <? current_idx_ it then
        Some (Advance {| edge_ := edge_ it; node_ := node_ it;
                         node_ptr_ := SiblingSlot a;
                         current_idx_ := current_idx_ it;
                         total_count_ := total_count_ it |})
      else if Node.Index nd =? current_idx_ it then
        Some (Return {| edge_ := edge_ it; node_ := Some a;
                        node_ptr_ := SiblingSlot a;
                        current_idx_ := current_idx_ it;
                        total_count_ := total_count_ it |} (Some a))
      else
        Some (Return {| edge_ := edge_ it; node_ := None;
                        node_ptr_ := node_ptr_ it;
                        current_idx_ := current_idx_ it;
                        total_count_ := total_count_ it |} (Some a))
  end.

(** The iterator once [Actualize] has found node [a] at its index. *)
Definition found (it : t) (a : addr) : t :=
  {| edge_ := edge_ it; node_ := Some a; node_ptr_ := SiblingSlot a;
     current_idx_ := current_idx_ it; total_count_ := total_count_ it |}.

(** Where a member function stands between two accesses to shared memory. *)
Inductive Cont :=
| KReturn                  (* constructor, operator++, last line of GetOrSpawnNode *)
| KSpawn (new_node : addr) (* the while loop of GetOrSpawnNode *).

Inductive Pc :=
| Ready                                          (* no call in progress *)
| InActualize (k : Cont)                         (* before a load of Actualize *)
| AtExchange (new_node : addr) (node : option addr) (* before compare_exchange *).

Record Thread := mkThread { iter : t; pc : Pc }.

(** [Edge_Iterator(LowNode* parent_node)] with a non-null parent, up to the
    call of [Actualize]. *)
Definition begin_call (parent : LowNode.t) : Thread :=
  let it := {| edge_ := (λ _, 0) <$> LowNode.GetEdges parent; node_ := None;
               node_ptr_ := ChildSlot; current_idx_ := 0;
               total_count_ := LowNode.GetNumEdges parent |} in
  {| iter := it;
     pc := match edge_ it with Some _ => InActualize KReturn | None => Ready end |}.

(** [operator++], up to the call of [Actualize]; incrementing the end
    iterator is undefined. *)
Definition incr_call (it : t) : option Thread :=
  e ← edge_ it;
  let idx := (current_idx_ it + 1) mod uint16_max in
  if idx =? total_count_ it then
    Some {| iter := {| edge_ := None; node_ := node_ it; node_ptr_ := node_ptr_ it;
                       current_idx_ := idx; total_count_ := total_count_ it |};
            pc := Ready |}
  else
    Some {| iter := {| edge_ := Some (e + 1); node_ := node_ it;
                       node_ptr_ := node_ptr_ it;
                       current_idx_ := idx; total_count_ := total_count_ it |};
            pc := InActualize KReturn |}.

(** [GetOrSpawnNode(parent)] where [parent->GetLowNode()] is the iterated
    payload, up to the while loop: return [node_] if there is one, else
    prepare the new node, a copy of the edge at [current_idx_]. *)
Definition GetOrSpawnNode_call (σ : Store.t) (it : t) : option (Store.t * Thread) :=
  match node_ it with
  | Some _ => Some (σ, {| iter := it; pc := Ready |})
  | None =>
      e ← LowNode.GetEdgeAt (Store.low σ) (current_idx_ it);
      Some (Store.alloc (Node.make e (current_idx_ it)) σ,
            {| iter := it; pc := InActualize (KSpawn (Store.allocated σ)) |})
  end.

(** One access to shared memory by a call in progress. *)
Definition thread_step (σ : Store.t) (th : Thread) : option (Store.t * Thread) :=
  match pc th with
  | Ready => None
  | InActualize k =>
      r ← Actualize_load σ (iter th);
      match r with
      | Advance it' => Some (σ, {| iter := it'; pc := InActualize k |})
      | Return it' node =>
          match k with
          | KReturn => Some (σ, {| iter := it'; pc := Ready |})
          | KSpawn new_node =>
              match node_ it' with
              | Some _ =>
                  (* if (node_) return node_;  and new_node goes out of scope *)
                  Some (Store.delete_node new_node σ, {| iter := it'; pc := Ready |})
              | None =>
                  (* new_sibling->set(node) *)
                  Some (atomic_unique_ptr.set (SiblingSlot new_node) node σ,
                        {| iter := it'; pc := AtExchange new_node node |})
              end
          end
      end
  | AtExchange new_node node =>
      r ← atomic_unique_ptr.compare_exchange (node_ptr_ (iter th)) node new_node σ;
      match r with
      | (σ', true) =>
          (* break; Actualize(); return node_; *)
          Some (σ', {| iter := iter th; pc := InActualize KReturn |})
      | (σ', false) =>
          (* new_sibling->release(); and around the loop *)
          Some (atomic_unique_ptr.set (SiblingSlot new_node) None σ',
                {| iter := iter th; pc := InActualize (KSpawn new_node) |})
      end
  end.

(** A call run to its return with no other thread in between. *)
Fixpoint run (fuel : nat) (σ : Store.t) (th : Thread) : option (Store.t * Thread) :=
  match pc th with
  | Ready => Some (σ, th)
  | _ =>
      match fuel with
      | O => None
      | S fuel' => '(σ', th') ← thread_step σ th; run fuel' σ' th'
      end
  end.

Definition begin (fuel : nat) (σ : Store.t) : option t :=
  '(_, th) ← run fuel σ (begin_call (Store.low σ)); Some (iter th).

Definition incr (fuel : nat) (σ : Store.t) (it : t) : option t :=
  th ← incr_call it; '(_, th') ← run fuel σ th; Some (iter th').

Definition GetOrSpawnNode (fuel : nat) (σ : Store.t) (it : t)
  : option (Store.t * t * option addr) :=
  '(σ1, th) ← GetOrSpawnNode_call σ it;
  '(σ2, th') ← run fuel σ1 th;
  Some (σ2, iter th', node_ (iter th')).

(** [for (auto& e : Edges()) ...]: the offsets and nodes the loop body sees. *)
Fixpoint iterate (fuel : nat) (σ : Store.t) (it : t)
  : option (list (Z * option addr)) :=
  match edge_ it with
  | None => Some []
  | Some e =>
      match fuel with
      | O => None
      | S fuel' =>
          it' ← incr (S fuel') σ it;
          rest ← iterate fuel' σ it';
          Some ((e, node_ it) :: rest)
      end
  end.

Definition Edges (fuel : nat) (σ : Store.t) : option (list (Z * option addr)) :=
  it ← begin fuel σ; iterate fuel σ it.
End Edge_Iterator.

(** ** Visited-node iterator *)

Module VisitedNode_Iterator.
Record t := mk {
  node_ptr_ : option addr;
  current_idx_ : Z;
  total_count_ : Z }.

Definition set_node_ptr (p : option addr) (it : t) : t :=
  {| node_ptr_ := p; current_idx_ := current_idx_ it;
     total_count_ := total_count_ it |}.

(** [VisitedNode_Iterator()], the end iterator. *)
Definition end_ : t :=
  {| node_ptr_ := None; current_idx_ := 0; total_count_ := 0 |}.

(** [operator==]: the node pointers are compared. *)
Definition eqb (x y : t) : bool := bool_decide (node_ptr_ x = node_ptr_ y).

(** [operator++]: the do-while loop, one turn per unit of fuel.  Stepping
    from a null [node_ptr_] is undefined. *)
Fixpoint incr (fuel : nat) (ns : gmap addr Node.t) (it : t) : option t :=
  match fuel with
  | O => None
  | S fuel' =>
      a ← node_ptr_ it;
      nd ← ns !! a;
      let it1 := set_node_ptr (Node.GetSibling nd) it in
      match node_ptr_ it1 with
      | None => Some it1
      | Some b =>
          nb ← ns !! b;
          if (Node.GetN nb =? 0) && (Node.GetNInFlight nb =? 0) then
            Some (set_node_ptr None it1)
          else if Node.GetN nb =? 0 then incr fuel' ns it1
          else Some it1
      end
  end.

(** [VisitedNode_Iterator(LowNode* parent_node)] with a non-null parent. *)
Definition begin (fuel : nat) (σ : Store.t) : option t :=
  let it := {| node_ptr_ := LowNode.GetChild (Store.low σ); current_idx_ := 0;
               total_count_ := LowNode.GetNumEdges (Store.low σ) |} in
  match node_ptr_ it with
  | None => Some it
  | Some a =>
      nd ← Store.nodes σ !! a;
      if Node.GetN nd =? 0 then incr fuel (Store.nodes σ) it else Some it
  end.

(** [for (auto* n : VisitedNodes()) ...]: the nodes the loop body sees. *)
Fixpoint iterate (fuel : nat) (ns : gmap addr Node.t) (it : t)
  : option (list addr) :=
  match node_ptr_ it with
  | None => Some []
  | Some a =>
      match fuel with
      | O => None
      | S fuel' =>
          it' ← incr (S fuel') ns it;
          rest ← iterate fuel' ns it';
          Some (a :: rest)
      end
  end.

Definition VisitedNodes (fuel : nat) (σ : Store.t) : option (list addr) :=
  it ← begin fuel σ; iterate fuel (Store.nodes σ) it.
End VisitedNode_Iterator.

(** ** Transposition table *)

Module NodeTree.
Record t := mk {
  tt_ : gmap Z LowNode.t;
  non_tt_ : list LowNode.t }.

(** Modelled from the spec: [NodeTree::TTGetOrCreate(const LowNode&,
    uint64_t)] is declared in node.h and its body is not part of the sources
    at hand.  It "inserts a copy of template's edge array and evaluation
    under hash h, with fresh statistics and is_tt = true", and as a
    get-or-create it returns the payload already stored under [h] if there is
    one.  The copy is the one the constructor [LowNode(const LowNode&,
    uint64_t)] makes; the result is the table, the payload and whether it was
    newly created. *)
Definition TTGetOrCreate (p : LowNode.t) (hash : Z) (tree : t)
  : option (t * LowNode.t * bool) :=
  match tt_ tree !! hash with
  | Some l => Some (tree, l, false)
  | None =>
      c ← LowNode.copy_hash p hash;
      let l := LowNode.set_is_tt true c in
      Some ({| tt_ := <[hash := l]> (tt_ tree); non_tt_ := non_tt_ tree |}, l, true)
  end.
End NodeTree.

(** ** Several iterators over one payload

    Any number of iterators, each possibly in the middle of a call, take
    turns; a turn is one access to shared memory, and the accesses of all
    threads form one sequence (the atomics are taken as sequentially
    consistent). *)

Module System.
Record t := mk { store : Store.t; threads : list Edge_Iterator.Thread }.

Inductive Call := CallIncr | CallGetOrSpawnNode.

Definition call (c : Call) (σ : Store.t) (it : Edge_Iterator.t)
  : option (Store.t * Edge_Iterator.Thread) :=
  match c with
  | CallIncr => th ← Edge_Iterator.incr_call it; Some (σ, th)
  | CallGetOrSpawnNode => Edge_Iterator.GetOrSpawnNode_call σ it
  end.

Inductive step : t → t → Prop :=
| step_begin sys :
    step sys {| store := store sys;
                threads := threads sys ++
                           [Edge_Iterator.begin_call (Store.low (store sys))] |}
| step_call sys i th c σ' th' :
    threads sys !! i = Some th →
    Edge_Iterator.pc th = Edge_Iterator.Ready →
    call c (store sys) (Edge_Iterator.iter th) = Some (σ', th') →
    step sys {| store := σ'; threads := <[i := th']> (threads sys) |}
| step_internal sys i th σ' th' :
    threads sys !! i = Some th →
    Edge_Iterator.thread_step (store sys) th = Some (σ', th') →
    step sys {| store := σ'; threads := <[i := th']> (threads sys) |}.

(** A payload as [SetNNEval] leaves it, with no child yet and no iterator. *)
Definition initial (p : LowNode.t) : t :=
  {| store := {| Store.low := p; Store.nodes := ∅; Store.allocated := 0 |};
     threads := [] |}.

Definition payload_ok (p : LowNode.t) : Prop :=
  LowNode.edges_ok p ∧ LowNode.child_ p = None ∧
  0 ≤ LowNode.num_edges_ p < uint8_max ∧
  (LowNode.edges_ p = None → LowNode.num_edges_ p = 0).

Definition reachable (p : LowNode.t) (sys : t) : Prop :=
  payload_ok p ∧ rtc step (initial p) sys.

(** A schedule names the turns one after the other. *)
Inductive Turn :=
| TBegin                      (* a new iterator is constructed *)
| TCall (i : nat) (c : Call)  (* iterator [i] is called *)
| TStep (i : nat)             (* the call on iterator [i] goes on *).

Definition turn (a : Turn) (sys : t) : option t :=
  match a with
  | TBegin =>
      Some {| store := store sys;
              threads := threads sys ++
                         [Edge_Iterator.begin_call (Store.low (store sys))] |}
  | TCall i c =>
      th ← threads sys !! i;
      match Edge_Iterator.pc th with
      | Edge_Iterator.Ready =>
          '(σ', th') ← call c (store sys) (Edge_Iterator.iter th);
          Some {| store := σ'; threads := <[i := th']> (threads sys) |}
      | _ => None
      end
  | TStep i =>
      th ← threads sys !! i;
      '(σ', th') ← Edge_Iterator.thread_step (store sys) th;
      Some {| store := σ'; threads := <[i := th']> (threads sys) |}
  end.

Fixpoint schedule (turns : list Turn) (sys : t) : option t :=
  match turns with
  | [] => Some sys
  | a :: turns' => sys' ← turn a sys; schedule turns' sys'
  end.
End System.

(** ** The sibling list as a list *)

(** [lseg ns p l q]: following [sibling_] from pointer [p] visits exactly the
    nodes [l] and arrives at pointer [q]. *)
Fixpoint lseg (ns : gmap addr Node.t) (p : option addr) (l : list addr)
    (q : option addr) : Prop :=
  match l with
  | [] => p = q
  | a :: l' => p = Some a ∧ ∃ nd, ns !! a = Some nd ∧ lseg ns (Node.sibling_ nd) l' q
  end.

(** The children of the payload, head first. *)
Definition children (σ : Store.t) (l : list addr) : Prop :=
  lseg (Store.nodes σ) (LowNode.child_ (Store.low σ)) l None.

Definition index_of (ns : gmap addr Node.t) (a : addr) : Z :=
  from_option Node.Index 0 (ns !! a).

Definition indices (σ : Store.t) (l : list addr) : list Z :=
  index_of (Store.nodes σ) <$> l.

(** Strictly ascending, and above [lo]. *)
Fixpoint ascending (lo : Z) (xs : list Z) : Prop :=
  match xs with
  | [] => True
  | x :: xs' => lo < x ∧ ascending x xs'
  end.

(** ** What holds between any two accesses to shared memory *)

(** The slot an iterator at index [cur] holds belongs to the payload or to a
    child with a smaller index. *)
Definition behind (ns : gmap addr Node.t) (l : list addr) (cur : Z) (s : Slot)
  : Prop :=
  match s with
  | ChildSlot => True
  | SiblingSlot a => a ∈ l ∧ index_of ns a < cur
  end.

(** The node a call of [GetOrSpawnNode] has prepared: in the store, not
    linked, with the iterator's index and with [sibling_ = sib]. *)
Definition prepared (σ : Store.t) (l : list addr) (cur : Z) (new_node : addr)
    (sib : option addr) : Prop :=
  (new_node ∉ l) ∧
  ∃ nd, Store.nodes σ !! new_node = Some nd ∧ Node.Index nd = cur ∧
        Node.sibling_ nd = sib ∧ cur < LowNode.num_edges_ (Store.low σ).

Definition owns (th : Edge_Iterator.Thread) : option addr :=
  match Edge_Iterator.pc th with
  | Edge_Iterator.InActualize (Edge_Iterator.KSpawn a) => Some a
  | Edge_Iterator.AtExchange a _ => Some a
  | _ => None
  end.

Definition thread_ok (σ : Store.t) (l : list addr) (th : Edge_Iterator.Thread)
  : Prop :=
  let it := Edge_Iterator.iter th in
  let cur := Edge_Iterator.current_idx_ it in
  let total := Edge_Iterator.total_count_ it in
  let ns := Store.nodes σ in
  total = LowNode.num_edges_ (Store.low σ) ∧
  match Edge_Iterator.pc th with
  | Edge_Iterator.Ready =>
      (Edge_Iterator.edge_ it ≠ None →
       0 ≤ cur ∧ (cur < total ∨ total = 0) ∧
       match Edge_Iterator.node_ it with
       | Some a =>
           Edge_Iterator.node_ptr_ it = SiblingSlot a ∧ a ∈ l ∧ index_of ns a = cur
       | None => behind ns l cur (Edge_Iterator.node_ptr_ it)
       end) ∧
      (Edge_Iterator.edge_ it = None → ¬ (0 ≤ cur < total))
  | Edge_Iterator.InActualize k =>
      Edge_Iterator.edge_ it ≠ None ∧
      0 ≤ cur ∧ (cur < total ∨ total = 0) ∧
      behind ns l cur (Edge_Iterator.node_ptr_ it) ∧
      match k with
      | Edge_Iterator.KReturn => True
      | Edge_Iterator.KSpawn new_node => prepared σ l cur new_node None
      end
  | Edge_Iterator.AtExchange new_node node =>
      Edge_Iterator.edge_ it ≠ None ∧
      0 ≤ cur ∧ (cur < total ∨ total = 0) ∧
      behind ns l cur (Edge_Iterator.node_ptr_ it) ∧
      prepared σ l cur new_node node ∧
      match node with
      | Some e => e ∈ l ∧ cur < index_of ns e
      | None => True
      end
  end.

(** The store of a system grown from payload [p], with children [l]: the
    payload is [p] but for [child_], the children are linked in ascending
    order of index, below [num_edges], and every node has an address below
    [allocated]. *)
Definition store_ok (p : LowNode.t) (σ : Store.t) (l : list addr) : Prop :=
  System.payload_ok p ∧
  LowNode.set_child None (Store.low σ) = p ∧
  children σ l ∧
  ascending (-1) (indices σ l) ∧
  Forall (λ i, i < LowNode.num_edges_ p) (indices σ l) ∧
  (∀ a, is_Some (Store.nodes σ !! a) → (a < Store.allocated σ)%nat).

(** No two calls in progress have prepared the same node. *)
Definition sys_ok (p : LowNode.t) (sys : System.t) (l : list addr) : Prop :=
  store_ok p (System.store sys) l ∧
  (∀ i th, System.threads sys !! i = Some th →
           thread_ok (System.store sys) l th) ∧
  (∀ i j thi thj a,
     System.threads sys !! i = Some thi → System.threads sys !! j = Some thj →
     owns thi = Some a → owns thj = Some a → i = j).

(** What a step of one thread leaves alone for the others: the children
    stay children with their indices, and every unlinked node but [x], the
    one the stepping thread has prepared, stays unlinked and unchanged. *)
Definition frame (x : addr) (σ : Store.t) (l : list addr) (σ' : Store.t)
    (l' : list addr) : Prop :=
  LowNode.num_edges_ (Store.low σ') = LowNode.num_edges_ (Store.low σ) ∧
  (∀ a, a ∈ l →
     a ∈ l' ∧ index_of (Store.nodes σ') a = index_of (Store.nodes σ) a) ∧
  (∀ b nd, b ≠ x → b ∉ l → Store.nodes σ !! b = Some nd →
     (b ∉ l') ∧ Store.nodes σ' !! b = Some nd).

(** The slot [Actualize] holds after it has walked over the nodes [pre]. *)
Definition slot_after (s : Slot) (pre : list addr) : Slot :=
  from_option SiblingSlot s (last pre).

(** ** What the visited-node iterator is expected to yield *)

(** A node that was neither visited nor reserved. *)
Definition unvisited (ns : gmap addr Node.t) (a : addr) : bool :=
  match ns !! a with
  | Some nd => (Node.GetN nd =? 0) && (Node.GetNInFlight nd =? 0)
  | None => false
  end.

Definition has_visits (ns : gmap addr Node.t) (a : addr) : bool :=
  match ns !! a with
  | Some nd => 0 <? Node.GetN nd
  | None => false
  end.

(** The nodes before the first unvisited one. *)
Fixpoint until_unvisited (ns : gmap addr Node.t) (l : list addr) : list addr :=
  match l with
  | [] => []
  | a :: l' => if unvisited ns a then [] else a :: until_unvisited ns l'
  end.

(** Where [operator++] stops when the nodes after the current one are [l]. *)
Fixpoint next_visited (ns : gmap addr Node.t) (l : list addr) : option addr :=
  match l with
  | [] => None
  | a :: l' =>
      if unvisited ns a then None
      else if has_visits ns a then Some a
      else next_visited ns l'
  end.

Definition nodes_in_range (ns : gmap addr Node.t) : Prop :=
  ∀ a nd, ns !! a = Some nd → Node.in_range nd.

(** ** Sample data *)

Module Sample.
Definition edges3 : list Edge.t :=
  [Edge.mk 796 14336; Edge.mk 731 12288; Edge.mk 666 9216].

Definition eval3 : NNEval.t :=
  {| NNEval.edges := Some edges3;
     NNEval.q := 0.5; NNEval.d := 0.25; NNEval.e := 0.125; NNEval.m := 30;
     NNEval.num_edges := 3 |}.

(** A payload with three edges, as [SetNNEval] leaves it. *)
Definition evaluated : LowNode.t :=
  {| LowNode.wl_ := 0.5; LowNode.vs_ := 0.25; LowNode.weight_ := 0;
     LowNode.d_ := 0.25; LowNode.hash_ := 77;
     LowNode.edges_ := Some edges3; LowNode.child_ := None;
     LowNode.m_ := 30; LowNode.v_ := 0.5; LowNode.e_ := 0.125;
     LowNode.n_ := 0; LowNode.num_parents_ := 0; LowNode.num_edges_ := 3;
     LowNode.terminal_type_ := NonTerminal;
     LowNode.lower_bound_ := BLACK_WON; LowNode.upper_bound_ := WHITE_WON;
     LowNode.is_transposition := false; LowNode.is_tt_ := true |}.

(** What two completed visits may leave in the aggregates. *)
Definition two_visits : LowNode.Statistics :=
  {| LowNode.s_n := 2; LowNode.s_wl := 0.25; LowNode.s_d := 0.5;
     LowNode.s_m := 20; LowNode.s_vs := 0.125; LowNode.s_weight := 2 |}.

Definition visited : LowNode.t := LowNode.set_statistics two_visits evaluated.

(** Two children: the first was spawned and its reservation cancelled, the
    second has five visits. *)
Definition cancelled_then_visited : Store.t :=
  {| Store.low := LowNode.set_child (Some 0%nat) evaluated;
     Store.nodes :=
       {[ 0%nat := Node.set_sibling (Some 1%nat) (Node.make (Edge.mk 796 14336) 0);
          1%nat := Node.mk 0.5 0.25 5 0.25 None None 30 5 0
                     (Edge.mk 731 12288) 1 NonTerminal BLACK_WON WHITE_WON false ]};
     Store.allocated := 2 |}.

(** One thread asks for the node of edge 1, then through a second iterator
    for the node of edge 0, then for the node of edge 2. *)
Definition descent : list System.Turn :=
  [System.TBegin; System.TStep 0;
   System.TCall 0 System.CallIncr; System.TStep 0;
   System.TCall 0 System.CallGetOrSpawnNode;
   System.TStep 0; System.TStep 0; System.TStep 0;
   System.TBegin; System.TStep 1;
   System.TCall 1 System.CallGetOrSpawnNode;
   System.TStep 1; System.TStep 1; System.TStep 1;
   System.TCall 0 System.CallIncr; System.TStep 0;
   System.TCall 0 System.CallGetOrSpawnNode;
   System.TStep 0; System.TStep 0; System.TStep 0].

Definition after_descent : System.t :=
  default (System.initial evaluated)
    (System.schedule descent (System.initial evaluated)).

(** Two iterators are constructed over [evaluated]; the second one spawns
    the node of edge 0 while the first one still holds no node. *)
Definition second_spawns : list System.Turn :=
  [System.TBegin; System.TStep 0; System.TBegin; System.TStep 1;
   System.TCall 1 System.CallGetOrSpawnNode;
   System.TStep 1; System.TStep 1; System.TStep 1].

Definition after_second_spawns : System.t :=
  default (System.initial evaluated)
    (System.schedule second_spawns (System.initial evaluated)).

(** The first of the two iterators: at edge 0, holding no node. *)
Definition first_iterator : Edge_Iterator.Thread :=
  {| Edge_Iterator.iter :=
       {| Edge_Iterator.edge_ := Some 0; Edge_Iterator.node_ := None;
          Edge_Iterator.node_ptr_ := ChildSlot;
          Edge_Iterator.current_idx_ := 0; Edge_Iterator.total_count_ := 3 |};
     Edge_Iterator.pc := Edge_Iterator.Ready |}.

(** Both iterators call [GetOrSpawnNode] for edge 0 and both reach the
    compare-exchange before either performs it. *)
Definition both_prepared : list System.Turn :=
  [System.TBegin; System.TStep 0; System.TBegin; System.TStep 1;
   System.TCall 0 System.CallGetOrSpawnNode;
   System.TCall 1 System.CallGetOrSpawnNode;
   System.TStep 0; System.TStep 1].

(** The second iterator has performed its exchange, the first one is still
    about to. *)
Definition after_winner : System.t :=
  default (System.initial evaluated)
    (System.schedule (both_prepared ++ [System.TStep 1]) (System.initial evaluated)).

Definition loser : Edge_Iterator.Thread :=
  {| Edge_Iterator.iter :=
       {| Edge_Iterator.edge_ := Some 0; Edge_Iterator.node_ := None;
          Edge_Iterator.node_ptr_ := ChildSlot;
          Edge_Iterator.current_idx_ := 0; Edge_Iterator.total_count_ := 3 |};
     Edge_Iterator.pc := Edge_Iterator.AtExchange 0%nat None |}.

(** The second iterator wins the exchange, the first one loses it, looks
    again and gives up its node. *)
Definition race : list System.Turn :=
  both_prepared ++
  [System.TStep 1; System.TStep 0; System.TStep 1; System.TStep 0].

Definition after_race : System.t :=
  default (System.initial evaluated)
    (System.schedule race (System.initial evaluated)).

(** An evaluation of a position without legal moves. *)
Definition eval0 : NNEval.t :=
  {| NNEval.edges := Some [];
     NNEval.q := 0; NNEval.d := 1; NNEval.e := 0; NNEval.m := 0;
     NNEval.num_edges := 0 |}.

(** The payload [SetNNEval] makes of it, whose [edges_] is an allocation of
    zero edges, and the store that holds nothing else. *)
Definition no_moves : LowNode.t :=
  {| LowNode.wl_ := 0; LowNode.vs_ := 0; LowNode.weight_ := 0;
     LowNode.d_ := 1; LowNode.hash_ := 5;
     LowNode.edges_ := Some []; LowNode.child_ := None;
     LowNode.m_ := 0; LowNode.v_ := 0; LowNode.e_ := 0;
     LowNode.n_ := 0; LowNode.num_parents_ := 0; LowNode.num_edges_ := 0;
     LowNode.terminal_type_ := NonTerminal;
     LowNode.lower_bound_ := BLACK_WON; LowNode.upper_bound_ := WHITE_WON;
     LowNode.is_transposition := false; LowNode.is_tt_ := true |}.

Definition no_moves_store : Store.t :=
  {| Store.low := no_moves; Store.nodes := ∅; Store.allocated := 0 |}.
End Sample.

(** ** What the iterators leave of a node *)

(** [evolves nd nd']: [nd'] is [nd] but for its [sibling_]. *)
Definition evolves (nd nd' : Node.t) : Prop :=
  nd' = Node.set_sibling (Node.sibling_ nd') nd.

(** A node as [Node(edge, index)] made it from the edge of [low] at its
    index, but for [sibling_]. *)
Definition as_spawned (low : LowNode.t) (nd : Node.t) : Prop :=
  ∃ e, LowNode.GetEdgeAt low (Node.Index nd) = Some e ∧
       evolves (Node.make e (Node.Index nd)) nd.

(** Every node in the store is a child or the node a call in progress has
    prepared. *)
Definition accounted (sys : System.t) (l : list addr) : Prop :=
  ∀ a, is_Some (Store.nodes (System.store sys) !! a) →
    a ∈ l ∨ ∃ i th, System.threads sys !! i = Some th ∧ owns th = Some a.

(** ** What an iteration over the edges is expected to yield *)

(** The child at index [j], if there is one. *)
Definition node_at (ns : gmap addr Node.t) (l : list addr) (j : Z) : option addr :=
  head (filter (λ a, index_of ns a = j) l).

(** Every offset of an array of [n] edges, with the child at that index. *)
Definition edges_with_nodes (ns : gmap addr Node.t) (l : list addr) (n : Z)
  : list (Z * option addr) :=
  (λ j, (j, node_at ns l j)) <$> seqZ 0 n.

(** ** Counting parents *)

(** The change an operation makes to the number of parents. *)
Definition parent_delta (o : LowNode.ParentOp) : Z :=
  match o with LowNode.OpAddParent => 1 | LowNode.OpRemoveParent => -1 end.

(** The number of parents after the operations, from [n] on. *)
Definition parent_balance (n : Z) (os : list LowNode.ParentOp) : Z :=
  foldl (λ k o, k + parent_delta o) n os.

(** The largest number of parents on the way. *)
Fixpoint parent_peak (n : Z) (os : list LowNode.ParentOp) : Z :=
  match os with
  | [] => n
  | o :: os' => Z.max n (parent_peak (n + parent_delta o) os')
  end.

(** ** A payload constructed with its first child *)

(** Defined elsewhere.  [Edge::FromMovelist] "creates array of edges from the
    list of moves"; an [Edge] starts with [p_ = 0], and the constructor below
    is said to "init edges_ with moves from moves and 0 policy". *)
Definition Edge_FromMovelist (moves : list Move) : list Edge.t :=
  (λ m, Edge.mk m 0) <$> moves.

(** [LowNode(uint64_t hash, const MoveList& moves, uint16_t index)], for
    non-TT nodes: the payload and its first child, in a store of their own.
    [num_edges_(moves.size())] narrows the size to [uint8_t], and reading
    [edges_[index]] outside the array is undefined. *)
Definition LowNode_with_child (hash : Z) (moves : list Move) (index : Z)
  : option Store.t :=
  let es := Edge_FromMovelist moves in
  e ← (if decide (0 ≤ index) then es !! Z.to_nat index else None);
  Some {| Store.low :=
            {| LowNode.wl_ := 0; LowNode.vs_ := 0; LowNode.weight_ := 0;
               LowNode.d_ := 0; LowNode.hash_ := hash;
               LowNode.edges_ := Some es; LowNode.child_ := Some 0%nat;
               LowNode.m_ := 0; LowNode.v_ := 0; LowNode.e_ := 0;
               LowNode.n_ := 0; LowNode.num_parents_ := 0;
               LowNode.num_edges_ := Z.of_nat (length moves) mod uint8_max;
               LowNode.terminal_type_ := NonTerminal;
               LowNode.lower_bound_ := BLACK_WON;
               LowNode.upper_bound_ := WHITE_WON;
               LowNode.is_transposition := false; LowNode.is_tt_ := false |};
          Store.nodes := {[ 0%nat := Node.make e index ]};
          Store.allocated := 1 |}.

(** ** Edge and node pairs *)

(** The conversion of a [uint32_t] to [int]. *)
Definition to_int (x : Z) : Z := if x <? 2 ^ 31 then x else x - 2 ^ 32.

(** [Node::GetNStarted()]: [n_ + n_in_flight_] on [uint32_t], returned as
    [int]. *)
Definition Node_GetNStarted (nd : Node.t) : Z :=
  to_int ((Node.n_ nd + Node.n_in_flight_ nd) mod uint32_max).

(** [Node::IsTerminal()], [Node::IsTbTerminal()] and [Node::GetBounds()] *)
Definition Node_IsTerminal (nd : Node.t) : bool :=
  match Node.terminal_type_ nd with NonTerminal => false | _ => true end.

Definition Node_IsTbTerminal (nd : Node.t) : bool :=
  match Node.terminal_type_ nd with Tablebase => true | _ => false end.

Definition Node_GetBounds (nd : Node.t) : Bounds :=
  (Node.lower_bound_ nd, Node.upper_bound_ nd).

(** [EdgeAndNode] is the base class of [Edge_Iterator]: its [edge_] and
    [node_] are the iterator's.  A getter that goes through [node_] has no
    value when the node is not in the store. *)
Module EdgeAndNode.
(** [explicit operator bool()] *)
Definition to_bool (it : Edge_Iterator.t) : bool :=
  bool_decide (Edge_Iterator.edge_ it ≠ None).

Definition HasNode (it : Edge_Iterator.t) : bool :=
  bool_decide (Edge_Iterator.node_ it ≠ None).

(** [node_ ? node_->f() : d] *)
Definition via_node {A} (ns : gmap addr Node.t) (it : Edge_Iterator.t)
    (f : Node.t → A) (d : A) : option A :=
  match Edge_Iterator.node_ it with
  | Some a => f <$> ns !! a
  | None => Some d
  end.

Definition GetN ns it := via_node ns it Node.GetN 0.
Definition GetNStarted ns it := via_node ns it Node_GetNStarted 0.
Definition GetNInFlight ns it := via_node ns it Node.GetNInFlight 0.
Definition IsTerminal ns it := via_node ns it Node_IsTerminal false.
Definition IsTbTerminal ns it := via_node ns it Node_IsTbTerminal false.
Definition GetBounds ns it := via_node ns it Node_GetBounds (BLACK_WON, WHITE_WON).
End EdgeAndNode.

(** What an iterator holds in [node_] is a child. *)
Definition node_ok (l : list addr) (th : Edge_Iterator.Thread) : Prop :=
  ∀ a, Edge_Iterator.node_ (Edge_Iterator.iter th) = Some a → a ∈ l.

(** * The cache in front of the network: [src/neural/cache.cc] *)

(** [NetworkComputation] (neural/network.h), the interface of the wrapped
    computation, as far as [cache.cc] uses it to queue inputs. *)
Class NetworkComputation (P Input : Type) := {
  parent_AddInput : Input → P → P;
  parent_GetBatchSize : P → Z }.

(** A computation whose batch size counts the inputs added to it. *)
Class CountsInputs (P Input : Type) `{!NetworkComputation P Input} : Prop :=
  counts_inputs : ∀ (x : Input) (q : P),
    parent_GetBatchSize (parent_AddInput x q) = parent_GetBatchSize q + 1.

(** The plainest such computation: the list of its inputs. *)
Global Instance list_computation (Input : Type)
  : NetworkComputation (list Input) Input :=
  {| parent_AddInput x q := q ++ [x];
     parent_GetBatchSize q := Z.of_nat (length q) |}.

Module CachingComputation.
(** [WorkItem] is declared in neural/cache.h, which is not among the sources.
    [lock] is the cache entry an [NNCacheLock] holds, [None] for a lock that
    holds none; [emplace_back()] leaves [idx_in_parent = -1], the value
    [PopCacheHit] asserts right after [AddInputByHash]. *)
Record WorkItem := mkWorkItem {
  hash : Z;
  lock : option NNEval.t;
  idx_in_parent : Z;
  eval : option NNEval.t;
  transform : Z }.

(** [cache_] is only looked up here: the entries by hash. *)
Record t (P : Type) := mk {
  parent_ : P;
  batch_ : list WorkItem;
  cache_ : gmap Z NNEval.t }.
Arguments mk {P}.
Arguments parent_ {P}.
Arguments batch_ {P}.
Arguments cache_ {P}.

Section computation.
Context {P Input : Type} `{!NetworkComputation P Input}.

Definition GetCacheMisses (c : t P) : Z := parent_GetBatchSize (parent_ c).

Definition GetBatchSize (c : t P) : Z := Z.of_nat (length (batch_ c)).

(** [AddInputByHash(uint64_t hash, NNCacheLock&& lock)] *)
Definition AddInputByHash_lock (ndebug : bool) (h : Z) (lk : option NNEval.t)
    (c : t P) : option (t P) :=
  _ ← assert_ ndebug (bool_decide (lk ≠ None));
  Some {| parent_ := parent_ c;
          batch_ := batch_ c ++ [{| hash := h; lock := lk; idx_in_parent := -1;
                                    eval := None; transform := 0 |}];
          cache_ := cache_ c |}.

(** [bool AddInputByHash(uint64_t hash)] *)
Definition AddInputByHash (ndebug : bool) (h : Z) (c : t P) : option (t P * bool) :=
  match cache_ c !! h with
  | None => Some (c, false)
  | Some e => c' ← AddInputByHash_lock ndebug h (Some e) c; Some (c', true)
  end.

(** [PopCacheHit()]; [pop_back()] on an empty batch is undefined. *)
Definition PopCacheHit (ndebug : bool) (c : t P) : option (t P) :=
  item ← last (batch_ c);
  _ ← assert_ ndebug (bool_decide (lock item ≠ None));
  _ ← assert_ ndebug (idx_in_parent item =? -1);
  Some {| parent_ := parent_ c; batch_ := removelast (batch_ c);
          cache_ := cache_ c |}.

(** [AddInput(uint64_t hash, const PositionHistory& history)], where [input]
    and [tr] are what [EncodePositionForNN] makes of [history] and [moves]
    are the legal moves of its last position. *)
Definition AddInput (ndebug : bool) (h : Z) (input : Input) (tr : Z)
    (moves : list Move) (c : t P) : option (t P) :=
  '(c1, hit) ← AddInputByHash ndebug h c;
  if hit : bool then Some c1
  else
    Some {| parent_ := parent_AddInput input (parent_ c);
            batch_ := batch_ c ++
              [{| hash := h; lock := None;
                  idx_in_parent := parent_GetBatchSize (parent_ c);
                  eval := Some {| NNEval.edges := Some (Edge_FromMovelist moves);
                                  NNEval.q := 0; NNEval.d := 0; NNEval.e := 0;
                                  NNEval.m := 0;
                                  NNEval.num_edges :=
                                    Z.of_nat (length moves) mod uint8_max |};
                  transform := tr |}];
            cache_ := cache_ c |}.

(** [PopLastInputHit()] *)
Definition PopLastInputHit (ndebug : bool) (c : t P) : option (t P) :=
  item ← last (batch_ c);
  _ ← assert_ ndebug (idx_in_parent item =? -1);
  Some {| parent_ := parent_ c; batch_ := removelast (batch_ c);
          cache_ := cache_ c |}.

(** [GetNNEval(int sample)]; [batch_[sample]] outside the batch and
    [item.lock->eval] through a lock that holds nothing are undefined. *)
Definition GetNNEval (sample : Z) (c : t P) : option (option NNEval.t) :=
  item ← (if decide (0 ≤ sample) then batch_ c !! Z.to_nat sample else None);
  if 0 <=? idx_in_parent item then Some (eval item)
  else e ← lock item; Some (Some e).

(** The calls that fill and trim the batch. *)
Inductive Op :=
| OpAddInput (h : Z) (input : Input) (tr : Z) (moves : list Move)
| OpAddInputByHash (h : Z)
| OpPopCacheHit
| OpPopLastInputHit.

Definition op (ndebug : bool) (o : Op) (c : t P) : option (t P) :=
  match o with
  | OpAddInput h input tr moves => AddInput ndebug h input tr moves c
  | OpAddInputByHash h => fst <$> AddInputByHash ndebug h c
  | OpPopCacheHit => PopCacheHit ndebug c
  | OpPopLastInputHit => PopLastInputHit ndebug c
  end.

Fixpoint ops (ndebug : bool) (os : list Op) (c : t P) : option (t P) :=
  match os with
  | [] => Some c
  | o :: os' => c' ← op ndebug o c; ops ndebug os' c'
  end.

(** The items that wait for the network, and those served by the cache. *)
Definition is_miss (item : WorkItem) : bool := 0 <=? idx_in_parent item.

Definition misses (c : t P) : list WorkItem := filter (λ x, is_miss x = true) (batch_ c).

Definition hits (c : t P) : list WorkItem := filter (λ x, is_miss x = false) (batch_ c).

(** The batch and the wrapped computation agree: the items that wait for the
    network are numbered in the order in which they were queued there, and
    every other item holds the cache entry of its hash. *)
Definition batch_ok (c : t P) : Prop :=
  GetCacheMisses c = Z.of_nat (length (misses c)) ∧
  idx_in_parent <$> misses c = seqZ 0 (Z.of_nat (length (misses c))) ∧
  Forall (λ x, idx_in_parent x = -1 ∧ lock x = cache_ c !! hash x ∧
               is_Some (lock x)) (hits c).
End computation.
End CachingComputation.

(** ** More sample data *)

Module Scenario.
(** One iterator over [Sample.evaluated], at edge 0, before any child was
    made: its thread is [Sample.first_iterator]. *)
Definition one_iterator : System.t :=
  default (System.initial Sample.evaluated)
    (System.schedule [System.TBegin; System.TStep 0]
       (System.initial Sample.evaluated)).

(** After [Sample.second_spawns], the first iterator moves on to edge 1 and
    asks for its node. *)
Definition first_moves_on : list System.Turn :=
  [System.TCall 0 System.CallIncr; System.TStep 0; System.TStep 0;
   System.TCall 0 System.CallGetOrSpawnNode;
   System.TStep 0; System.TStep 0; System.TStep 0].

Definition after_first_moves_on : System.t :=
  default Sample.after_second_spawns
    (System.schedule first_moves_on Sample.after_second_spawns).

(** The first thread of [Sample.after_descent]. *)
Definition at_edge_2 : Edge_Iterator.Thread :=
  {| Edge_Iterator.iter :=
       {| Edge_Iterator.edge_ := Some 2; Edge_Iterator.node_ := Some 2%nat;
          Edge_Iterator.node_ptr_ := SiblingSlot 2%nat;
          Edge_Iterator.current_idx_ := 2; Edge_Iterator.total_count_ := 3 |};
     Edge_Iterator.pc := Edge_Iterator.Ready |}.

(** The node of edge 0 in [Sample.after_descent]; the node of edge 1 follows
    it. *)
Definition node_of_edge_0 : Node.t :=
  Node.set_sibling (Some 0%nat) (Node.make (Edge.mk 796 14336) 0).

(** Two parents come, both go, one comes back. *)
Definition parents : list LowNode.ParentOp :=
  [LowNode.OpAddParent; LowNode.OpAddParent; LowNode.OpRemoveParent;
   LowNode.OpRemoveParent; LowNode.OpAddParent].

(** A cache that knows position 5, in front of a network that has nothing
    queued; positions 5, 6 and 7 are asked for, with a probe of position 5
    that is taken back. *)
Definition cache_with_one : CachingComputation.t (list Z) :=
  CachingComputation.mk [] [] {[ 5 := Sample.eval3 ]}.

Definition requests : list (@CachingComputation.Op Z) :=
  [CachingComputation.OpAddInput 5 10 0 [796; 731];
   CachingComputation.OpAddInput 6 11 1 [666];
   CachingComputation.OpAddInputByHash 5;
   CachingComputation.OpPopCacheHit;
   CachingComputation.OpAddInput 7 12 0 []].

Definition after_requests : CachingComputation.t (list Z) :=
  default cache_with_one (CachingComputation.ops false requests cache_with_one).
End Scenario.

(** * Properties *)

(** C9: [ClearTT] negates the flag.  On a payload whose [IsTT()] is false it
    makes [IsTT()] true, and two calls in a row give back the payload
    unchanged. *)
Theorem ClearTT_negates (l : LowNode.t) :
  LowNode.IsTT (LowNode.ClearTT l) = negb (LowNode.IsTT l) ∧
  LowNode.IsTT (LowNode.ClearTT (LowNode.set_is_tt false l)) = true ∧
  LowNode.IsTT (LowNode.ClearTT (LowNode.ClearTT l)) = LowNode.IsTT l ∧
  LowNode.ClearTT (LowNode.ClearTT l) = l.
Proof.
  destruct l as [? ? ? ? ? ? ? ? ? ? ? ? ? ? ? ? ? tt].
  destruct tt; repeat split.
Qed.

(** C10: [GetChildrenVisits] is [n - 1] modulo 2^32: it is [2^32 - 1] on a
    payload with [n = 0], and the exact [n - 1] for every [n ≥ 1] that a
    [uint32_t] holds. *)
Theorem GetChildrenVisits_wraps (l : LowNode.t) :
  LowNode.GetChildrenVisits l = (LowNode.GetN l - 1) mod 2 ^ 32 ∧
  (LowNode.GetN l = 0 → LowNode.GetChildrenVisits l = 2 ^ 32 - 1) ∧
  (1 ≤ LowNode.GetN l < 2 ^ 32 → LowNode.GetChildrenVisits l = LowNode.GetN l - 1).
Proof.
  unfold LowNode.GetChildrenVisits, LowNode.GetN, uint32_max.
  split; [done|]. split.
  - intros ->. reflexivity.
  - intros H. apply Z.mod_small. lia.
Qed.

(** ** Parent count and the transposition flag *)

Lemma parent_op_keeps_flag ndebug o l l' :
  LowNode.parent_op ndebug o l = Some l' →
  LowNode.IsTransposition l = true → LowNode.IsTransposition l' = true.
Proof.
  destruct o; cbn; unfold LowNode.AddParent, LowNode.RemoveParent;
    intros H Ht; simplify_option_eq; cbn; unfold LowNode.IsTransposition in Ht;
    rewrite ?Ht; done.
Qed.

Lemma parent_ops_keep_flag ndebug os : ∀ l l',
  LowNode.parent_ops ndebug os l = Some l' →
  LowNode.IsTransposition l = true → LowNode.IsTransposition l' = true.
Proof.
  induction os as [|o os IH]; cbn; intros l l' H Ht.
  - by simplify_eq.
  - destruct (LowNode.parent_op ndebug o l) as [l1|] eqn:E; [|done].
    cbn in H. eauto using parent_op_keeps_flag.
Qed.

Lemma AddParent_sets_flag ndebug l l1 :
  LowNode.AddParent ndebug l = Some l1 →
  1 < LowNode.GetNumParents l1 → LowNode.IsTransposition l1 = true.
Proof.
  unfold LowNode.AddParent. intros H Hn. simplify_option_eq.
  cbn in *. apply orb_true_iff. right. by apply Z.ltb_lt.
Qed.

(** With the assertions compiled out no call fails: the counter wraps. *)
Lemma parent_ops_total os : ∀ l, is_Some (LowNode.parent_ops true os l).
Proof.
  induction os as [|[] os IH]; cbn; intros l; eauto.
Qed.

(** C4: once an [AddParent] has left [num_parents_] above 1, every later
    sequence of [AddParent] and [RemoveParent] calls leaves
    [IsTransposition()] true, with or without assertions. *)
Theorem transposition_is_sticky ndebug (l l1 l2 : LowNode.t)
    (os : list LowNode.ParentOp) :
  LowNode.AddParent ndebug l = Some l1 →
  1 < LowNode.GetNumParents l1 →
  LowNode.parent_ops ndebug os l1 = Some l2 →
  LowNode.IsTransposition l2 = true.
Proof.
  intros Ha Hn Hops.
  eapply parent_ops_keep_flag; [exact Hops|].
  eapply AddParent_sets_flag; eauto.
Qed.

(** With the assertions active the flag also follows the counter: from a
    payload whose counter is in range and whose flag is set if the counter
    is above 1 (a fresh payload, for one), no sequence of calls reaches a
    counter above 1 with the flag down. *)
Lemma parent_ops_invariant os : ∀ l l',
  0 ≤ LowNode.GetNumParents l < uint16_max →
  (1 < LowNode.GetNumParents l → LowNode.IsTransposition l = true) →
  LowNode.parent_ops false os l = Some l' →
  1 < LowNode.GetNumParents l' → LowNode.IsTransposition l' = true.
Proof.
  unfold LowNode.GetNumParents, LowNode.IsTransposition, uint16_max.
  induction os as [|o os IH]; cbn; intros l l' Hr Hinv H.
  - by simplify_eq.
  - destruct (LowNode.parent_op false o l) as [l1|] eqn:E; [|done]. cbn in H.
    eapply (IH l1); [| |exact H]; clear IH H;
      destruct o; cbn in E; unfold LowNode.AddParent, LowNode.RemoveParent,
        assert_, uint16_max in E; cbn in E.
    + destruct (0 <? _) eqn:E0; [|done]. cbn in E. simplify_eq. cbn.
      apply Z.mod_pos_bound. lia.
    + destruct (0 <? _) eqn:E0; [|done]. cbn in E. simplify_eq. cbn.
      apply Z.mod_pos_bound. lia.
    + destruct (0 <? _) eqn:E0; [|done]. cbn in E. simplify_eq. cbn.
      intros H1. apply orb_true_iff. right. by apply Z.ltb_lt.
    + destruct (0 <? _) eqn:E0; [|done]. cbn in E. simplify_eq. cbn.
      apply Z.ltb_lt in E0. rewrite Z.mod_small by lia. intros H1. apply Hinv. lia.
Qed.

(** Without them a [RemoveParent] on a payload without parents wraps the
    counter to 65535 and leaves the flag down. *)
Example RemoveParent_wraps :
  (λ l, (LowNode.GetNumParents l, LowNode.IsTransposition l)) <$>
    LowNode.RemoveParent true (LowNode.make 7) = Some (65535, false) ∧
  LowNode.RemoveParent false (LowNode.make 7) = None.
Proof. by vm_compute. Qed.

Lemma transposition_is_sticky_witness :
  LowNode.AddParent false (LowNode.set_parents 1 false Sample.evaluated)
    = Some (LowNode.set_parents 2 true Sample.evaluated) ∧
  1 < LowNode.GetNumParents (LowNode.set_parents 2 true Sample.evaluated) ∧
  LowNode.parent_ops false
    [LowNode.OpRemoveParent; LowNode.OpRemoveParent; LowNode.OpAddParent]
    (LowNode.set_parents 2 true Sample.evaluated)
    = Some (LowNode.set_parents 1 true Sample.evaluated) ∧
  LowNode.IsTransposition (LowNode.set_parents 1 true Sample.evaluated) = true.
Proof.
  assert (H1 : LowNode.AddParent false (LowNode.set_parents 1 false Sample.evaluated)
               = Some (LowNode.set_parents 2 true Sample.evaluated))
    by (vm_compute; reflexivity).
  assert (H2 : 1 < LowNode.GetNumParents (LowNode.set_parents 2 true Sample.evaluated))
    by (vm_compute; reflexivity).
  assert (H3 : LowNode.parent_ops false
                 [LowNode.OpRemoveParent; LowNode.OpRemoveParent; LowNode.OpAddParent]
                 (LowNode.set_parents 2 true Sample.evaluated)
               = Some (LowNode.set_parents 1 true Sample.evaluated))
    by (vm_compute; reflexivity).
  split; [exact H1|]. split; [exact H2|]. split; [exact H3|].
  exact (transposition_is_sticky false _ _ _ _ H1 H2 H3).
Defined.

(** ** Copies of a payload *)

Lemma memcpy_edges_all (es : list Edge.t) (n : Z) :
  Z.of_nat (length es) = n → memcpy_edges es n = Some es.
Proof.
  intros <-. unfold memcpy_edges. rewrite decide_True by lia.
  by rewrite Nat2Z.id, firstn_all.
Qed.

(** The payload that [SetNNEval] makes of a fresh TT payload holds exactly
    the evaluation's edges. *)
Lemma SetNNEval_edges_ok ndebug eval l l' :
  LowNode.SetNNEval ndebug eval l = Some l' →
  0 ≤ NNEval.num_edges eval → LowNode.edges_ok l'.
Proof.
  unfold LowNode.SetNNEval, memcpy_edges. intros H Hn es.
  simplify_option_eq. cbn. intros [= <-].
  rewrite length_take. lia.
Qed.

Example SetNNEval_sample :
  LowNode.SetNNEval false Sample.eval3 (LowNode.make 77) = Some Sample.evaluated.
Proof. reflexivity. Qed.

(** C5 as stated fails: the clone of a payload with two completed visits
    carries that payload's running [wl], [d], [m] and [vs], where the clone
    of the same payload before the visits carries the evaluation's. *)
Lemma clone_keeps_running_averages :
  Sample.visited = LowNode.set_statistics Sample.two_visits Sample.evaluated ∧
  LowNode.statistics <$> LowNode.copy Sample.evaluated
    = Some {| LowNode.s_n := 0; LowNode.s_wl := 0.5; LowNode.s_d := 0.25;
              LowNode.s_m := 30; LowNode.s_vs := 0.25; LowNode.s_weight := 0 |} ∧
  LowNode.statistics <$> LowNode.copy Sample.visited
    = Some {| LowNode.s_n := 0; LowNode.s_wl := 0.25; LowNode.s_d := 0.5;
              LowNode.s_m := 20; LowNode.s_vs := 0.125; LowNode.s_weight := 0 |} ∧
  PrimFloat.eqb (LowNode.s_wl Sample.two_visits) (LowNode.v_ Sample.visited) = false.
Proof. repeat split. Qed.

(** C5, amended: the clone made by [LowNode(const LowNode&)] has
    [is_tt = false], the source's edges (element by element), hash and
    original evaluation [v], [e]; it has no child, no parent, [n = 0],
    [weight = 0], is not terminal and has the widest bounds.  Its [wl], [d],
    [m] and [vs] are the source's current values. *)
Theorem clone_fields (p : LowNode.t) (es : list Edge.t) :
  LowNode.edges_ p = Some es →
  Z.of_nat (length es) = LowNode.num_edges_ p →
  ∃ c, LowNode.copy p = Some c ∧
    LowNode.IsTT c = false ∧
    LowNode.GetEdges c = Some es ∧
    LowNode.GetNumEdges c = LowNode.GetNumEdges p ∧
    LowNode.GetHash c = LowNode.GetHash p ∧
    LowNode.v_ c = LowNode.v_ p ∧ LowNode.e_ c = LowNode.e_ p ∧
    LowNode.GetChild c = None ∧
    LowNode.GetNumParents c = 0 ∧ LowNode.IsTransposition c = false ∧
    LowNode.GetN c = 0 ∧ LowNode.weight_ c = 0%float ∧
    LowNode.IsTerminal c = false ∧
    LowNode.GetBounds c = (BLACK_WON, WHITE_WON) ∧
    LowNode.wl_ c = LowNode.wl_ p ∧ LowNode.d_ c = LowNode.d_ p ∧
    LowNode.m_ c = LowNode.m_ p ∧ LowNode.vs_ c = LowNode.vs_ p.
Proof.
  intros He Hn. unfold LowNode.copy. rewrite He. cbn.
  rewrite (memcpy_edges_all es _ Hn). cbn.
  eexists. split; [reflexivity|]. repeat split.
Qed.

Lemma clone_fields_witness :
  LowNode.edges_ Sample.visited = Some Sample.edges3 ∧
  Z.of_nat (length Sample.edges3) = LowNode.num_edges_ Sample.visited ∧
  ∃ c, LowNode.copy Sample.visited = Some c ∧
    LowNode.IsTT c = false ∧
    LowNode.GetEdges c = Some Sample.edges3 ∧
    LowNode.GetNumEdges c = LowNode.GetNumEdges Sample.visited ∧
    LowNode.GetHash c = LowNode.GetHash Sample.visited ∧
    LowNode.v_ c = LowNode.v_ Sample.visited ∧
    LowNode.e_ c = LowNode.e_ Sample.visited ∧
    LowNode.GetChild c = None ∧
    LowNode.GetNumParents c = 0 ∧ LowNode.IsTransposition c = false ∧
    LowNode.GetN c = 0 ∧ LowNode.weight_ c = 0%float ∧
    LowNode.IsTerminal c = false ∧
    LowNode.GetBounds c = (BLACK_WON, WHITE_WON) ∧
    LowNode.wl_ c = LowNode.wl_ Sample.visited ∧
    LowNode.d_ c = LowNode.d_ Sample.visited ∧
    LowNode.m_ c = LowNode.m_ Sample.visited ∧
    LowNode.vs_ c = LowNode.vs_ Sample.visited.
Proof.
  split; [reflexivity|]. split; [reflexivity|].
  exact (clone_fields Sample.visited Sample.edges3 eq_refl eq_refl).
Defined.

(** The constructor [LowNode(const LowNode&, uint64_t)] on its own leaves
    [is_tt_] false; the flag of a table entry is set by the table. *)
Lemma copy_hash_not_tt p h c :
  LowNode.copy_hash p h = Some c → LowNode.IsTT c = false.
Proof. unfold LowNode.copy_hash. intros H. by simplify_option_eq. Qed.

(** C6: for a template with its edge array and any hash [h],
    [TTGetOrCreate(template, h)] returns the payload stored under [h], and
    creates one exactly when [h] was absent.  The payload it inserts has the
    template's edges and evaluation, hash [h], [n = 0], [weight = 0], no
    child and [is_tt = true]; the other entries of the table are left as
    they were, and so is the whole table when nothing is inserted. *)
Theorem TTGetOrCreate_inserts_copy (p : LowNode.t) (h : Z) (tree : NodeTree.t)
    (es : list Edge.t) :
  LowNode.edges_ p = Some es →
  Z.of_nat (length es) = LowNode.num_edges_ p →
  ∃ l tree' created,
    NodeTree.TTGetOrCreate p h tree = Some (tree', l, created) ∧
    NodeTree.tt_ tree' !! h = Some l ∧
    (∀ h', h' ≠ h → NodeTree.tt_ tree' !! h' = NodeTree.tt_ tree !! h') ∧
    (created = true ↔ NodeTree.tt_ tree !! h = None) ∧
    (created = false → tree' = tree) ∧
    (created = true →
     LowNode.GetEdges l = Some es ∧
     LowNode.GetNumEdges l = LowNode.GetNumEdges p ∧
     LowNode.v_ l = LowNode.v_ p ∧ LowNode.e_ l = LowNode.e_ p ∧
     LowNode.wl_ l = LowNode.wl_ p ∧ LowNode.d_ l = LowNode.d_ p ∧
     LowNode.m_ l = LowNode.m_ p ∧
     LowNode.GetHash l = h ∧
     LowNode.GetN l = 0 ∧ LowNode.weight_ l = 0%float ∧
     LowNode.GetChild l = None ∧
     LowNode.IsTT l = true).
Proof.
  intros He Hn. unfold NodeTree.TTGetOrCreate, LowNode.copy_hash.
  destruct (NodeTree.tt_ tree !! h) as [l0|] eqn:Hh.
  - exists l0, tree, false. repeat split; try done.
  - rewrite He. cbn. rewrite (memcpy_edges_all es _ Hn). cbn.
    do 3 eexists. split; [reflexivity|]. cbn.
    split; [apply lookup_insert_eq|].
    split; [intros h' Hne; by apply lookup_insert_ne|].
    repeat split; done.
Qed.

Lemma TTGetOrCreate_inserts_copy_witness :
  LowNode.edges_ Sample.visited = Some Sample.edges3 ∧
  Z.of_nat (length Sample.edges3) = LowNode.num_edges_ Sample.visited ∧
  ∃ l tree' created,
    NodeTree.TTGetOrCreate Sample.visited 99 (NodeTree.mk ∅ [])
      = Some (tree', l, created) ∧
    NodeTree.tt_ tree' !! 99 = Some l ∧
    (∀ h', h' ≠ 99 →
       NodeTree.tt_ tree' !! h' = NodeTree.tt_ (NodeTree.mk ∅ []) !! h') ∧
    (created = true ↔ NodeTree.tt_ (NodeTree.mk ∅ []) !! 99 = None) ∧
    (created = false → tree' = NodeTree.mk ∅ []) ∧
    (created = true →
     LowNode.GetEdges l = Some Sample.edges3 ∧
     LowNode.GetNumEdges l = LowNode.GetNumEdges Sample.visited ∧
     LowNode.v_ l = LowNode.v_ Sample.visited ∧
     LowNode.e_ l = LowNode.e_ Sample.visited ∧
     LowNode.wl_ l = LowNode.wl_ Sample.visited ∧
     LowNode.d_ l = LowNode.d_ Sample.visited ∧
     LowNode.m_ l = LowNode.m_ Sample.visited ∧
     LowNode.GetHash l = 99 ∧
     LowNode.GetN l = 0 ∧ LowNode.weight_ l = 0%float ∧
     LowNode.GetChild l = None ∧
     LowNode.IsTT l = true).
Proof.
  split; [reflexivity|]. split; [reflexivity|].
  exact (TTGetOrCreate_inserts_copy Sample.visited 99 (NodeTree.mk ∅ [])
           Sample.edges3 eq_refl eq_refl).
Defined.

(** In the sample the hash is new and the inserted payload is a table
    payload, where the constructor alone would have left a detached one. *)
Example TTGetOrCreate_sample :
  (λ r, (LowNode.IsTT r.1.2, r.2)) <$>
    NodeTree.TTGetOrCreate Sample.visited 99 (NodeTree.mk ∅ [])
  = Some (true, true) ∧
  LowNode.IsTT <$> LowNode.copy_hash Sample.visited 99 = Some false.
Proof. by vm_compute. Qed.

(** A hash that is already in the table gets its stored payload back and
    nothing is inserted. *)
Lemma TTGetOrCreate_hit p h tree l :
  NodeTree.tt_ tree !! h = Some l →
  NodeTree.TTGetOrCreate p h tree = Some (tree, l, false).
Proof. unfold NodeTree.TTGetOrCreate. by intros ->. Qed.

(** ** Visited-node iteration *)

Section visited.
Context (ns : gmap addr Node.t) (Hrange : nodes_in_range ns).

Lemma has_visits_spec a nd :
  ns !! a = Some nd → has_visits ns a = negb (Node.GetN nd =? 0).
Proof.
  intros Ha. unfold has_visits. rewrite Ha.
  destruct (Hrange a nd Ha) as [Hn _]. unfold Node.GetN.
  destruct (Z.eqb_spec (Node.n_ nd) 0), (Z.ltb_spec 0 (Node.n_ nd)); cbn; lia.
Qed.

Lemma VisitedNode_incr_spec (rest : list addr) : ∀ fuel a nd it,
  VisitedNode_Iterator.node_ptr_ it = Some a →
  ns !! a = Some nd →
  lseg ns (Node.sibling_ nd) rest None →
  (length rest < fuel)%nat →
  VisitedNode_Iterator.incr fuel ns it
    = Some (VisitedNode_Iterator.set_node_ptr (next_visited ns rest) it).
Proof.
  induction rest as [|b rest IH]; intros fuel a nd it Hp Ha Hl Hf;
    (destruct fuel as [|fuel]; [cbn in Hf; lia|]); cbn in Hl |- *;
    rewrite Hp; cbn; rewrite Ha; cbn; unfold Node.GetSibling.
  - by rewrite Hl.
  - destruct Hl as [-> (nb & Hb & Hl)]. rewrite Hb. cbn.
    unfold unvisited. rewrite (has_visits_spec b nb Hb), Hb.
    destruct (Node.GetN nb =? 0) eqn:En; cbn.
    + destruct (Node.GetNInFlight nb =? 0); [done|].
      erewrite IH; [done|done|exact Hb|exact Hl|cbn in Hf; lia].
    + done.
Qed.

Lemma VisitedNode_iterate_spec (rest : list addr) : ∀ fuel p it,
  lseg ns p rest None →
  (length rest < fuel)%nat →
  VisitedNode_Iterator.iterate fuel ns
    (VisitedNode_Iterator.set_node_ptr (next_visited ns rest) it)
    = Some (filter (λ a, has_visits ns a = true) (until_unvisited ns rest)).
Proof.
  induction rest as [|b rest IH]; intros fuel p it Hl Hf.
  - by destruct fuel.
  - destruct Hl as [-> (nb & Hb & Hl)]. cbn [next_visited until_unvisited].
    destruct (unvisited ns b) eqn:Eu; [by destruct fuel|].
    destruct (has_visits ns b) eqn:Ev.
    + destruct fuel as [|fuel]; [cbn in Hf; lia|].
      cbn [VisitedNode_Iterator.iterate VisitedNode_Iterator.set_node_ptr
           VisitedNode_Iterator.node_ptr_].
      erewrite VisitedNode_incr_spec; [|done|exact Hb|exact Hl|cbn in Hf; lia].
      cbn. change (VisitedNode_Iterator.mk (next_visited ns rest) ?i ?c)
        with (VisitedNode_Iterator.set_node_ptr (next_visited ns rest) it).
      erewrite IH; [|exact Hl|cbn in Hf; lia]. cbn.
      by rewrite decide_True.
    + rewrite filter_cons_False by (rewrite Ev; done).
      eapply IH; [exact Hl|cbn in Hf; lia].
Qed.
End visited.

Lemma sample_children :
  children Sample.cancelled_then_visited [0%nat; 1%nat].
Proof.
  unfold children; cbn. split; [done|]. eexists. split; [by vm_compute|]. cbn.
  split; [done|]. eexists. split; [by vm_compute|]. done.
Qed.

(** C3 as stated fails: a head that was never visited nor reserved does not
    end the iteration; the visited node behind it is still yielded. *)
Lemma VisitedNodes_passes_unvisited_head :
  children Sample.cancelled_then_visited [0%nat; 1%nat] ∧
  unvisited (Store.nodes Sample.cancelled_then_visited) 0%nat = true ∧
  until_unvisited (Store.nodes Sample.cancelled_then_visited) [0%nat; 1%nat] = [] ∧
  VisitedNode_Iterator.VisitedNodes 3 Sample.cancelled_then_visited = Some [1%nat].
Proof. split; [exact sample_children|by vm_compute]. Qed.

(** C3, amended: visited-node iteration yields only nodes with [n > 0], and
    past the head of the list it ends at the first node with [n = 0] and
    [n_in_flight = 0], yielding no node at or after it.  The head itself is
    skipped when its [n] is 0, whatever its [n_in_flight], and the iteration
    goes on behind it. *)
Theorem VisitedNodes_yield (σ : Store.t) (l : list addr) (fuel : nat) :
  nodes_in_range (Store.nodes σ) →
  children σ l →
  (length l < fuel)%nat →
  ∃ ys, VisitedNode_Iterator.VisitedNodes fuel σ = Some ys ∧
    ys = filter (λ a, has_visits (Store.nodes σ) a = true)
           match l with
           | [] => []
           | a :: rest => a :: until_unvisited (Store.nodes σ) rest
           end ∧
    Forall (λ a, ∃ nd, Store.nodes σ !! a = Some nd ∧ 0 < Node.GetN nd) ys.
Proof.
  intros Hr Hl Hf.
  exists (filter (λ a, has_visits (Store.nodes σ) a = true)
            match l with
            | [] => []
            | a :: rest => a :: until_unvisited (Store.nodes σ) rest
            end).
  split; [|split; [reflexivity|]]; cycle 1.
  { apply Forall_forall. intros a [Hv _]%list_elem_of_filter.
    unfold has_visits in Hv. destruct (Store.nodes σ !! a) as [nd|]; [|done].
    exists nd. split; [done|]. by apply Z.ltb_lt. }
  unfold VisitedNode_Iterator.VisitedNodes, VisitedNode_Iterator.begin,
    LowNode.GetChild. unfold children in Hl.
  destruct l as [|a rest]; cbn in Hl.
  - rewrite Hl. cbn. by destruct fuel.
  - destruct Hl as [-> (nd & Ha & Hl)].
    cbn [VisitedNode_Iterator.node_ptr_]. rewrite Ha. cbn [mbind option_bind].
    pose proof (has_visits_spec _ Hr a nd Ha) as Hv.
    destruct (Node.GetN nd =? 0) eqn:En; cbn in Hv.
    + erewrite VisitedNode_incr_spec; [|done|done|exact Ha|exact Hl|cbn in Hf; lia].
      cbn [mbind option_bind].
      erewrite VisitedNode_iterate_spec; [|done|exact Hl|cbn in Hf; lia].
      by rewrite filter_cons_False by (rewrite Hv; done).
    + cbn [mbind option_bind].
      destruct fuel as [|fuel]; [cbn in Hf; lia|].
      cbn [VisitedNode_Iterator.iterate VisitedNode_Iterator.node_ptr_].
      erewrite VisitedNode_incr_spec; [|done|done|exact Ha|exact Hl|cbn in Hf; lia].
      cbn [mbind option_bind].
      erewrite VisitedNode_iterate_spec; [|done|exact Hl|cbn in Hf; lia].
      cbn [mbind option_bind].
      by rewrite filter_cons_True by done.
Qed.

Lemma sample_nodes_in_range :
  nodes_in_range (Store.nodes Sample.cancelled_then_visited).
Proof.
  intros a nd H. cbn in H.
  apply lookup_insert_Some in H as [[<- <-]|[_ H]].
  - by vm_compute.
  - apply lookup_singleton_Some in H as [<- <-]. by vm_compute.
Qed.

Lemma VisitedNodes_yield_witness :
  nodes_in_range (Store.nodes Sample.cancelled_then_visited) ∧
  children Sample.cancelled_then_visited [0%nat; 1%nat] ∧
  (length [0%nat; 1%nat] < 3)%nat ∧
  ∃ ys, VisitedNode_Iterator.VisitedNodes 3 Sample.cancelled_then_visited = Some ys ∧
    ys = filter (λ a, has_visits (Store.nodes Sample.cancelled_then_visited) a = true)
           (0%nat :: until_unvisited (Store.nodes Sample.cancelled_then_visited) [1%nat]) ∧
    Forall (λ a, ∃ nd, Store.nodes Sample.cancelled_then_visited !! a = Some nd ∧
                       0 < Node.GetN nd) ys.
Proof.
  split; [exact sample_nodes_in_range|].
  split; [exact sample_children|].
  split; [cbn; lia|].
  exact (VisitedNodes_yield Sample.cancelled_then_visited [0%nat; 1%nat] 3
           sample_nodes_in_range sample_children ltac:(cbn; lia)).
Defined.

(** ** Edge iteration over a payload without edges *)

(** A payload that was never evaluated has no edge array: the begin
    iterator is the end iterator and the loop body never runs. *)
Lemma Edges_unevaluated (σ : Store.t) (fuel : nat) :
  LowNode.GetEdges (Store.low σ) = None →
  Edge_Iterator.Edges fuel σ = Some [] ∧
  ∃ it, Edge_Iterator.begin fuel σ = Some it ∧
        Edge_Iterator.eqb it Edge_Iterator.end_ = true.
Proof.
  intros He.
  assert (Hb : ∃ it, Edge_Iterator.begin fuel σ = Some it ∧
                     Edge_Iterator.edge_ it = None).
  { unfold Edge_Iterator.begin, Edge_Iterator.begin_call. rewrite He. cbn.
    destruct fuel; cbn; eauto. }
  destruct Hb as (it & Hb & Hn). split.
  - unfold Edge_Iterator.Edges. rewrite Hb. cbn.
    destruct fuel; cbn; by rewrite Hn.
  - exists it. split; [done|]. unfold Edge_Iterator.eqb. rewrite Hn.
    by apply bool_decide_eq_true.
Qed.

Lemma HasChildren_no_edges (l : LowNode.t) :
  LowNode.GetNumEdges l = 0 → LowNode.HasChildren l = false.
Proof. unfold LowNode.GetNumEdges, LowNode.HasChildren. by intros ->. Qed.

Lemma incr_no_children (σ : Store.t) (it : Edge_Iterator.t) (e : Z) (fuel : nat) :
  LowNode.child_ (Store.low σ) = None →
  Edge_Iterator.edge_ it = Some e →
  Edge_Iterator.node_ptr_ it = ChildSlot →
  Edge_Iterator.incr (S fuel) σ it =
    Some (let idx := (Edge_Iterator.current_idx_ it + 1) mod uint16_max in
          if idx =? Edge_Iterator.total_count_ it then
            Edge_Iterator.mk None (Edge_Iterator.node_ it) ChildSlot idx
              (Edge_Iterator.total_count_ it)
          else
            Edge_Iterator.mk (Some (e + 1)) None ChildSlot idx
              (Edge_Iterator.total_count_ it)).
Proof.
  intros Hc He Hp. unfold Edge_Iterator.incr, Edge_Iterator.incr_call.
  rewrite He, Hp. cbn.
  destruct (_ =? _); cbn; [done|].
  unfold Edge_Iterator.Actualize_load. cbn. rewrite Hc. cbn.
  by destruct fuel.
Qed.

Lemma iterate_empty_array (σ : Store.t) (n : nat) : ∀ it e fuel,
  LowNode.child_ (Store.low σ) = None →
  Edge_Iterator.edge_ it = Some e →
  Edge_Iterator.node_ptr_ it = ChildSlot →
  Edge_Iterator.total_count_ it = 0 →
  0 ≤ Edge_Iterator.current_idx_ it →
  Edge_Iterator.current_idx_ it = uint16_max - Z.of_nat (S n) →
  (S n < fuel)%nat →
  length <$> Edge_Iterator.iterate fuel σ it = Some (S n).
Proof.
  unfold uint16_max.
  induction n as [|n IH]; intros it e fuel Hc He Hp Ht H0 Hi Hf;
    (destruct fuel as [|fuel]; [lia|]); cbn [Edge_Iterator.iterate];
    rewrite He, (incr_no_children σ it e fuel Hc He Hp); cbn zeta;
    rewrite Ht, Hi; unfold uint16_max.
  - change ((2 ^ 16 - Z.of_nat 1 + 1) mod 2 ^ 16 =? 0) with true.
    cbn [mbind option_bind]. by destruct fuel.
  - replace ((2 ^ 16 - Z.of_nat (S (S n)) + 1) mod 2 ^ 16)
      with (2 ^ 16 - Z.of_nat (S n)) by (rewrite Z.mod_small; lia).
    destruct (Z.eqb_spec (2 ^ 16 - Z.of_nat (S n)) 0) as [E|_]; [lia|].
    cbn [mbind option_bind].
    specialize (IH (Edge_Iterator.mk (Some (e + 1)) None ChildSlot
                      (2 ^ 16 - Z.of_nat (S n)) 0) (e + 1) fuel Hc eq_refl eq_refl
                   eq_refl ltac:(cbn [Edge_Iterator.current_idx_]; lia) eq_refl
                   ltac:(lia)).
    destruct (Edge_Iterator.iterate fuel σ _) as [ys|]; [|done].
    cbn in IH |- *. congruence.
Qed.

(** C8 at a payload evaluated with no legal move: [HasChildren()] is false,
    but the edge array is an allocation of zero elements rather than a null
    pointer, so the begin iterator is not the end iterator, and the counter
    only meets [total_count_ = 0] after wrapping around: the loop body runs
    65536 times. *)
Theorem Edges_of_empty_array :
  LowNode.SetNNEval false Sample.eval0 (LowNode.make 5) = Some Sample.no_moves ∧
  LowNode.GetNumEdges Sample.no_moves = 0 ∧
  LowNode.HasChildren Sample.no_moves = false ∧
  (∃ it, Edge_Iterator.begin 1 Sample.no_moves_store = Some it ∧
         Edge_Iterator.eqb it Edge_Iterator.end_ = false) ∧
  length <$> Edge_Iterator.Edges (Z.to_nat 65537) Sample.no_moves_store
    = Some (Z.to_nat 65536).
Proof.
  split; [reflexivity|]. split; [reflexivity|]. split; [reflexivity|].
  split; [eexists; split; reflexivity|].
  unfold Edge_Iterator.Edges.
  assert (Hb : Edge_Iterator.begin (Z.to_nat 65537) Sample.no_moves_store
               = Some (Edge_Iterator.mk (Some 0) None ChildSlot 0 0)).
  { replace (Z.to_nat 65537) with (S (Z.to_nat 65536)) by lia. reflexivity. }
  rewrite Hb. cbn [mbind option_bind].
  replace (Z.to_nat 65536) with (S (Z.to_nat 65535)) by lia.
  apply (iterate_empty_array _ _ _ 0); try reflexivity;
    unfold uint16_max; cbn [Edge_Iterator.current_idx_]; lia.
Qed.

(** ** The sibling list: list segments and ascending indices *)

Lemma lseg_head ns p l : lseg ns p l None → p = head l.
Proof. destruct l; cbn; [done|]. by intros [-> _]. Qed.

Lemma lseg_app ns l1 : ∀ p l2 q,
  lseg ns p (l1 ++ l2) q ↔ ∃ r, lseg ns p l1 r ∧ lseg ns r l2 q.
Proof.
  induction l1 as [|a l1 IH]; intros p l2 q; cbn.
  - split; [eauto|]. by intros (r & -> & H).
  - split.
    + intros (-> & nd & Ha & H). apply IH in H as (r & H1 & H2). eauto 10.
    + intros (r & (-> & nd & Ha & H1) & H2). split; [done|].
      exists nd. split; [done|]. apply IH. eauto.
Qed.

Lemma lseg_ext ns ns' l : ∀ p q,
  (∀ a, a ∈ l → ns' !! a = ns !! a) → lseg ns p l q → lseg ns' p l q.
Proof.
  induction l as [|a l IH]; intros p q Hext; cbn; [done|].
  intros (-> & nd & Ha & H). split; [done|]. exists nd. split.
  - rewrite Hext; [done|]. by left.
  - apply IH; [|done]. intros b Hb. apply Hext. by right.
Qed.

Lemma lseg_lookup ns l : ∀ p q a,
  lseg ns p l q → a ∈ l → is_Some (ns !! a).
Proof.
  induction l as [|b l IH]; intros p q a; cbn; [by intros _ ?%elem_of_nil|].
  intros (-> & nd & Hb & H) [->|Ha]%elem_of_cons; eauto.
Qed.

Lemma lseg_functional ns l : ∀ p l', lseg ns p l None → lseg ns p l' None → l = l'.
Proof.
  induction l as [|a l IH]; intros p [|a' l']; cbn.
  - done.
  - by intros -> [? _].
  - by intros [-> _] ?.
  - intros (-> & nd & Ha & H) ([= <-] & nd' & Ha' & H'). simplify_eq.
    f_equal. eauto.
Qed.

(** The node at [a] and what comes before and after it. *)
Lemma lseg_split ns p l a :
  lseg ns p l None → a ∈ l →
  ∃ l1 l2 nd, l = l1 ++ a :: l2 ∧ lseg ns p l1 (Some a) ∧ ns !! a = Some nd ∧
              lseg ns (Node.sibling_ nd) l2 None.
Proof.
  intros Hl (l1 & l2 & ->)%list_elem_of_split.
  apply lseg_app in Hl as (r & H1 & (-> & nd & Ha & H2)). eauto 10.
Qed.

Lemma ascending_above lo xs : ascending lo xs → Forall (λ x, lo < x) xs.
Proof.
  revert lo. induction xs as [|x xs IH]; intros lo; cbn; [done|].
  intros [Hx H]. constructor; [done|].
  eapply Forall_impl; [by apply IH|]. cbn. lia.
Qed.

Lemma ascending_StronglySorted lo xs : ascending lo xs → StronglySorted Z.lt xs.
Proof.
  revert lo. induction xs as [|x xs IH]; intros lo; cbn; [constructor|].
  intros [Hx H]. constructor; [by eapply IH|]. by apply ascending_above.
Qed.

Lemma ascending_NoDup lo xs : ascending lo xs → NoDup xs.
Proof.
  revert lo. induction xs as [|x xs IH]; intros lo; cbn; [constructor|].
  intros [Hx H]. constructor; [|by eapply IH].
  intros Hin. apply ascending_above in H.
  rewrite Forall_forall in H. specialize (H x Hin). lia.
Qed.

Lemma ascending_weaken lo lo' xs : lo' ≤ lo → ascending lo xs → ascending lo' xs.
Proof. destruct xs; cbn; [done|]. intros ? [? ?]. split; [lia|done]. Qed.

Lemma ascending_app lo xs ys :
  ascending lo (xs ++ ys) ↔ ascending lo xs ∧ ascending (default lo (last xs)) ys.
Proof.
  revert lo. induction xs as [|x xs IH]; intros lo; cbn [app ascending].
  - cbn. tauto.
  - rewrite IH, last_cons. destruct (last xs); cbn; tauto.
Qed.

(** A new index fits between the last of [xs] and the first of [ys]. *)
Lemma ascending_insert lo xs ys c :
  ascending lo (xs ++ ys) →
  default lo (last xs) < c →
  (∀ y, head ys = Some y → c < y) →
  ascending lo (xs ++ c :: ys).
Proof.
  rewrite !ascending_app. intros [Hx Hy] Hc Hh. split; [done|]. cbn.
  split; [done|]. destruct ys as [|y ys]; [done|]. cbn in *.
  split; [by apply Hh|tauto].
Qed.

(** In an ascending list every element after position [xs] is above the
    last of [xs], and every element of [xs] is at most its last. *)
Lemma ascending_app_above lo xs ys x :
  ascending lo (xs ++ ys) → last xs = Some x → Forall (λ y, x < y) ys.
Proof.
  rewrite ascending_app. intros [_ H] Hl. rewrite Hl in H. cbn in H.
  by apply ascending_above.
Qed.

Lemma ascending_app_below lo xs x :
  ascending lo xs → last xs = Some x → Forall (λ y, y ≤ x) xs.
Proof.
  revert lo. induction xs as [|y xs IH]; intros lo; [done|].
  cbn [ascending]. intros [Hy H]. rewrite last_cons.
  destruct (last xs) as [z|] eqn:Ez.
  - intros [= ->]. specialize (IH _ H eq_refl). constructor; [|done].
    destruct xs as [|y' xs]; [done|]. cbn in H.
    apply Forall_cons_1 in IH as [? _]. lia.
  - intros [= ->]. apply last_None in Ez as ->. by constructor.
Qed.

Lemma index_of_alter ns p x a :
  index_of (alter (Node.set_sibling p) x ns) a = index_of ns a.
Proof.
  unfold index_of. destruct (decide (x = a)) as [->|Hne].
  - rewrite lookup_alter_eq. by destruct (ns !! a).
  - by rewrite lookup_alter_ne.
Qed.

Lemma index_of_lookup ns a nd : ns !! a = Some nd → index_of ns a = Node.Index nd.
Proof. unfold index_of. by intros ->. Qed.

Lemma index_of_same ns ns' a : ns' !! a = ns !! a → index_of ns' a = index_of ns a.
Proof. unfold index_of. by intros ->. Qed.

Lemma indices_same (σ σ' : Store.t) l :
  (∀ a, a ∈ l → index_of (Store.nodes σ') a = index_of (Store.nodes σ) a) →
  indices σ' l = indices σ l.
Proof.
  intros H. unfold indices. apply list_fmap_ext. intros i a Ha.
  apply H. by eapply list_elem_of_lookup_2.
Qed.

(** ** Slots and what they hold *)

Lemma children_child σ l :
  children σ l → atomic_unique_ptr.get σ ChildSlot = Some (head l).
Proof. intros H. cbn. f_equal. by apply lseg_head in H. Qed.

Lemma children_sibling σ l o :
  children σ l → o ∈ l →
  ∃ l0 l2 nd, l = l0 ++ o :: l2 ∧
    lseg (Store.nodes σ) (LowNode.child_ (Store.low σ)) l0 (Some o) ∧
    Store.nodes σ !! o = Some nd ∧ Node.sibling_ nd = head l2 ∧
    lseg (Store.nodes σ) (head l2) l2 None ∧
    atomic_unique_ptr.get σ (SiblingSlot o) = Some (head l2).
Proof.
  intros Hl Ho. destruct (lseg_split _ _ _ _ Hl Ho) as (l0 & l2 & nd & -> & H1 & Hn & H2).
  pose proof (lseg_head _ _ _ H2) as Hh. exists l0, l2, nd.
  rewrite <- Hh. repeat split; try done. cbn. by rewrite Hn.
Qed.

(** What a slot behind the iterator holds: the list splits at the slot, the
    part before it has only smaller indices, and the slot points at the
    rest. *)
Lemma slot_split p σ l cur s :
  store_ok p σ l → 0 ≤ cur → behind (Store.nodes σ) l cur s →
  ∃ l1 l2, l = l1 ++ l2 ∧
    atomic_unique_ptr.get σ s = Some (head l2) ∧
    lseg (Store.nodes σ) (head l2) l2 None ∧
    default (-1) (last (indices σ l1)) < cur ∧
    Forall (λ a, index_of (Store.nodes σ) a < cur) l1 ∧
    match s with
    | ChildSlot => l1 = []
    | SiblingSlot o => last l1 = Some o
    end.
Proof.
  intros (_ & _ & Hl & Hasc & _) Hcur Hb. destruct s as [|o]; cbn in Hb.
  - exists [], l. pose proof (lseg_head _ _ _ Hl) as Hh. cbn.
    repeat split; try done; try lia.
    + by rewrite Hh.
    + unfold children in Hl. by rewrite <- Hh.
  - destruct Hb as [Ho Hi].
    destruct (children_sibling _ _ _ Hl Ho)
      as (l0 & l2 & nd & -> & H1 & Hn & Hs & H2 & Hg).
    exists (l0 ++ [o]), l2. rewrite <- app_assoc. cbn.
    split; [done|]. split; [done|]. split; [done|].
    unfold indices in *. rewrite cons_middle, app_assoc, fmap_app in Hasc.
    apply ascending_app in Hasc as [Hasc _].
    assert (Hlast : last (index_of (Store.nodes σ) <$> (l0 ++ [o]))
                    = Some (index_of (Store.nodes σ) o)).
    { rewrite fmap_app. apply last_snoc. }
    rewrite Hlast. cbn. split; [done|]. split; [|apply last_snoc].
    pose proof (ascending_app_below _ _ _ Hasc Hlast) as Hle.
    rewrite Forall_fmap in Hle. eapply Forall_impl; [exact Hle|].
    cbn. intros a Ha. lia.
Qed.


(** ** What one thread's step leaves to the others *)

Lemma behind_frame x σ l σ' l' cur s :
  frame x σ l σ' l' →
  behind (Store.nodes σ) l cur s → behind (Store.nodes σ') l' cur s.
Proof.
  intros (_ & Hl & _). destruct s as [|o]; cbn; [done|].
  intros [Ho Hi]. destruct (Hl o Ho) as [Ho' Hi']. split; [done|]. by rewrite Hi'.
Qed.

Lemma prepared_frame x σ l σ' l' cur new_node sib :
  frame x σ l σ' l' → new_node ≠ x →
  prepared σ l cur new_node sib → prepared σ' l' cur new_node sib.
Proof.
  intros (Hn & _ & Hu) Hne (Hnl & nd & Hnd & Hi & Hs & Hc).
  destruct (Hu new_node nd Hne Hnl Hnd) as [Hnl' Hnd'].
  split; [done|]. exists nd. rewrite Hn. done.
Qed.

Lemma thread_ok_frame x σ l σ' l' th :
  frame x σ l σ' l' → owns th ≠ Some x →
  thread_ok σ l th → thread_ok σ' l' th.
Proof.
  intros Hf Hx [Ht Hpc]. pose proof Hf as (Hn & Hl & _).
  split; [first [done|by rewrite Hn]|].
  unfold owns in Hx. destruct (Edge_Iterator.pc th) as [|k|new_node node].
  - destruct Hpc as [Hpc Hend]. split; [|done].
    intros He. destruct (Hpc He) as (H0 & Hb & Hnode). split; [done|]. split; [done|].
    destruct (Edge_Iterator.node_ _) as [a|].
    + destruct Hnode as (Hp & Ha & Hi). destruct (Hl a Ha) as [Ha' Hi'].
      by rewrite Hi'.
    + by eapply behind_frame.
  - destruct Hpc as (He & H0 & Hb & Hbe & Hk). split; [done|].
    split; [done|]. split; [done|].
    split; [by eapply behind_frame|].
    destruct k as [|new_node]; [done|].
    eapply prepared_frame; [done| |done]. congruence.
  - destruct Hpc as (He & H0 & Hb & Hbe & Hpr & Hnode). split; [done|].
    split; [done|]. split; [done|].
    split; [by eapply behind_frame|].
    split; [eapply prepared_frame; [done| |done]; congruence|].
    destruct node as [e|]; [|done]. destruct Hnode as [Hel Hi].
    destruct (Hl e Hel) as [He' Hi']. by rewrite Hi'.
Qed.

Lemma frame_refl x σ l : frame x σ l σ l.
Proof. by repeat split. Qed.

Lemma children_allocated p σ l a :
  store_ok p σ l → a ∈ l → (a < Store.allocated σ)%nat.
Proof.
  intros (_ & _ & Hl & _ & _ & Ha) Hin. apply Ha. by eapply lseg_lookup.
Qed.

(** A change to the store that touches only the unlinked node [x]. *)
Lemma frame_unlinked x σ σ' l :
  Store.low σ' = Store.low σ →
  (∀ b, b ≠ x → Store.nodes σ' !! b = Store.nodes σ !! b) →
  x ∉ l → frame x σ l σ' l.
Proof.
  intros Hlow Hns Hx. split; [by rewrite Hlow|]. split.
  - intros a Ha. split; [done|]. apply index_of_same, Hns. by intros ->.
  - intros b nd Hb Hbl Hnd. split; [done|]. by rewrite Hns.
Qed.

Lemma store_ok_unlinked p x σ σ' l :
  store_ok p σ l →
  Store.low σ' = Store.low σ →
  (∀ b, b ≠ x → Store.nodes σ' !! b = Store.nodes σ !! b) →
  x ∉ l →
  (∀ a, is_Some (Store.nodes σ' !! a) → (a < Store.allocated σ')%nat) →
  store_ok p σ' l.
Proof.
  intros (Hp & Hlow & Hl & Hasc & Hb & _) Hlow' Hns Hx Ha.
  assert (Hsame : ∀ a, a ∈ l → Store.nodes σ' !! a = Store.nodes σ !! a).
  { intros a Hin. apply Hns. by intros ->. }
  assert (Hidx : indices σ' l = indices σ l).
  { apply indices_same. intros a Hin. by apply index_of_same, Hsame. }
  split; [done|]. split; [by rewrite Hlow'|]. split.
  { unfold children in *. rewrite Hlow'. by eapply lseg_ext. }
  by rewrite Hidx.
Qed.

Lemma alloc_ok p σ l nd :
  store_ok p σ l →
  store_ok p (Store.alloc nd σ) l ∧
  frame (Store.allocated σ) σ l (Store.alloc nd σ) l.
Proof.
  intros Hok.
  assert (Hx : Store.allocated σ ∉ l).
  { intros Hin. pose proof (children_allocated _ _ _ _ Hok Hin). lia. }
  assert (Hns : ∀ b, b ≠ Store.allocated σ →
                Store.nodes (Store.alloc nd σ) !! b = Store.nodes σ !! b).
  { intros b Hb. cbn. by rewrite lookup_insert_ne. }
  split; [|by apply frame_unlinked].
  eapply store_ok_unlinked; [done|done|done|done|].
  intros a. cbn. rewrite lookup_insert_is_Some.
  intros [<-|[_ Ha]]; [lia|].
  destruct Hok as (_ & _ & _ & _ & _ & Hal). specialize (Hal a Ha). lia.
Qed.

Lemma set_sibling_ok p σ l x q :
  store_ok p σ l → x ∉ l →
  store_ok p (atomic_unique_ptr.set (SiblingSlot x) q σ) l ∧
  frame x σ l (atomic_unique_ptr.set (SiblingSlot x) q σ) l.
Proof.
  intros Hok Hx.
  assert (Hns : ∀ b, b ≠ x →
     Store.nodes (atomic_unique_ptr.set (SiblingSlot x) q σ) !! b
     = Store.nodes σ !! b).
  { intros b Hb. cbn. by rewrite lookup_alter_ne. }
  split; [|by apply frame_unlinked].
  eapply store_ok_unlinked; [done|done|done|done|].
  intros a. cbn. rewrite lookup_alter_is_Some.
  destruct Hok as (_ & _ & _ & _ & _ & Hal). apply Hal.
Qed.

(** Deleting a node whose [sibling_] is null deletes that node only. *)
Lemma delete_node_single σ x nd :
  Store.nodes σ !! x = Some nd → Node.sibling_ nd = None →
  Store.delete_node x σ =
    {| Store.low := Store.low σ; Store.nodes := delete x (Store.nodes σ);
       Store.allocated := Store.allocated σ |}.
Proof. intros Hx Hs. unfold Store.delete_node. cbn. rewrite Hx, Hs.
  by destruct (size (Store.nodes σ)).
Qed.

Lemma delete_node_ok p σ l x nd :
  store_ok p σ l → x ∉ l →
  Store.nodes σ !! x = Some nd → Node.sibling_ nd = None →
  store_ok p (Store.delete_node x σ) l ∧
  frame x σ l (Store.delete_node x σ) l.
Proof.
  intros Hok Hx Hnd Hs. rewrite (delete_node_single _ _ _ Hnd Hs).
  assert (Hns : ∀ b, b ≠ x → delete x (Store.nodes σ) !! b = Store.nodes σ !! b).
  { intros b Hb. by rewrite lookup_delete_ne. }
  split; [|by apply frame_unlinked].
  eapply store_ok_unlinked; [done|done|done|done|].
  intros a. cbn. intros [y Hy]. apply lookup_delete_Some in Hy as [_ Hy].
  destruct Hok as (_ & _ & _ & _ & _ & Hal). by apply Hal.
Qed.

(** ** A successful compare-exchange links the prepared node in place *)

Lemma index_of_set s q σ a :
  index_of (Store.nodes (atomic_unique_ptr.set s q σ)) a
  = index_of (Store.nodes σ) a.
Proof. destruct s; cbn; [done|apply index_of_alter]. Qed.

Lemma store_ok_NoDup p σ l : store_ok p σ l → NoDup l.
Proof.
  intros (_ & _ & _ & Hasc & _). apply ascending_NoDup in Hasc.
  by apply NoDup_fmap_1 in Hasc.
Qed.

Lemma store_ok_num_edges p σ l :
  store_ok p σ l → LowNode.num_edges_ (Store.low σ) = LowNode.num_edges_ p.
Proof. intros (_ & <- & _). done. Qed.

Lemma children_insert p σ l1 l2 s new_node nd :
  store_ok p σ (l1 ++ l2) →
  match s with ChildSlot => l1 = [] | SiblingSlot o => last l1 = Some o end →
  new_node ∉ l1 ++ l2 →
  Store.nodes σ !! new_node = Some nd → Node.sibling_ nd = head l2 →
  children (atomic_unique_ptr.set s (Some new_node) σ) (l1 ++ new_node :: l2).
Proof.
  intros Hok Hs Hnew Hnd Hsib. pose proof (store_ok_NoDup _ _ _ Hok) as Hdup.
  destruct Hok as (_ & _ & Hl & _). unfold children in *.
  destruct s as [|o].
  - subst l1. cbn in *. split; [done|]. exists nd. split; [done|].
    rewrite Hsib. by rewrite <- (lseg_head _ _ _ Hl).
  - apply last_Some in Hs as [l0 ->]. rewrite <- app_assoc in *. cbn in *.
    apply lseg_app in Hl as (r & H0 & (-> & ndo & Ho & H2)).
    apply NoDup_app in Hdup as (_ & Hdis & Hdup2).
    apply NoDup_cons in Hdup2 as [Ho2 _].
    apply lseg_app. exists (Some o). split.
    + eapply lseg_ext; [|exact H0]. intros a Ha. apply lookup_alter_ne.
      intros ->. apply (Hdis _ Ha). by left.
    + split; [done|]. eexists. split; [by rewrite lookup_alter_eq, Ho|]. cbn.
      split; [done|]. exists nd. split.
      { rewrite lookup_alter_ne; [done|]. intros ->. apply Hnew.
        apply elem_of_app. right. by left. }
      rewrite Hsib. pose proof (lseg_head _ _ _ H2) as Hh. rewrite <- Hh.
      eapply lseg_ext; [|exact H2]. intros a Ha. apply lookup_alter_ne.
      by intros ->.
Qed.

Lemma exchange_ok p σ l cur s new_node node :
  store_ok p σ l → 0 ≤ cur →
  behind (Store.nodes σ) l cur s →
  prepared σ l cur new_node node →
  match node with
  | Some e => e ∈ l ∧ cur < index_of (Store.nodes σ) e
  | None => True
  end →
  atomic_unique_ptr.get σ s = Some node →
  ∃ l1 l2, l = l1 ++ l2 ∧
    store_ok p (atomic_unique_ptr.set s (Some new_node) σ) (l1 ++ new_node :: l2) ∧
    frame new_node σ l (atomic_unique_ptr.set s (Some new_node) σ)
      (l1 ++ new_node :: l2).
Proof.
  intros Hok Hcur Hb (Hnew & nd & Hnd & Hidx & Hsib & Hlt) Hnode Hget.
  destruct (slot_split _ _ _ _ _ Hok Hcur Hb)
    as (l1 & l2 & -> & Hget' & Hl2 & Hlast & Hbelow & Hs).
  rewrite Hget in Hget'. injection Hget' as ->.
  exists l1, l2. split; [done|].
  pose proof (store_ok_num_edges _ _ _ Hok) as Hne.
  pose proof Hok as (Hp & Hlow & Hl & Hasc & Hbound & Hal).
  set (σ' := atomic_unique_ptr.set s (Some new_node) σ).
  assert (Hi : ∀ a, index_of (Store.nodes σ') a = index_of (Store.nodes σ) a)
    by (intros a; apply index_of_set).
  assert (Hidxs : indices σ' (l1 ++ new_node :: l2)
                  = indices σ l1 ++ cur :: indices σ l2).
  { unfold indices. rewrite fmap_app, fmap_cons, Hi.
    rewrite (index_of_lookup _ _ _ Hnd), Hidx.
    f_equal; [|f_equal]; apply list_fmap_ext; intros; apply Hi. }
  split.
  - split; [done|]. split.
    { subst σ'. destruct s; [|done]. cbn. by rewrite <- Hlow. }
    split; [by eapply children_insert|].
    rewrite Hidxs. unfold indices in Hasc, Hbound. rewrite fmap_app in Hasc, Hbound.
    split; [|split].
    + apply ascending_insert; [done|done|].
      intros y Hy. destruct l2 as [|e l2]; [done|]. cbn in Hy, Hnode.
      injection Hy as <-. tauto.
    + apply Forall_app in Hbound as [Hb1 Hb2]. apply Forall_app. split; [done|].
      constructor; [lia|done].
    + intros a. subst σ'. destruct s; cbn; [apply Hal|].
      rewrite lookup_alter_is_Some. apply Hal.
  - split; [by destruct s|]. split.
    + intros a Ha. split; [|apply Hi].
      apply elem_of_app in Ha as [Ha|Ha]; apply elem_of_app; [by left|].
      right. by right.
    + intros b ndb Hbn Hbl Hbs. split.
      * intros [Hin|[->|Hin]%elem_of_cons]%elem_of_app; [|done|];
          apply Hbl, elem_of_app; auto.
      * subst σ'. destruct s as [|o]; cbn; [done|].
        rewrite lookup_alter_ne; [done|]. intros ->. apply Hbl.
        apply last_Some in Hs as [l0 ->]. apply elem_of_app. left.
        apply elem_of_app. right. by left.
Qed.

(** ** One access to shared memory keeps the list in order *)

Lemma prepared_set σ l cur new_node sib q :
  prepared σ l cur new_node sib →
  prepared (atomic_unique_ptr.set (SiblingSlot new_node) q σ) l cur new_node q.
Proof.
  intros (Hnew & nd & Hnd & Hi & _ & Hlt). split; [done|].
  exists (Node.set_sibling q nd). cbn. by rewrite lookup_alter_eq, Hnd.
Qed.

Ltac thread_cbn :=
  cbn [Edge_Iterator.iter Edge_Iterator.pc Edge_Iterator.edge_
       Edge_Iterator.node_ Edge_Iterator.node_ptr_ Edge_Iterator.current_idx_
       Edge_Iterator.total_count_].

Ltac step_side :=
  split; [first [assumption|apply frame_refl]|];
  split; [cbn; try done; auto|cbn; auto].

Lemma thread_step_ok p σ l th σ' th' :
  store_ok p σ l → thread_ok σ l th →
  Edge_Iterator.thread_step σ th = Some (σ', th') →
  ∃ l' x, store_ok p σ' l' ∧ thread_ok σ' l' th' ∧ frame x σ l σ' l' ∧
    (∀ a, owns th' = Some a → owns th = Some a) ∧
    (x = Store.allocated σ ∨ owns th = Some x).
Proof.
  intros Hok [Ht Hpc] Hstep. unfold Edge_Iterator.thread_step in Hstep.
  unfold owns. destruct th as [it pc]. cbn in *.
  destruct pc as [|k|new_node node]; [done| |].
  - (* a load of Actualize *)
    destruct Hpc as (He & H0 & Hbd & Hbe & Hk).
    destruct (slot_split _ _ _ _ _ Hok H0 Hbe)
      as (l1 & l2 & -> & Hget & Hl2 & _ & _ & _).
    unfold Edge_Iterator.Actualize_load in Hstep. rewrite Hget in Hstep.
    cbn in Hstep. destruct l2 as [|a l2]; cbn in Hstep.
    + (* the slot is null *)
      destruct k as [|new_node]; cbn in Hstep; simplify_eq.
      * exists (l1 ++ []), (Store.allocated σ').
        split; [done|]. split; [|split; [apply frame_refl|by auto]].
        split; [done|]. thread_cbn. split; [intros _|]; done.
      * destruct Hk as [Hnew Hpr].
        destruct (set_sibling_ok p σ (l1 ++ []) new_node None Hok Hnew) as [Hok' Hf].
        exists (l1 ++ []), new_node. split; [done|]. split; [|step_side].
        split; [done|]. thread_cbn. do 3 (split; [done|]).
        split; [exact (behind_frame _ _ _ _ _ _ _ Hf Hbe)|].
        split; [|done]. exact (prepared_set _ _ _ _ _ _ (conj Hnew Hpr)).
    + (* the slot holds node [a] *)
      assert (Ha : a ∈ l1 ++ a :: l2) by (apply elem_of_app; right; by left).
      destruct Hl2 as (_ & nd & Hnd & _). rewrite Hnd in Hstep.
      cbn in Hstep. pose proof (index_of_lookup _ _ _ Hnd) as Hia.
      destruct (Z.ltb_spec (Node.Index nd) (Edge_Iterator.current_idx_ it)) as [Hlt|Hge].
      { (* advance *)
        cbn in Hstep. simplify_eq. exists (l1 ++ a :: l2), (Store.allocated σ').
        split; [done|]. split; [|split; [apply frame_refl|by auto]].
        split; [done|]. thread_cbn. do 3 (split; [done|]).
        split; [|done]. split; [done|lia]. }
      destruct (Z.eqb_spec (Node.Index nd) (Edge_Iterator.current_idx_ it)) as [Heq|Hne];
        cbn in Hstep.
      { (* found *)
        destruct k as [|new_node]; cbn in Hstep; simplify_eq.
        - exists (l1 ++ a :: l2), (Store.allocated σ').
          split; [done|]. split; [|split; [apply frame_refl|by auto]].
          split; [done|]. thread_cbn. split; [intros _|done].
          repeat split; try done; congruence.
        - destruct Hk as (Hnew & ndn & Hndn & _ & Hsib & _).
          destruct (delete_node_ok p σ _ new_node ndn Hok Hnew Hndn Hsib) as [Hok' Hf].
          exists (l1 ++ a :: l2), new_node. split; [done|]. split; [|step_side].
          pose proof Hf as (Hn & Hfl & _). destruct (Hfl a Ha) as [_ Hia'].
          split; [first [done|by rewrite Hn]|]. thread_cbn.
          split; [intros _|done].
          do 4 (split; [done|]). rewrite Hia'. congruence. }
      (* beyond *)
      destruct k as [|new_node]; cbn in Hstep; simplify_eq.
      * exists (l1 ++ a :: l2), (Store.allocated σ').
        split; [done|]. split; [|split; [apply frame_refl|by auto]].
        split; [done|]. thread_cbn. split; [intros _|]; done.
      * destruct Hk as [Hnew Hpr].
        destruct (set_sibling_ok p σ _ new_node (Some a) Hok Hnew) as [Hok' Hf].
        exists (l1 ++ a :: l2), new_node. split; [done|]. split; [|step_side].
        pose proof Hf as (Hn & Hfl & _). destruct (Hfl a Ha) as [_ Hia'].
        split; [first [done|by rewrite Hn]|]. thread_cbn. do 3 (split; [done|]).
        split; [exact (behind_frame _ _ _ _ _ _ _ Hf Hbe)|].
        split; [exact (prepared_set _ _ _ _ _ _ (conj Hnew Hpr))|]. split; [done|].
        cbn [Store.nodes]. rewrite index_of_alter. lia.
  - (* compare_exchange *)
    destruct Hpc as (He & H0 & Hbd & Hbe & Hpr & Hnode).
    destruct (slot_split _ _ _ _ _ Hok H0 Hbe)
      as (l1 & l2 & Hl & Hget & _).
    unfold atomic_unique_ptr.compare_exchange in Hstep. rewrite Hget in Hstep.
    cbn in Hstep. destruct (decide (head l2 = node)) as [Heq|Hneq];
      cbn in Hstep; simplify_eq.
    + destruct (exchange_ok _ _ _ _ _ _ _ Hok H0 Hbe Hpr Hnode Hget)
        as (l1' & l2' & Hl' & Hok' & Hf).
      exists (l1' ++ new_node :: l2'), new_node.
      split; [done|]. split; [|step_side].
      pose proof Hf as (Hn & _). split; [first [done|by rewrite Hn]|]. thread_cbn.
      do 3 (split; [done|]).
      split; [exact (behind_frame _ _ _ _ _ _ _ Hf Hbe)|done].
    + destruct Hpr as [Hnew Hpr'].
      destruct (set_sibling_ok p σ _ new_node None Hok Hnew) as [Hok' Hf].
      exists (l1 ++ l2), new_node. split; [done|]. split; [|step_side].
      split; [done|]. thread_cbn. do 3 (split; [done|]).
      split; [exact (behind_frame _ _ _ _ _ _ _ Hf Hbe)|].
      exact (prepared_set _ _ _ _ _ _ (conj Hnew Hpr')).
Qed.

(** ** Starting a call *)

Lemma no_edges_no_children p σ l :
  store_ok p σ l → LowNode.num_edges_ p = 0 → l = [].
Proof.
  intros (_ & _ & _ & Hasc & Hb & _) H0. destruct l as [|a l]; [done|].
  cbn in Hasc, Hb. destruct Hasc as [Hlo _]. apply Forall_cons_1 in Hb as [Hhi _].
  lia.
Qed.

Lemma GetEdgeAt_bound p σ l cur e :
  store_ok p σ l → LowNode.GetEdgeAt (Store.low σ) cur = Some e →
  0 ≤ cur < LowNode.num_edges_ (Store.low σ).
Proof.
  intros Hok. rewrite (store_ok_num_edges _ _ _ Hok).
  destruct Hok as ((Hes & _) & <- & _). unfold LowNode.GetEdgeAt. cbn in *.
  destruct (LowNode.edges_ (Store.low σ)) as [es|] eqn:E; [|done]. cbn.
  destruct (decide (0 ≤ cur)); [|done]. intros Hl%lookup_lt_Some.
  specialize (Hes es E). cbn in Hes. lia.
Qed.

Lemma call_ok p σ l th c σ' th' :
  store_ok p σ l → thread_ok σ l th →
  Edge_Iterator.pc th = Edge_Iterator.Ready →
  System.call c σ (Edge_Iterator.iter th) = Some (σ', th') →
  store_ok p σ' l ∧ thread_ok σ' l th' ∧
  frame (Store.allocated σ) σ l σ' l ∧
  (∀ a, owns th' = Some a → a = Store.allocated σ).
Proof.
  intros Hok [Ht Hpc] Hready Hcall. destruct th as [it pc]. cbn in *. subst pc.
  destruct Hpc as [Hpc Hend].
  pose proof (store_ok_num_edges _ _ _ Hok) as Hne.
  pose proof Hok as ((_ & _ & Hrange & _) & _).
  destruct c; cbn in Hcall.
  - (* operator++ *)
    unfold Edge_Iterator.incr_call in Hcall.
    destruct (Edge_Iterator.edge_ it) as [e|] eqn:He; [|done]. cbn in Hcall.
    destruct (Hpc ltac:(done)) as (H0 & Hbd & Hnode).
    set (idx := (Edge_Iterator.current_idx_ it + 1) mod uint16_max) in *.
    assert (Hidx0 : 0 ≤ idx < uint16_max) by (apply Z.mod_pos_bound; done).
    destruct (Z.eqb_spec idx (Edge_Iterator.total_count_ it)) as [Heq|Hneq];
      cbv beta iota in Hcall; injection Hcall as <- <-; (split; [done|]);
      (split; [|split; [apply frame_refl|done]]);
      (split; [done|]); thread_cbn.
    { split; [done|]. intros _. lia. }
    split; [done|]. split; [lia|].
    assert (Hcases : l = [] ∨ idx = Edge_Iterator.current_idx_ it + 1).
    { destruct Hbd as [Hlt|Hz].
      - right. subst idx. unfold uint16_max, uint8_max in *.
        rewrite Z.mod_small; lia.
      - left. eapply no_edges_no_children; [done|]. congruence. }
    split.
    { destruct Hbd as [Hlt|Hz]; [left|by right].
      destruct Hcases as [->|Hi].
      - subst idx. unfold uint16_max, uint8_max in *.
        rewrite Z.mod_small in Hneq |- *; lia.
      - lia. }
    split; [|done].
    destruct (Edge_Iterator.node_ptr_ it) as [|o] eqn:Hs; cbn; [done|].
    destruct (Edge_Iterator.node_ it) as [a|].
    + destruct Hnode as ([= <-] & Ha & Hia). split; [done|].
      destruct Hcases as [->|Hi]; [by apply elem_of_nil in Ha|lia].
    + cbn in Hnode. destruct Hnode as [Ho Hio]. split; [done|].
      destruct Hcases as [->|Hi]; [by apply elem_of_nil in Ho|lia].
  - (* GetOrSpawnNode *)
    unfold Edge_Iterator.GetOrSpawnNode_call in Hcall.
    destruct (Edge_Iterator.node_ it) as [a|] eqn:Hn.
    + simplify_eq. split; [done|]. split; [|split; [apply frame_refl|done]].
      split; [done|]. thread_cbn. rewrite Hn. done.
    + destruct (LowNode.GetEdgeAt _ _) as [e|] eqn:Hget; [|done].
      cbn in Hcall. simplify_eq.
      pose proof (GetEdgeAt_bound _ _ _ _ _ Hok Hget) as Hcur.
      assert (He : Edge_Iterator.edge_ it ≠ None).
      { intros He. apply (Hend He). lia. }
      destruct (Hpc He) as (H0 & Hbd & Hnode).
      destruct (alloc_ok p σ l (Node.make e (Edge_Iterator.current_idx_ it)) Hok)
        as [Hok' Hf].
      split; [done|]. split; [|split; [done|]].
      * split; [done|]. thread_cbn. do 3 (split; [done|]).
        split; [exact (behind_frame _ _ _ _ _ _ _ Hf Hnode)|].
        split.
        { intros Hin. pose proof (children_allocated _ _ _ _ Hok Hin). lia. }
        exists (Node.make e (Edge_Iterator.current_idx_ it)). cbn.
        rewrite lookup_insert_eq. repeat split. lia.
      * cbn. by intros a [= <-].
Qed.

(** ** Every step of the system keeps the list in order *)

Lemma owns_in_store σ l th a :
  thread_ok σ l th → owns th = Some a → is_Some (Store.nodes σ !! a).
Proof.
  intros [_ Hpc]. unfold owns.
  destruct (Edge_Iterator.pc th) as [|[|b]|b node]; try done; intros [= ->].
  - destruct Hpc as (_ & _ & _ & _ & _ & nd & Hnd & _). eauto.
  - destruct Hpc as (_ & _ & _ & _ & (_ & nd & Hnd & _) & _). eauto.
Qed.

Lemma sys_ok_update p sys l σ' l' i th th' x :
  sys_ok p sys l → System.threads sys !! i = Some th →
  store_ok p σ' l' → thread_ok σ' l' th' →
  frame x (System.store sys) l σ' l' →
  (∀ a, owns th' = Some a → owns th = Some a ∨ a = x) →
  (x = Store.allocated (System.store sys) ∨ owns th = Some x) →
  sys_ok p {| System.store := σ'; System.threads := <[i := th']> (System.threads sys) |} l'.
Proof.
  intros (Hok & Hths & Huniq) Hi Hok' Hth' Hf Hown Hx.
  assert (Hothers : ∀ j thj, j ≠ i → System.threads sys !! j = Some thj →
                             owns thj ≠ Some x).
  { intros j thj Hji Hj Hoj. destruct Hx as [->|Hoi].
    - destruct Hok as (_ & _ & _ & _ & _ & Hal).
      pose proof (Hal _ (owns_in_store _ _ _ _ (Hths _ _ Hj) Hoj)). lia.
    - apply Hji. eapply Huniq; eauto. }
  split; [done|]. cbn. split.
  - intros j thj [(<- & <- & _)|[Hji Hj]]%list_lookup_insert_Some; [done|].
    eapply thread_ok_frame; [done|by eapply Hothers|by eapply Hths].
  - intros j k thj thk a
      [(<- & <- & _)|[Hji Hj]]%list_lookup_insert_Some
      [(<- & <- & _)|[Hki Hk]]%list_lookup_insert_Some Hoj Hok2; try done.
    + destruct (Hown _ Hoj) as [Ho| ->].
      * eapply Huniq; eauto.
      * by destruct (Hothers _ _ ltac:(done) Hk).
    + destruct (Hown _ Hok2) as [Ho| ->].
      * eapply Huniq; eauto.
      * by destruct (Hothers _ _ ltac:(done) Hj).
    + eapply Huniq; eauto.
Qed.

Lemma step_ok p sys sys' l :
  sys_ok p sys l → System.step sys sys' → ∃ l', sys_ok p sys' l'.
Proof.
  intros Hsys Hstep. pose proof Hsys as (Hok & Hths & Huniq).
  destruct Hstep as [sys|sys i th c σ' th' Hi Hready Hcall|sys i th σ' th' Hi Hstep].
  - (* a new iterator *)
    exists l. split; [done|]. cbn. split.
    + intros j thj [[_ Hj]|[_ <-]]%lookup_snoc_Some; [by eapply Hths|].
      unfold Edge_Iterator.begin_call, LowNode.GetEdges, LowNode.GetNumEdges.
      split; [done|]. cbn.
      destruct Hok as ((_ & _ & Hr & Hnone) & Hlow & _).
      rewrite <- Hlow in Hr, Hnone. cbn in Hr, Hnone.
      destruct (LowNode.edges_ (Store.low (System.store sys))); cbn.
      * repeat split; try done. lia.
      * split; [done|]. intros _. specialize (Hnone eq_refl). lia.
    + assert (Hnone : owns (Edge_Iterator.begin_call (Store.low (System.store sys)))
                      = None).
      { unfold owns, Edge_Iterator.begin_call. cbn. by destruct (_ <$> _). }
      intros j k thj thk a [[_ Hj]|[_ <-]]%lookup_snoc_Some
        [[_ Hk]|[_ <-]]%lookup_snoc_Some;
        rewrite ?Hnone; try done. eapply Huniq; eauto.
  - (* a call starts *)
    destruct (call_ok _ _ _ _ _ _ _ Hok (Hths _ _ Hi) Hready Hcall)
      as (Hok' & Hth' & Hf & Hown).
    exists l. eapply sys_ok_update; eauto.
  - (* a call goes on *)
    destruct (thread_step_ok _ _ _ _ _ _ Hok (Hths _ _ Hi) Hstep)
      as (l' & x & Hok' & Hth' & Hf & Hown & Hx).
    exists l'. eapply sys_ok_update; eauto.
Qed.

Lemma initial_ok p : System.payload_ok p → sys_ok p (System.initial p) [].
Proof.
  intros Hp. pose proof Hp as (_ & Hc & _). split; [|split].
  - split; [done|]. split.
    { cbn. destruct p; cbn in *. by subst. }
    split; [done|]. split; [done|]. split; [constructor|].
    intros a [nd Hnd]. cbn in Hnd. by rewrite lookup_empty in Hnd.
  - intros i th Hi. cbn in Hi. by rewrite lookup_nil in Hi.
  - intros i j thi thj a Hi. cbn in Hi. by rewrite lookup_nil in Hi.
Qed.

Lemma rtc_step_ok p s0 sys :
  rtc System.step s0 sys → (∃ l, sys_ok p s0 l) → ∃ l, sys_ok p sys l.
Proof.
  induction 1 as [|s1 s2 s3 Hstep _ IH]; [done|].
  intros [l Hl]. apply IH. by eapply step_ok.
Qed.

Lemma reachable_ok p sys : System.reachable p sys → ∃ l, sys_ok p sys l.
Proof.
  intros [Hp Hrtc]. eapply rtc_step_ok; [done|]. eauto using initial_ok.
Qed.

Lemma turn_step a sys sys' : System.turn a sys = Some sys' → System.step sys sys'.
Proof.
  destruct a as [|i c|i]; cbn.
  - intros [= <-]. constructor.
  - destruct (System.threads sys !! i) as [th|] eqn:Hi; [|done]. cbn.
    destruct (Edge_Iterator.pc th) eqn:Hpc; try done.
    destruct (System.call _ _ _) as [[σ' th']|] eqn:Hc; [|done]. cbn.
    intros [= <-]. by eapply System.step_call.
  - destruct (System.threads sys !! i) as [th|] eqn:Hi; [|done]. cbn.
    destruct (Edge_Iterator.thread_step _ _) as [[σ' th']|] eqn:Hc; [|done]. cbn.
    intros [= <-]. by eapply System.step_internal.
Qed.

Lemma schedule_rtc turns : ∀ sys sys',
  System.schedule turns sys = Some sys' → rtc System.step sys sys'.
Proof.
  induction turns as [|a turns IH]; cbn; intros sys sys'.
  - intros [= <-]. constructor.
  - destruct (System.turn a sys) as [sys1|] eqn:Ha; [|done]. cbn.
    intros H. eapply rtc_l; [by eapply turn_step|by apply IH].
Qed.

Lemma evaluated_ok : System.payload_ok Sample.evaluated.
Proof.
  split; [|by vm_compute]. intros es [= <-]. reflexivity.
Qed.

Lemma after_race_reachable : System.reachable Sample.evaluated Sample.after_race.
Proof.
  split; [exact evaluated_ok|]. apply (schedule_rtc Sample.race).
  by vm_compute.
Qed.

Lemma after_descent_reachable :
  System.reachable Sample.evaluated Sample.after_descent.
Proof.
  split; [exact evaluated_ok|]. apply (schedule_rtc Sample.descent).
  by vm_compute.
Qed.

Lemma after_second_spawns_reachable :
  System.reachable Sample.evaluated Sample.after_second_spawns.
Proof.
  split; [exact evaluated_ok|]. apply (schedule_rtc Sample.second_spawns).
  by vm_compute.
Qed.

(** C1: whatever iterators are constructed over a payload, advanced and
    asked to [GetOrSpawnNode], and however their accesses to the list
    interleave, the payload's children form a list that is strictly
    ascending in index, with every index in [0, num_edges) and none
    repeated. *)
Theorem children_ascending (p : LowNode.t) (sys : System.t) :
  System.reachable p sys →
  ∃ l, children (System.store sys) l ∧
    StronglySorted Z.lt (indices (System.store sys) l) ∧
    Forall (λ i, 0 ≤ i < LowNode.GetNumEdges p) (indices (System.store sys) l) ∧
    NoDup (indices (System.store sys) l).
Proof.
  intros Hr. destruct (reachable_ok _ _ Hr) as (l & (_ & _ & Hl & Hasc & Hb & _) & _).
  exists l. split; [done|]. split; [by eapply ascending_StronglySorted|].
  split; [|by eapply ascending_NoDup].
  pose proof (ascending_above _ _ Hasc) as Hlo.
  apply Forall_and. split; [|done]. eapply Forall_impl; [exact Hlo|]. cbn. lia.
Qed.

Lemma children_ascending_witness :
  System.reachable Sample.evaluated Sample.after_descent ∧
  ∃ l, children (System.store Sample.after_descent) l ∧
    StronglySorted Z.lt (indices (System.store Sample.after_descent) l) ∧
    Forall (λ i, 0 ≤ i < LowNode.GetNumEdges Sample.evaluated)
      (indices (System.store Sample.after_descent) l) ∧
    NoDup (indices (System.store Sample.after_descent) l).
Proof.
  split; [exact after_descent_reachable|].
  exact (children_ascending Sample.evaluated Sample.after_descent
           after_descent_reachable).
Defined.

(** The same holds from any store whose children are in order, such as the
    one the constructor [LowNode(hash, moves, index)] leaves with its first
    child. *)
Lemma children_ascending_from (p : LowNode.t) (σ : Store.t) (l0 : list addr)
    (sys : System.t) :
  store_ok p σ l0 →
  rtc System.step {| System.store := σ; System.threads := [] |} sys →
  ∃ l, children (System.store sys) l ∧
    StronglySorted Z.lt (indices (System.store sys) l) ∧
    Forall (λ i, 0 ≤ i < LowNode.GetNumEdges p) (indices (System.store sys) l).
Proof.
  intros Hok Hrtc.
  destruct (rtc_step_ok p _ _ Hrtc) as (l & (_ & _ & Hl & Hasc & Hb & _) & _).
  { exists l0. split; [done|]. split.
    - intros i th Hi. cbn in Hi. by rewrite lookup_nil in Hi.
    - intros i j thi thj a Hi. cbn in Hi. by rewrite lookup_nil in Hi. }
  exists l. split; [done|]. split; [by eapply ascending_StronglySorted|].
  pose proof (ascending_above _ _ Hasc) as Hlo.
  apply Forall_and. split; [|done]. eapply Forall_impl; [exact Hlo|]. cbn. lia.
Qed.

(** Asking for the nodes of edges 1, 0 and 2 in this order links them in
    the order 0, 1, 2. *)
Example descent_children :
  children (System.store Sample.after_descent) [1%nat; 0%nat; 2%nat] ∧
  indices (System.store Sample.after_descent) [1%nat; 0%nat; 2%nat] = [0; 1; 2].
Proof.
  split; [|by vm_compute]. unfold children. cbn.
  repeat (split; [by vm_compute|]; eexists; split; [by vm_compute|]).
  by vm_compute.
Qed.

(** Two racing insertions at edge 0: one node is linked, the other one is
    gone from the store. *)
Example race_children :
  children (System.store Sample.after_race) [1%nat] ∧
  dom (Store.nodes (System.store Sample.after_race)) = {[ 1%nat ]} ∧
  Store.allocated (System.store Sample.after_race) = 2%nat ∧
  Edge_Iterator.node_ ∘ Edge_Iterator.iter <$> System.threads Sample.after_race
    = [Some 1%nat; Some 1%nat].
Proof.
  split; [|by vm_compute]. unfold children. cbn.
  split; [by vm_compute|]. eexists. split; [by vm_compute|]. by vm_compute.
Qed.

(** ** A call that finds its node already in the list *)

Lemma run_ready fuel σ th :
  Edge_Iterator.pc th = Edge_Iterator.Ready →
  Edge_Iterator.run fuel σ th = Some (σ, th).
Proof. intros H. destruct fuel; cbn; by rewrite H. Qed.

Lemma ascending_before lo xs y ys :
  ascending lo (xs ++ y :: ys) → Forall (λ x, x < y) xs.
Proof.
  revert lo. induction xs as [|x xs IH]; intros lo; [done|].
  cbn. intros [_ H]. constructor; [|by eapply IH].
  apply ascending_above in H. rewrite Forall_app, Forall_cons in H. tauto.
Qed.

Lemma unique_index p σ l a b :
  store_ok p σ l → a ∈ l → b ∈ l →
  index_of (Store.nodes σ) a = index_of (Store.nodes σ) b → a = b.
Proof.
  intros (_ & _ & _ & Hasc & _) [i Hi]%list_elem_of_lookup_1
    [j Hj]%list_elem_of_lookup_1 Heq.
  apply ascending_NoDup in Hasc. unfold indices in Hasc.
  assert (i = j) as ->; [|congruence].
  eapply NoDup_lookup; [exact Hasc| |].
  - by rewrite list_lookup_fmap, Hi.
  - by rewrite list_lookup_fmap, Hj, Heq.
Qed.

(** [Actualize] walks over the nodes with a smaller index and stops at the
    node with the iterator's index. *)
Lemma seek_found σ k b ndb post : ∀ pre it fuel,
  atomic_unique_ptr.get σ (Edge_Iterator.node_ptr_ it)
    = Some (head (pre ++ b :: post)) →
  lseg (Store.nodes σ) (head (pre ++ b :: post)) (pre ++ b :: post) None →
  Forall (λ a, index_of (Store.nodes σ) a < Edge_Iterator.current_idx_ it) pre →
  Store.nodes σ !! b = Some ndb →
  Node.Index ndb = Edge_Iterator.current_idx_ it →
  (length pre < fuel)%nat →
  Edge_Iterator.run fuel σ
    {| Edge_Iterator.iter := it; Edge_Iterator.pc := Edge_Iterator.InActualize k |}
  = Some (match k with
          | Edge_Iterator.KReturn => σ
          | Edge_Iterator.KSpawn new_node => Store.delete_node new_node σ
          end,
          {| Edge_Iterator.iter := Edge_Iterator.found it b;
             Edge_Iterator.pc := Edge_Iterator.Ready |}).
Proof.
  induction pre as [|a pre IH]; intros it fuel Hget Hl Hlt Hb Hidx Hf;
    (destruct fuel as [|fuel]; [cbn in Hf; lia|]);
    cbn [Edge_Iterator.run Edge_Iterator.pc Edge_Iterator.iter
         Edge_Iterator.thread_step];
    unfold Edge_Iterator.Actualize_load; rewrite Hget; cbn [app head mbind option_bind].
  - rewrite Hb. cbn [mbind option_bind]. rewrite Hidx, Z.ltb_irrefl, Z.eqb_refl.
    cbn [mbind option_bind]. destruct k; cbn; by rewrite run_ready.
  - cbn in Hl. destruct Hl as (_ & nd & Ha & Hl). rewrite Ha.
    cbn [mbind option_bind]. apply Forall_cons_1 in Hlt as [Hlta Hlt].
    rewrite (index_of_lookup _ _ _ Ha) in Hlta.
    apply Z.ltb_lt in Hlta. rewrite Hlta. cbn [mbind option_bind].
    pose proof (lseg_head _ _ _ Hl) as Hh.
    rewrite (IH _ fuel); try done.
    + cbn. rewrite Ha. cbn. by rewrite Hh.
    + by rewrite <- Hh.
    + cbn in Hf. lia.
Qed.

Lemma seek_existing p σ l it k b fuel :
  store_ok p σ l → 0 ≤ Edge_Iterator.current_idx_ it →
  behind (Store.nodes σ) l (Edge_Iterator.current_idx_ it)
    (Edge_Iterator.node_ptr_ it) →
  b ∈ l → index_of (Store.nodes σ) b = Edge_Iterator.current_idx_ it →
  (length l ≤ fuel)%nat →
  Edge_Iterator.run fuel σ
    {| Edge_Iterator.iter := it; Edge_Iterator.pc := Edge_Iterator.InActualize k |}
  = Some (match k with
          | Edge_Iterator.KReturn => σ
          | Edge_Iterator.KSpawn new_node => Store.delete_node new_node σ
          end,
          {| Edge_Iterator.iter := Edge_Iterator.found it b;
             Edge_Iterator.pc := Edge_Iterator.Ready |}).
Proof.
  intros Hok H0 Hbe Hb Hidx Hf.
  destruct (slot_split _ _ _ _ _ Hok H0 Hbe)
    as (l1 & l2 & -> & Hget & Hl2 & _ & Hbelow & _).
  assert (Hb2 : b ∈ l2).
  { apply elem_of_app in Hb as [Hb1|Hb2]; [|done].
    rewrite Forall_forall in Hbelow. specialize (Hbelow b Hb1). lia. }
  apply list_elem_of_split in Hb2 as (pre & post & ->).
  pose proof Hok as (_ & _ & Hl & Hasc & _).
  destruct (lseg_lookup _ _ _ _ b Hl ltac:(set_solver)) as [ndb Hndb].
  eapply seek_found; try done.
  - unfold indices in Hasc. rewrite app_assoc, fmap_app, fmap_cons in Hasc.
    apply ascending_before in Hasc. rewrite fmap_app, Forall_app in Hasc.
    destruct Hasc as [_ Hpre]. rewrite Forall_fmap in Hpre.
    eapply Forall_impl; [exact Hpre|]. cbn. intros a Ha. lia.
  - by rewrite <- (index_of_lookup _ _ _ Hndb).
  - rewrite !length_app in Hf. cbn in Hf. lia.
Qed.

Lemma low_edges p σ l :
  store_ok p σ l → LowNode.edges_ (Store.low σ) = LowNode.edges_ p.
Proof. intros (_ & <- & _). done. Qed.

Lemma index_in_range p σ l b :
  store_ok p σ l → b ∈ l →
  0 ≤ index_of (Store.nodes σ) b < LowNode.num_edges_ p.
Proof.
  intros (_ & _ & _ & Hasc & Hbound & _) Hb.
  apply ascending_above in Hasc. unfold indices in *.
  rewrite Forall_fmap, Forall_forall in Hasc, Hbound.
  specialize (Hasc b Hb). specialize (Hbound b Hb). cbn in *. lia.
Qed.

Lemma GetEdgeAt_defined p σ l b :
  store_ok p σ l → b ∈ l →
  is_Some (LowNode.GetEdgeAt (Store.low σ) (index_of (Store.nodes σ) b)).
Proof.
  intros Hok Hb. pose proof Hok as ((Hes & _ & _ & Hnone) & _).
  pose proof (index_in_range _ _ _ _ Hok Hb) as Hi.
  unfold LowNode.GetEdgeAt. rewrite (low_edges _ _ _ Hok).
  destruct (LowNode.edges_ p) as [es|] eqn:E.
  - cbn. rewrite decide_True by lia. apply lookup_lt_is_Some_2.
    specialize (Hes es E). lia.
  - specialize (Hnone eq_refl). lia.
Qed.

(** A new call of [GetOrSpawnNode] at an index that is in the list. *)
Lemma spawn_existing_call p sys l i th b fuel :
  sys_ok p sys l → System.threads sys !! i = Some th →
  Edge_Iterator.pc th = Edge_Iterator.Ready →
  b ∈ l →
  index_of (Store.nodes (System.store sys)) b
    = Edge_Iterator.current_idx_ (Edge_Iterator.iter th) →
  (length l ≤ fuel)%nat →
  ∃ σ' it',
    Edge_Iterator.GetOrSpawnNode fuel (System.store sys) (Edge_Iterator.iter th)
      = Some (σ', it', Some b) ∧
    Edge_Iterator.node_ it' = Some b ∧
    Store.low σ' = Store.low (System.store sys) ∧
    Store.nodes σ' = Store.nodes (System.store sys) ∧
    Store.allocated σ' =
      match Edge_Iterator.node_ (Edge_Iterator.iter th) with
      | Some _ => Store.allocated (System.store sys)
      | None => S (Store.allocated (System.store sys))
      end.
Proof.
  intros (Hok & Hths & _) Hi Hready Hb Hidx Hf.
  pose proof (Hths _ _ Hi) as Hth. destruct Hth as [Ht Hpc].
  destruct th as [it pc]. cbn in *. subst pc. destruct Hpc as [Hpc Hend].
  assert (Hedge : Edge_Iterator.edge_ it ≠ None).
  { intros He. apply (Hend He).
    pose proof (index_in_range _ _ _ _ Hok Hb) as Hr.
    rewrite Ht, (store_ok_num_edges _ _ _ Hok). lia. }
  destruct (Hpc Hedge) as (H0 & Hbd & Hnode).
  unfold Edge_Iterator.GetOrSpawnNode, Edge_Iterator.GetOrSpawnNode_call.
  destruct (Edge_Iterator.node_ it) as [a|] eqn:Hn.
  - destruct Hnode as (_ & Ha & Hia).
    assert (a = b) as -> by (eapply unique_index; [done..|congruence]).
    cbn. rewrite run_ready by done. cbn. rewrite Hn. eauto 10.
  - destruct (GetEdgeAt_defined _ _ _ b Hok Hb) as [e He]. rewrite Hidx in He.
    rewrite He. cbn [mbind option_bind].
    set (σ := System.store sys) in *.
    set (nd := Node.make e (Edge_Iterator.current_idx_ it)).
    destruct (alloc_ok p σ l nd Hok) as [Hok1 Hf1].
    pose proof Hf1 as (_ & Hfl & _). destruct (Hfl b Hb) as [_ Hib].
    erewrite (seek_existing p (Store.alloc nd σ) l it _ b fuel);
      [|done|done|exact (behind_frame _ _ _ _ _ _ _ Hf1 Hnode)|done|congruence|done].
    cbn [mbind option_bind]. do 2 eexists. split; [reflexivity|].
    split; [done|].
    assert (Hfresh : Store.nodes σ !! Store.allocated σ = None).
    { destruct Hok as (_ & _ & _ & _ & _ & Hal).
      destruct (Store.nodes σ !! Store.allocated σ) eqn:E; [|done].
      specialize (Hal _ (mk_is_Some _ _ E)). lia. }
    rewrite (delete_node_single _ _ nd); [|by cbn; rewrite lookup_insert_eq|done].
    cbn. by rewrite delete_insert_id.
Qed.

(** A call that has prepared its node and then finds the index taken: the
    exchange fails, the next look finds the node, the prepared one is
    deleted. *)
Lemma spawn_existing_exchange p sys l i th b fuel new_node node :
  sys_ok p sys l → System.threads sys !! i = Some th →
  Edge_Iterator.pc th = Edge_Iterator.AtExchange new_node node →
  b ∈ l →
  index_of (Store.nodes (System.store sys)) b
    = Edge_Iterator.current_idx_ (Edge_Iterator.iter th) →
  (length l < fuel)%nat →
  ∃ σ',
    Edge_Iterator.run fuel (System.store sys) th
      = Some (σ', {| Edge_Iterator.iter := Edge_Iterator.found (Edge_Iterator.iter th) b;
                     Edge_Iterator.pc := Edge_Iterator.Ready |}) ∧
    Store.low σ' = Store.low (System.store sys) ∧
    Store.nodes σ' = delete new_node (Store.nodes (System.store sys)) ∧
    Store.allocated σ' = Store.allocated (System.store sys).
Proof.
  intros (Hok & Hths & _) Hi Hx Hb Hidx Hf.
  pose proof (Hths _ _ Hi) as Hth. destruct Hth as [Ht Hpc].
  destruct th as [it pc]. cbn in *. subst pc.
  destruct Hpc as (_ & H0 & Hbd & Hbe & (Hnew & nd & Hnd & Hin & Hsib & Hlt) & Hnode).
  set (σ := System.store sys) in *.
  (* the slot no longer holds what Actualize saw *)
  destruct (slot_split _ _ _ _ _ Hok H0 Hbe)
    as (l1 & l2 & -> & Hget & Hl2 & _ & Hbelow & _).
  assert (Hb2 : b ∈ l2).
  { apply elem_of_app in Hb as [Hb1|Hb2]; [|done].
    rewrite Forall_forall in Hbelow. specialize (Hbelow b Hb1). lia. }
  assert (Hne : head l2 ≠ node).
  { intros <-. destruct l2 as [|a l2]; [by apply elem_of_nil in Hb2|].
    cbn in Hnode. destruct Hnode as [_ Hgt].
    apply elem_of_cons in Hb2 as [->|Hb2]; [lia|].
    pose proof Hok as (_ & _ & _ & Hasc & _). unfold indices in Hasc.
    rewrite fmap_app, fmap_cons in Hasc. apply ascending_app in Hasc as [_ Hasc].
    cbn in Hasc. destruct Hasc as [_ Hasc]. apply ascending_above in Hasc.
    rewrite Forall_fmap, Forall_forall in Hasc. specialize (Hasc b Hb2).
    cbn in Hasc. lia. }
  destruct fuel as [|fuel]; [lia|].
  cbn [Edge_Iterator.run Edge_Iterator.pc Edge_Iterator.iter
       Edge_Iterator.thread_step].
  unfold atomic_unique_ptr.compare_exchange. rewrite Hget.
  cbn [mbind option_bind]. rewrite decide_False by done.
  cbn [mbind option_bind].
  destruct (set_sibling_ok p σ _ new_node None Hok Hnew) as [Hok2 Hf2].
  pose proof Hf2 as (_ & Hfl & _). destruct (Hfl b Hb) as [_ Hib].
  erewrite (seek_existing p _ _ it _ b fuel);
    [|done|done|exact (behind_frame _ _ _ _ _ _ _ Hf2 Hbe)|done|congruence|lia].
  eexists. split; [reflexivity|].
  rewrite (delete_node_single _ _ (Node.set_sibling None nd));
    [|by cbn; rewrite lookup_alter_eq, Hnd|done].
  cbn. by rewrite delete_alter_eq.
Qed.

Lemma after_second_spawns_children :
  children (System.store Sample.after_second_spawns) [0%nat].
Proof.
  unfold children. cbn. split; [by vm_compute|]. eexists.
  split; [by vm_compute|]. by vm_compute.
Qed.

(** C2 as stated fails: the first iterator was constructed before edge 0 had
    a node, so its [node_] is null; once the second iterator has spawned that
    node, the first one's [GetOrSpawnNode] returns it and leaves the list
    alone, but only after it has allocated a node of its own. *)
Lemma GetOrSpawnNode_allocates_first :
  children (System.store Sample.after_second_spawns) [0%nat] ∧
  System.threads Sample.after_second_spawns !! 0%nat = Some Sample.first_iterator ∧
  index_of (Store.nodes (System.store Sample.after_second_spawns)) 0%nat
    = Edge_Iterator.current_idx_ (Edge_Iterator.iter Sample.first_iterator) ∧
  Store.allocated (System.store Sample.after_second_spawns) = 1%nat ∧
  (λ r, (Store.allocated r.1.1, Store.low r.1.1, Store.nodes r.1.1, r.2)) <$>
    Edge_Iterator.GetOrSpawnNode 2 (System.store Sample.after_second_spawns)
      (Edge_Iterator.iter Sample.first_iterator)
  = Some (2%nat, Store.low (System.store Sample.after_second_spawns),
          Store.nodes (System.store Sample.after_second_spawns), Some 0%nat).
Proof.
  split; [exact after_second_spawns_children|by vm_compute].
Qed.

Lemma children_unlinked σ σ' l x :
  children σ l → x ∉ l → Store.low σ' = Store.low σ →
  Store.nodes σ' = delete x (Store.nodes σ) → children σ' l.
Proof.
  unfold children. intros Hl Hx -> ->. eapply lseg_ext; [|exact Hl].
  intros a Ha. apply lookup_delete_ne. by intros ->.
Qed.

(** C2, amended: when the list already holds a node [b] with the iterator's
    index, it is the only such node, and
    - a call of [GetOrSpawnNode] returns [b] and leaves payload and nodes as
      they were; it allocates nothing if the iterator already held the
      node, and otherwise allocates one node before it looks and deletes it
      again;
    - a call that had already prepared its node and is about to
      compare-exchange, the index having been taken meanwhile by another
      insertion, fails the exchange, returns [b] and deletes its own node,
      so that of two insertions at one index one node is in the list. *)
Theorem GetOrSpawnNode_existing (p : LowNode.t) (sys : System.t)
    (l : list addr) (i : nat) (th : Edge_Iterator.Thread) (b : addr)
    (fuel : nat) :
  System.reachable p sys →
  children (System.store sys) l →
  System.threads sys !! i = Some th →
  b ∈ l →
  index_of (Store.nodes (System.store sys)) b
    = Edge_Iterator.current_idx_ (Edge_Iterator.iter th) →
  (length l < fuel)%nat →
  (∀ a, a ∈ l →
     index_of (Store.nodes (System.store sys)) a
       = Edge_Iterator.current_idx_ (Edge_Iterator.iter th) → a = b) ∧
  (Edge_Iterator.pc th = Edge_Iterator.Ready →
   ∃ σ' it',
     Edge_Iterator.GetOrSpawnNode fuel (System.store sys) (Edge_Iterator.iter th)
       = Some (σ', it', Some b) ∧
     children σ' l ∧
     Store.low σ' = Store.low (System.store sys) ∧
     Store.nodes σ' = Store.nodes (System.store sys) ∧
     Store.allocated σ' =
       match Edge_Iterator.node_ (Edge_Iterator.iter th) with
       | Some _ => Store.allocated (System.store sys)
       | None => S (Store.allocated (System.store sys))
       end) ∧
  (∀ new_node node,
   Edge_Iterator.pc th = Edge_Iterator.AtExchange new_node node →
   ∃ σ' th',
     Edge_Iterator.run fuel (System.store sys) th = Some (σ', th') ∧
     Edge_Iterator.pc th' = Edge_Iterator.Ready ∧
     Edge_Iterator.node_ (Edge_Iterator.iter th') = Some b ∧
     children σ' l ∧
     Store.low σ' = Store.low (System.store sys) ∧
     Store.nodes σ' = delete new_node (Store.nodes (System.store sys)) ∧
     Store.allocated σ' = Store.allocated (System.store sys)).
Proof.
  intros Hr Hl Hi Hb Hidx Hf. destruct (reachable_ok _ _ Hr) as [l0 Hsys].
  pose proof Hsys as (Hok & Hths & _).
  assert (l0 = l) as ->.
  { destruct Hok as (_ & _ & Hl0 & _). by eapply lseg_functional. }
  split; [|split].
  - intros a Ha Hia. eapply unique_index; [done..|congruence].
  - intros Hready.
    destruct (spawn_existing_call _ _ _ _ _ _ fuel Hsys Hi Hready Hb Hidx
                ltac:(lia)) as (σ' & it' & Hrun & _ & Hlow & Hns & Hal).
    exists σ', it'. repeat split; try done.
    unfold children in *. by rewrite Hlow, Hns.
  - intros new_node node Hx.
    destruct (spawn_existing_exchange _ _ _ _ _ _ fuel _ _ Hsys Hi Hx Hb Hidx Hf)
      as (σ' & Hrun & Hlow & Hns & Hal).
    eexists σ', _. split; [exact Hrun|]. repeat split; try done.
    eapply children_unlinked; [exact Hl| |done|done].
    destruct (Hths _ _ Hi) as [_ Hpc]. rewrite Hx in Hpc.
    by destruct Hpc as (_ & _ & _ & _ & (Hnew & _) & _).
Qed.

Lemma after_winner_reachable :
  System.reachable Sample.evaluated Sample.after_winner.
Proof.
  split; [exact evaluated_ok|].
  apply (schedule_rtc (Sample.both_prepared ++ [System.TStep 1])).
  by vm_compute.
Qed.

Lemma after_winner_children :
  children (System.store Sample.after_winner) [1%nat].
Proof.
  unfold children. cbn. split; [by vm_compute|]. eexists.
  split; [by vm_compute|]. by vm_compute.
Qed.

Lemma GetOrSpawnNode_existing_witness :
  (System.reachable Sample.evaluated Sample.after_second_spawns ∧
   children (System.store Sample.after_second_spawns) [0%nat] ∧
   System.threads Sample.after_second_spawns !! 0%nat = Some Sample.first_iterator ∧
   0%nat ∈ [0%nat] ∧
   index_of (Store.nodes (System.store Sample.after_second_spawns)) 0%nat
     = Edge_Iterator.current_idx_ (Edge_Iterator.iter Sample.first_iterator) ∧
   (length [0%nat] < 2)%nat ∧
   ∃ σ' it',
     Edge_Iterator.GetOrSpawnNode 2 (System.store Sample.after_second_spawns)
       (Edge_Iterator.iter Sample.first_iterator) = Some (σ', it', Some 0%nat) ∧
     children σ' [0%nat] ∧
     Store.low σ' = Store.low (System.store Sample.after_second_spawns) ∧
     Store.nodes σ' = Store.nodes (System.store Sample.after_second_spawns) ∧
     Store.allocated σ' = S (Store.allocated (System.store Sample.after_second_spawns))) ∧
  (System.reachable Sample.evaluated Sample.after_winner ∧
   children (System.store Sample.after_winner) [1%nat] ∧
   System.threads Sample.after_winner !! 0%nat = Some Sample.loser ∧
   1%nat ∈ [1%nat] ∧
   index_of (Store.nodes (System.store Sample.after_winner)) 1%nat
     = Edge_Iterator.current_idx_ (Edge_Iterator.iter Sample.loser) ∧
   (length [1%nat] < 2)%nat ∧
   ∃ σ' th',
     Edge_Iterator.run 2 (System.store Sample.after_winner) Sample.loser
       = Some (σ', th') ∧
     Edge_Iterator.pc th' = Edge_Iterator.Ready ∧
     Edge_Iterator.node_ (Edge_Iterator.iter th') = Some 1%nat ∧
     children σ' [1%nat] ∧
     Store.low σ' = Store.low (System.store Sample.after_winner) ∧
     Store.nodes σ' = delete 0%nat (Store.nodes (System.store Sample.after_winner)) ∧
     Store.allocated σ' = Store.allocated (System.store Sample.after_winner)).
Proof.
  assert (H3 : System.threads Sample.after_second_spawns !! 0%nat
               = Some Sample.first_iterator) by (by vm_compute).
  assert (H4 : 0%nat ∈ [0%nat]) by (by left).
  assert (H5 : index_of (Store.nodes (System.store Sample.after_second_spawns)) 0%nat
     = Edge_Iterator.current_idx_ (Edge_Iterator.iter Sample.first_iterator))
    by (by vm_compute).
  assert (H6 : (length [0%nat] < 2)%nat) by (cbn; lia).
  assert (K3 : System.threads Sample.after_winner !! 0%nat = Some Sample.loser)
    by (by vm_compute).
  assert (K4 : 1%nat ∈ [1%nat]) by (by left).
  assert (K5 : index_of (Store.nodes (System.store Sample.after_winner)) 1%nat
     = Edge_Iterator.current_idx_ (Edge_Iterator.iter Sample.loser))
    by (by vm_compute).
  split.
  - split; [exact after_second_spawns_reachable|].
    split; [exact after_second_spawns_children|].
    do 4 (split; [assumption|]).
    exact (proj1 (proj2 (GetOrSpawnNode_existing _ _ _ _ _ _ _
             after_second_spawns_reachable after_second_spawns_children
             H3 H4 H5 H6)) eq_refl).
  - split; [exact after_winner_reachable|].
    split; [exact after_winner_children|].
    do 4 (split; [assumption|]).
    exact (proj2 (proj2 (GetOrSpawnNode_existing _ _ _ _ _ _ _
             after_winner_reachable after_winner_children
             K3 K4 K5 H6)) _ _ eq_refl).
Defined.

(** ** A call that finds no node at its index *)

(** A thread that is inside a call takes its next step. *)
Lemma run_busy fuel σ th :
  Edge_Iterator.pc th ≠ Edge_Iterator.Ready →
  Edge_Iterator.run (S fuel) σ th
  = '(σ', th') ← Edge_Iterator.thread_step σ th; Edge_Iterator.run fuel σ' th'.
Proof. intros H. cbn [Edge_Iterator.run]. by destruct (Edge_Iterator.pc th). Qed.

(** [Actualize] walks over the nodes with a smaller index and stops in front
    of the first node with a larger one, or at the end of the list. *)
Lemma seek_absent σ new_node post : ∀ pre it fuel,
  atomic_unique_ptr.get σ (Edge_Iterator.node_ptr_ it)
    = Some (head (pre ++ post)) →
  lseg (Store.nodes σ) (head (pre ++ post)) (pre ++ post) None →
  Forall (λ a, index_of (Store.nodes σ) a < Edge_Iterator.current_idx_ it) pre →
  (∀ e, head post = Some e →
        Edge_Iterator.current_idx_ it < index_of (Store.nodes σ) e) →
  Edge_Iterator.run (S (length pre) + fuel) σ
    {| Edge_Iterator.iter := it;
       Edge_Iterator.pc := Edge_Iterator.InActualize (Edge_Iterator.KSpawn new_node) |}
  = Edge_Iterator.run fuel
      (atomic_unique_ptr.set (SiblingSlot new_node) (head post) σ)
      {| Edge_Iterator.iter :=
           {| Edge_Iterator.edge_ := Edge_Iterator.edge_ it;
              Edge_Iterator.node_ := None;
              Edge_Iterator.node_ptr_ := slot_after (Edge_Iterator.node_ptr_ it) pre;
              Edge_Iterator.current_idx_ := Edge_Iterator.current_idx_ it;
              Edge_Iterator.total_count_ := Edge_Iterator.total_count_ it |};
         Edge_Iterator.pc := Edge_Iterator.AtExchange new_node (head post) |}.
Proof.
  induction pre as [|a pre IH]; intros it fuel Hget Hl Hlt Hpost;
    cbn [length Nat.add]; rewrite run_busy by (by intros [=]);
    cbn [Edge_Iterator.pc Edge_Iterator.iter Edge_Iterator.thread_step];
    unfold Edge_Iterator.Actualize_load; rewrite Hget; cbn [app mbind option_bind].
  - destruct post as [|e post]; cbn [head mbind option_bind]; [done|].
    cbn in Hl. destruct Hl as (_ & nd & He & _). rewrite He.
    cbn [mbind option_bind]. specialize (Hpost e eq_refl).
    rewrite (index_of_lookup _ _ _ He) in Hpost.
    destruct (Z.ltb_spec (Node.Index nd) (Edge_Iterator.current_idx_ it)); [lia|].
    destruct (Z.eqb_spec (Node.Index nd) (Edge_Iterator.current_idx_ it)); [lia|].
    done.
  - cbn in Hl. destruct Hl as (_ & nd & Ha & Hl). cbn [head]. rewrite Ha.
    cbn [mbind option_bind]. apply Forall_cons_1 in Hlt as [Hlta Hlt].
    rewrite (index_of_lookup _ _ _ Ha) in Hlta.
    apply Z.ltb_lt in Hlta. rewrite Hlta. cbn [mbind option_bind].
    pose proof (lseg_head _ _ _ Hl) as Hh.
    change (S (length pre + fuel)) with (S (length pre) + fuel)%nat.
    rewrite IH; cbn [Edge_Iterator.node_ptr_ Edge_Iterator.current_idx_
                     Edge_Iterator.edge_ Edge_Iterator.total_count_]; try done.
    + unfold slot_after. rewrite last_cons. by destruct (last pre).
    + cbn. rewrite Ha. cbn. by rewrite Hh.
    + by rewrite <- Hh.
Qed.

(** The slot [Actualize] stops at holds what follows the nodes it has walked
    over. *)
Lemma slot_after_get σ post : ∀ pre s,
  atomic_unique_ptr.get σ s = Some (head (pre ++ post)) →
  lseg (Store.nodes σ) (head (pre ++ post)) (pre ++ post) None →
  atomic_unique_ptr.get σ (slot_after s pre) = Some (head post).
Proof.
  induction pre as [|a pre IH]; intros s Hget Hl; [done|].
  cbn in Hl. destruct Hl as (_ & nd & Ha & Hl).
  pose proof (lseg_head _ _ _ Hl) as Hh.
  replace (slot_after s (a :: pre)) with (slot_after (SiblingSlot a) pre).
  - apply IH; [|by rewrite <- Hh]. cbn. rewrite Ha. cbn. by rewrite Hh.
  - unfold slot_after. rewrite last_cons. by destruct (last pre).
Qed.

(** A list splits into the nodes below an index and the rest. *)
Lemma split_below (ns : gmap addr Node.t) (cur : Z) (l : list addr) :
  ∃ pre post, l = pre ++ post ∧
    Forall (λ a, index_of ns a < cur) pre ∧
    (∀ e, head post = Some e → cur ≤ index_of ns e).
Proof.
  induction l as [|a l (pre & post & -> & Hpre & Hpost)].
  - exists [], []. by repeat split.
  - destruct (decide (index_of ns a < cur)) as [Hlt|Hge].
    + exists (a :: pre), post. repeat split; [by constructor|done].
    + exists [], (a :: pre ++ post). repeat split; [done|].
      intros e [= <-]. lia.
Qed.

Lemma set_allocated s q σ :
  Store.allocated (atomic_unique_ptr.set s q σ) = Store.allocated σ.
Proof. by destruct s. Qed.

Lemma behind_slot_after ns l1 pre post cur s :
  behind ns (l1 ++ pre ++ post) cur s →
  Forall (λ a, index_of ns a < cur) pre →
  behind ns (l1 ++ pre ++ post) cur (slot_after s pre).
Proof.
  intros Hbe Hpre. unfold slot_after.
  destruct (last pre) as [o|] eqn:Hlast; cbn [from_option]; [|done].
  apply last_Some_elem_of in Hlast. split.
  - rewrite !elem_of_app. auto.
  - rewrite Forall_forall in Hpre. by apply Hpre.
Qed.

(** A compare-exchange on a slot that still holds what [Actualize] saw links
    the prepared node, and the [Actualize] after it finds the node. *)
Lemma exchange_run p σ l it new_node node fuel :
  store_ok p σ l → 0 ≤ Edge_Iterator.current_idx_ it →
  behind (Store.nodes σ) l (Edge_Iterator.current_idx_ it)
    (Edge_Iterator.node_ptr_ it) →
  prepared σ l (Edge_Iterator.current_idx_ it) new_node node →
  match node with
  | Some e => e ∈ l ∧ Edge_Iterator.current_idx_ it < index_of (Store.nodes σ) e
  | None => True
  end →
  atomic_unique_ptr.get σ (Edge_Iterator.node_ptr_ it) = Some node →
  ∃ σ' l1 l2,
    Edge_Iterator.run (S (S fuel)) σ
      {| Edge_Iterator.iter := it;
         Edge_Iterator.pc := Edge_Iterator.AtExchange new_node node |}
    = Some (σ', {| Edge_Iterator.iter := Edge_Iterator.found it new_node;
                   Edge_Iterator.pc := Edge_Iterator.Ready |}) ∧
    l = l1 ++ l2 ∧ store_ok p σ' (l1 ++ new_node :: l2) ∧
    index_of (Store.nodes σ') new_node = Edge_Iterator.current_idx_ it ∧
    (∀ a, a ∈ l → index_of (Store.nodes σ') a = index_of (Store.nodes σ) a) ∧
    Store.allocated σ' = Store.allocated σ.
Proof.
  intros Hok H0 Hbe Hpr Hnode Hget.
  set (s := Edge_Iterator.node_ptr_ it) in *.
  destruct (exchange_ok _ _ _ _ _ _ _ Hok H0 Hbe Hpr Hnode Hget)
    as (l1 & l2 & Hl & Hok' & Hf).
  assert (Hget' : atomic_unique_ptr.get (atomic_unique_ptr.set s (Some new_node) σ) s
                  = Some (Some new_node)).
  { destruct s as [|o];
      cbn [atomic_unique_ptr.get atomic_unique_ptr.set Store.nodes Store.low
           LowNode.child_ LowNode.set_child]; [done|].
    rewrite lookup_alter_eq. destruct Hbe as [Hin _].
    destruct (lseg_lookup _ _ _ _ o (proj1 (proj2 (proj2 Hok))) Hin) as [ndo ->].
    done. }
  assert (Hn : ∃ nd, Store.nodes (atomic_unique_ptr.set s (Some new_node) σ) !! new_node
                       = Some nd ∧
                     Node.Index nd = Edge_Iterator.current_idx_ it).
  { destruct Hpr as (Hnew & nd & Hnd & Hi & _).
    destruct s as [|o]; cbn [atomic_unique_ptr.set Store.nodes]; [eauto|].
    destruct Hbe as [Hin _]. rewrite lookup_alter_ne; [eauto|]. by intros ->. }
  destruct Hn as (nd & Hnd & Hi).
  exists (atomic_unique_ptr.set s (Some new_node) σ), l1, l2.
  split; [|split; [done|split; [done|split; [by rewrite (index_of_lookup _ _ _ Hnd)|]]]].
  - rewrite run_busy by (by intros [=]).
    cbn [Edge_Iterator.pc Edge_Iterator.iter Edge_Iterator.thread_step].
    fold s. unfold atomic_unique_ptr.compare_exchange. rewrite Hget.
    cbn [mbind option_bind]. rewrite decide_True by done. cbn [mbind option_bind].
    rewrite run_busy by (by intros [=]).
    cbn [Edge_Iterator.pc Edge_Iterator.iter Edge_Iterator.thread_step].
    unfold Edge_Iterator.Actualize_load. fold s. rewrite Hget'.
    cbn [mbind option_bind]. rewrite Hnd. cbn [mbind option_bind].
    rewrite Hi, Z.ltb_irrefl, Z.eqb_refl. cbn [mbind option_bind].
    by rewrite run_ready.
  - split; [|apply set_allocated].
    intros a Ha. rewrite index_of_set. done.
Qed.

(** A call of [GetOrSpawnNode] that has prepared its node and runs alone,
    with no node at its index in the list, links the node it has prepared. *)
Lemma spawn_absent p σ l it new_node fuel :
  store_ok p σ l → 0 ≤ Edge_Iterator.current_idx_ it →
  behind (Store.nodes σ) l (Edge_Iterator.current_idx_ it)
    (Edge_Iterator.node_ptr_ it) →
  prepared σ l (Edge_Iterator.current_idx_ it) new_node None →
  (∀ a, a ∈ l → index_of (Store.nodes σ) a ≠ Edge_Iterator.current_idx_ it) →
  (length l + 3 ≤ fuel)%nat →
  ∃ σ' l1 l2,
    Edge_Iterator.run fuel σ
      {| Edge_Iterator.iter := it;
         Edge_Iterator.pc := Edge_Iterator.InActualize (Edge_Iterator.KSpawn new_node) |}
    = Some (σ', {| Edge_Iterator.iter := Edge_Iterator.found it new_node;
                   Edge_Iterator.pc := Edge_Iterator.Ready |}) ∧
    l = l1 ++ l2 ∧ store_ok p σ' (l1 ++ new_node :: l2) ∧
    index_of (Store.nodes σ') new_node = Edge_Iterator.current_idx_ it ∧
    (∀ a, a ∈ l → index_of (Store.nodes σ') a = index_of (Store.nodes σ) a) ∧
    Store.allocated σ' = Store.allocated σ.
Proof.
  intros Hok H0 Hbe Hpr Habs Hf. pose proof Hpr as [Hnl _].
  (* where the slot stands, and how far Actualize walks *)
  destruct (slot_split _ _ _ _ _ Hok H0 Hbe)
    as (l1 & l2 & -> & Hget & Hl2 & _ & Hbelow & _).
  destruct (split_below (Store.nodes σ) (Edge_Iterator.current_idx_ it) l2)
    as (pre & post & -> & Hpre & Hpost).
  assert (Hpost' : ∀ e, head post = Some e →
            Edge_Iterator.current_idx_ it < index_of (Store.nodes σ) e).
  { intros e He. specialize (Hpost e He).
    assert (Hin : e ∈ l1 ++ pre ++ post).
    { apply head_Some_elem_of in He. rewrite !elem_of_app. auto. }
    specialize (Habs e Hin). lia. }
  replace fuel with (S (length pre) + S (S (fuel - length pre - 3)))%nat
    by (rewrite !length_app in Hf; lia).
  rewrite (seek_absent _ new_node post pre it _ Hget Hl2 Hpre Hpost').
  (* the exchange succeeds *)
  destruct (set_sibling_ok p _ _ new_node (head post) Hok Hnl) as [Hok2 Hf2].
  set (σ2 := atomic_unique_ptr.set (SiblingSlot new_node) (head post) σ) in *.
  set (it2 := Edge_Iterator.mk (Edge_Iterator.edge_ it) None
                (slot_after (Edge_Iterator.node_ptr_ it) pre)
                (Edge_Iterator.current_idx_ it) (Edge_Iterator.total_count_ it)).
  assert (Hbe2 : behind (Store.nodes σ2) (l1 ++ pre ++ post)
                   (Edge_Iterator.current_idx_ it2) (Edge_Iterator.node_ptr_ it2)).
  { cbn. apply behind_slot_after.
    - exact (behind_frame _ _ _ _ _ _ _ Hf2 Hbe).
    - eapply Forall_impl; [exact Hpre|]. intros a Ha. cbv beta in Ha |- *.
      by rewrite index_of_alter. }
  assert (Hpr2 : prepared σ2 (l1 ++ pre ++ post) (Edge_Iterator.current_idx_ it2)
                   new_node (head post)) by exact (prepared_set _ _ _ _ _ _ Hpr).
  assert (Hnode2 : match head post with
                   | Some e => e ∈ l1 ++ pre ++ post ∧
                       Edge_Iterator.current_idx_ it2 < index_of (Store.nodes σ2) e
                   | None => True
                   end).
  { destruct (head post) as [e|] eqn:Hh; [|done]. split.
    - apply head_Some_elem_of in Hh. rewrite !elem_of_app. auto.
    - subst σ2. rewrite index_of_set. by apply Hpost'. }
  assert (Hget2 : atomic_unique_ptr.get σ2 (Edge_Iterator.node_ptr_ it2)
                  = Some (head post)).
  { rewrite <- (slot_after_get _ post pre _ Hget Hl2). cbn in Hbe2 |- *.
    destruct (slot_after (Edge_Iterator.node_ptr_ it) pre) as [|o]; [done|].
    destruct Hbe2 as [Hin _].
    subst σ2. cbn. rewrite lookup_alter_ne; [done|]. by intros <-. }
  destruct (exchange_run p σ2 _ it2 new_node (head post) (fuel - length pre - 3)
              Hok2 H0 Hbe2 Hpr2 Hnode2 Hget2)
    as (σ' & k1 & k2 & Hrun & Hk & Hok' & Hi & Hsame & Ha).
  exists σ', k1, k2. split; [exact Hrun|]. do 3 (split; [done|]). split.
  - intros a Hin. rewrite (Hsame a Hin). subst σ2. apply index_of_set.
  - rewrite Ha. subst σ2. apply set_allocated.
Qed.

(** A call of [GetOrSpawnNode] at an index that has no node in the list
    links a new node with that index and returns it. *)
Lemma GetOrSpawnNode_inserts p sys l i th fuel :
  sys_ok p sys l → System.threads sys !! i = Some th →
  Edge_Iterator.pc th = Edge_Iterator.Ready →
  Edge_Iterator.edge_ (Edge_Iterator.iter th) ≠ None →
  LowNode.num_edges_ p ≠ 0 →
  (∀ a, a ∈ l → index_of (Store.nodes (System.store sys)) a
                 ≠ Edge_Iterator.current_idx_ (Edge_Iterator.iter th)) →
  (length l + 3 ≤ fuel)%nat →
  ∃ σ' it' l1 l2,
    Edge_Iterator.GetOrSpawnNode fuel (System.store sys) (Edge_Iterator.iter th)
      = Some (σ', it', Some (Store.allocated (System.store sys))) ∧
    l = l1 ++ l2 ∧
    store_ok p σ' (l1 ++ Store.allocated (System.store sys) :: l2) ∧
    index_of (Store.nodes σ') (Store.allocated (System.store sys))
      = Edge_Iterator.current_idx_ (Edge_Iterator.iter th) ∧
    Store.allocated σ' = S (Store.allocated (System.store sys)).
Proof.
  intros (Hok & Hths & _) Hi Hready Hedge Hne Habs Hf.
  destruct th as [it pc]. cbn in Hready, Hedge, Habs |- *. subst pc.
  pose proof (Hths _ _ Hi) as Hth. unfold thread_ok in Hth.
  cbn [Edge_Iterator.iter Edge_Iterator.pc] in Hth.
  destruct Hth as [Ht [Hpc _]].
  destruct (Hpc Hedge) as (H0 & Hbd & Hnode).
  set (σ := System.store sys) in *. set (n := Store.allocated σ : addr).
  assert (Hcur : Edge_Iterator.current_idx_ it < LowNode.num_edges_ p).
  { rewrite <- (store_ok_num_edges _ _ _ Hok), <- Ht.
    destruct Hbd as [?|Hz]; [done|].
    rewrite Ht, (store_ok_num_edges _ _ _ Hok) in Hz. done. }
  (* the iterator holds no node *)
  destruct (Edge_Iterator.node_ it) as [a|] eqn:Hn.
  { destruct Hnode as (_ & Ha & Hia). by destruct (Habs a Ha). }
  (* the edge to copy exists *)
  assert (Hget : is_Some (LowNode.GetEdgeAt (Store.low σ) (Edge_Iterator.current_idx_ it))).
  { pose proof Hok as ((Hes & _ & _ & Hnone) & _).
    unfold LowNode.GetEdgeAt. rewrite (low_edges _ _ _ Hok).
    destruct (LowNode.edges_ p) as [es|] eqn:E; [|by destruct Hne; apply Hnone].
    cbn. rewrite decide_True by lia. apply lookup_lt_is_Some_2.
    specialize (Hes es E). lia. }
  destruct Hget as [e He].
  unfold Edge_Iterator.GetOrSpawnNode, Edge_Iterator.GetOrSpawnNode_call.
  rewrite Hn, He. cbn [mbind option_bind].
  set (nd := Node.make e (Edge_Iterator.current_idx_ it)).
  destruct (alloc_ok p σ l nd Hok) as [Hok1 Hf1].
  pose proof (behind_frame _ _ _ _ _ _ _ Hf1 Hnode) as Hbe1.
  assert (Hnl : n ∉ l).
  { intros Hin. pose proof (children_allocated _ _ _ _ Hok Hin). subst n. lia. }
  assert (Hpr1 : prepared (Store.alloc nd σ) l (Edge_Iterator.current_idx_ it) n None).
  { split; [done|]. exists nd. cbn. rewrite lookup_insert_eq.
    repeat split. by rewrite (store_ok_num_edges _ _ _ Hok). }
  assert (Habs1 : ∀ a, a ∈ l → index_of (Store.nodes (Store.alloc nd σ)) a
                                 ≠ Edge_Iterator.current_idx_ it).
  { intros a Ha. pose proof Hf1 as (_ & Hfl & _). destruct (Hfl a Ha) as [_ ->].
    by apply Habs. }
  destruct (spawn_absent p _ l it n fuel Hok1 H0 Hbe1 Hpr1 Habs1 Hf)
    as (σ' & l1 & l2 & Hrun & Hl & Hok' & Hi' & _ & Ha).
  fold n. rewrite Hrun. cbn [mbind option_bind Edge_Iterator.iter].
  exists σ', (Edge_Iterator.found it n), l1, l2. by rewrite Ha.
Qed.

(** * Further properties of the iterators *)

(** ** Nodes keep what they were made with *)

Lemma evolves_refl nd : evolves nd nd.
Proof. by destruct nd. Qed.

Lemma evolves_trans nd1 nd2 nd3 : evolves nd1 nd2 → evolves nd2 nd3 → evolves nd1 nd3.
Proof. unfold evolves. intros -> ->. by destruct nd1. Qed.

Lemma evolves_set q nd : evolves nd (Node.set_sibling q nd).
Proof. by destruct nd. Qed.

Lemma evolves_Index nd nd' : evolves nd nd' → Node.Index nd' = Node.Index nd.
Proof. unfold evolves. by intros ->. Qed.

Lemma delete_chain_lookup fuel : ∀ ns p a nd,
  Store.delete_chain fuel ns p !! a = Some nd → ns !! a = Some nd.
Proof.
  induction fuel as [|fuel IH]; intros ns [b|] a nd; cbn; try done.
  destruct (ns !! b) as [ndb|] eqn:Hb; [|done].
  intros H%IH. by apply lookup_delete_Some in H as [_ ?].
Qed.

Lemma set_nodes s q σ a nd' :
  Store.nodes (atomic_unique_ptr.set s q σ) !! a = Some nd' →
  ∃ nd, Store.nodes σ !! a = Some nd ∧ evolves nd nd'.
Proof.
  destruct s as [|x]; cbn.
  - intros H. exists nd'. split; [done|apply evolves_refl].
  - destruct (decide (a = x)) as [->|Hne].
    + rewrite lookup_alter_eq. destruct (Store.nodes σ !! x) as [nd|]; [|done].
      intros [= <-]. exists nd. split; [done|apply evolves_set].
    + rewrite lookup_alter_ne by done. intros H. exists nd'.
      split; [done|apply evolves_refl].
Qed.

Lemma set_edges s q σ :
  LowNode.edges_ (Store.low (atomic_unique_ptr.set s q σ))
  = LowNode.edges_ (Store.low σ).
Proof. by destruct s. Qed.

(** One access to shared memory creates no node and changes nothing of a node
    but [sibling_]. *)
Lemma thread_step_nodes σ th σ' th' :
  Edge_Iterator.thread_step σ th = Some (σ', th') →
  LowNode.edges_ (Store.low σ') = LowNode.edges_ (Store.low σ) ∧
  Store.allocated σ' = Store.allocated σ ∧
  ∀ a nd', Store.nodes σ' !! a = Some nd' →
    ∃ nd, Store.nodes σ !! a = Some nd ∧ evolves nd nd'.
Proof.
  assert (Hsame : ∀ a nd', Store.nodes σ !! a = Some nd' →
            ∃ nd, Store.nodes σ !! a = Some nd ∧ evolves nd nd').
  { intros a nd' H. exists nd'. split; [done|apply evolves_refl]. }
  unfold Edge_Iterator.thread_step.
  destruct (Edge_Iterator.pc th) as [|k|new_node node]; [done|..].
  - destruct (Edge_Iterator.Actualize_load σ (Edge_Iterator.iter th))
      as [[it'|it' node]|]; cbn [mbind option_bind]; [| |done].
    + by intros [= <- <-].
    + destruct k as [|new_node]; [by intros [= <- <-]|].
      destruct (Edge_Iterator.node_ it') as [b|]; intros [= <- <-].
      * repeat split. intros a nd' H. apply Hsame.
        by apply delete_chain_lookup in H.
      * split; [done|]. split; [done|].
        intros a nd'. apply (set_nodes (SiblingSlot new_node) node σ).
  - unfold atomic_unique_ptr.compare_exchange.
    destruct (atomic_unique_ptr.get σ _) as [cur|]; cbn [mbind option_bind]; [|done].
    destruct (decide (cur = node)); cbn [mbind option_bind]; intros [= <- <-].
    + split; [apply set_edges|]. split; [apply set_allocated|].
      intros a nd'. apply set_nodes.
    + split; [done|]. split; [done|].
      intros a nd'. apply (set_nodes (SiblingSlot new_node) None σ).
Qed.

(** A call that starts creates at most the node it prepares, a copy of the
    payload's edge at the iterator's index. *)
Lemma call_nodes c σ it σ' th' :
  System.call c σ it = Some (σ', th') →
  LowNode.edges_ (Store.low σ') = LowNode.edges_ (Store.low σ) ∧
  (Store.allocated σ ≤ Store.allocated σ')%nat ∧
  ∀ a nd', Store.nodes σ' !! a = Some nd' →
    Store.nodes σ !! a = Some nd' ∨
    (a = Store.allocated σ ∧
     ∃ e, LowNode.GetEdgeAt (Store.low σ) (Edge_Iterator.current_idx_ it) = Some e ∧
          nd' = Node.make e (Edge_Iterator.current_idx_ it)).
Proof.
  destruct c; cbn.
  - destruct (Edge_Iterator.incr_call it); cbn; [|done].
    intros [= <- <-]. repeat split; auto.
  - unfold Edge_Iterator.GetOrSpawnNode_call.
    destruct (Edge_Iterator.node_ it); [intros [= <- <-]; repeat split; auto|].
    destruct (LowNode.GetEdgeAt _ _) as [e|] eqn:He; cbn; [|done].
    intros [= <- <-]. cbn. split; [done|]. split; [lia|].
    intros a nd'. destruct (decide (a = Store.allocated σ)) as [->|Hne].
    + rewrite lookup_insert_eq. intros [= <-]. right. eauto.
    + rewrite lookup_insert_ne by done. auto.
Qed.

Lemma GetEdgeAt_edges l l' i :
  LowNode.edges_ l = LowNode.edges_ l' → LowNode.GetEdgeAt l i = LowNode.GetEdgeAt l' i.
Proof. unfold LowNode.GetEdgeAt. by intros ->. Qed.

Lemma as_spawned_evolves low low' nd nd' :
  LowNode.edges_ low' = LowNode.edges_ low →
  as_spawned low nd → evolves nd nd' → as_spawned low' nd'.
Proof.
  intros He (e & Hget & Hnd) Hev. exists e.
  rewrite (evolves_Index _ _ Hev). split.
  - by rewrite (GetEdgeAt_edges _ _ _ He).
  - by eapply evolves_trans.
Qed.

Lemma step_as_spawned sys sys' :
  System.step sys sys' →
  (∀ a nd, Store.nodes (System.store sys) !! a = Some nd →
           as_spawned (Store.low (System.store sys)) nd) →
  LowNode.edges_ (Store.low (System.store sys'))
    = LowNode.edges_ (Store.low (System.store sys)) ∧
  ∀ a nd, Store.nodes (System.store sys') !! a = Some nd →
          as_spawned (Store.low (System.store sys')) nd.
Proof.
  intros Hstep Hinv.
  destruct Hstep as [sys|sys i [it pc] c σ' th' Hi Hready Hcall|sys i th σ' th' Hi Hstep];
    cbn [System.store].
  - done.
  - cbn in Hcall. destruct (call_nodes _ _ _ _ _ Hcall) as (He & _ & Hn).
    split; [done|]. intros a nd Hnd.
    destruct (Hn _ _ Hnd) as [Hnd'|(-> & e & Hget & ->)].
    + eapply as_spawned_evolves; [done|by eapply Hinv|apply evolves_refl].
    + exists e. cbn. split; [by rewrite (GetEdgeAt_edges _ _ _ He)|done].
  - destruct (thread_step_nodes _ _ _ _ Hstep) as (He & _ & Hn).
    split; [done|]. intros a nd' Hnd'.
    destruct (Hn _ _ Hnd') as (nd & Hnd & Hev).
    eapply as_spawned_evolves; [done|by eapply Hinv|done].
Qed.

Lemma reachable_as_spawned p sys :
  System.reachable p sys →
  LowNode.edges_ (Store.low (System.store sys)) = LowNode.edges_ p ∧
  ∀ a nd, Store.nodes (System.store sys) !! a = Some nd →
          as_spawned (Store.low (System.store sys)) nd.
Proof.
  intros [_ Hrtc]. revert sys Hrtc. apply rtc_ind_r.
  - split; [done|]. intros a' nd'. cbn. by rewrite lookup_empty.
  - intros s1 s2 _ Hstep [He IH].
    destruct (step_as_spawned _ _ Hstep IH) as [He' ?]. split; [congruence|done].
Qed.

(** Every node in the store, linked or still being prepared, is the node
    [Node(edge, index)] made of the payload's edge at its index, but for its
    [sibling_]: it was never visited, it is not terminal, and its edge is the
    payload's. *)
Theorem nodes_as_spawned (p : LowNode.t) (sys : System.t) (a : addr) (nd : Node.t) :
  System.reachable p sys →
  Store.nodes (System.store sys) !! a = Some nd →
  ∃ e, LowNode.GetEdgeAt p (Node.Index nd) = Some e ∧
       nd = Node.set_sibling (Node.sibling_ nd) (Node.make e (Node.Index nd)) ∧
       Node.edge_ nd = e ∧ Node.GetN nd = 0 ∧ Node.GetNInFlight nd = 0 ∧
       Node.terminal_type_ nd = NonTerminal ∧
       Node.lower_bound_ nd = BLACK_WON ∧ Node.upper_bound_ nd = WHITE_WON.
Proof.
  intros Hr Hnd. destruct (reachable_as_spawned _ _ Hr) as [He Hinv].
  destruct (Hinv _ _ Hnd) as (e & Hget & Hev).
  exists e. split; [by rewrite <- (GetEdgeAt_edges _ _ _ He)|].
  split; [exact Hev|]. unfold evolves in Hev. by rewrite Hev.
Qed.

Lemma nodes_as_spawned_witness :
  System.reachable Sample.evaluated Sample.after_descent ∧
  Store.nodes (System.store Sample.after_descent) !! 1%nat
    = Some Scenario.node_of_edge_0 ∧
  ∃ e, LowNode.GetEdgeAt Sample.evaluated (Node.Index Scenario.node_of_edge_0)
         = Some e ∧
       Scenario.node_of_edge_0
         = Node.set_sibling (Node.sibling_ Scenario.node_of_edge_0)
             (Node.make e (Node.Index Scenario.node_of_edge_0)) ∧
       Node.edge_ Scenario.node_of_edge_0 = e ∧
       Node.GetN Scenario.node_of_edge_0 = 0 ∧
       Node.GetNInFlight Scenario.node_of_edge_0 = 0 ∧
       Node.terminal_type_ Scenario.node_of_edge_0 = NonTerminal ∧
       Node.lower_bound_ Scenario.node_of_edge_0 = BLACK_WON ∧
       Node.upper_bound_ Scenario.node_of_edge_0 = WHITE_WON.
Proof.
  assert (H : Store.nodes (System.store Sample.after_descent) !! 1%nat
              = Some Scenario.node_of_edge_0) by (by vm_compute).
  split; [exact after_descent_reachable|]. split; [exact H|].
  exact (nodes_as_spawned Sample.evaluated Sample.after_descent 1%nat
           Scenario.node_of_edge_0 after_descent_reachable H).
Defined.

(** ** Children stay linked *)

Lemma children_functional σ l l' : children σ l → children σ l' → l = l'.
Proof. apply lseg_functional. Qed.

Lemma step_nodes sys sys' :
  System.step sys sys' →
  (Store.allocated (System.store sys) ≤ Store.allocated (System.store sys'))%nat ∧
  ∀ a nd', Store.nodes (System.store sys') !! a = Some nd' →
    (∃ nd, Store.nodes (System.store sys) !! a = Some nd ∧ evolves nd nd') ∨
    a = Store.allocated (System.store sys).
Proof.
  intros Hstep.
  destruct Hstep as [sys|sys i th c σ' th' Hi Hready Hcall|sys i th σ' th' Hi Hstep];
    cbn [System.store].
  - split; [done|]. intros a nd' H. left. exists nd'. split; [done|apply evolves_refl].
  - destruct (call_nodes _ _ _ _ _ Hcall) as (_ & Hle & Hn). split; [done|].
    intros a nd' Hnd'. destruct (Hn _ _ Hnd') as [H|[-> _]]; [left|by right].
    exists nd'. split; [done|apply evolves_refl].
  - destruct (thread_step_nodes _ _ _ _ Hstep) as (_ & Ha & Hn).
    split; [by rewrite Ha|]. intros a nd' Hnd'. left. by apply Hn.
Qed.

(** A step keeps every child in the list. *)
Lemma step_frame p sys sys' l :
  sys_ok p sys l → System.step sys sys' →
  ∃ l', sys_ok p sys' l' ∧ ∀ a, a ∈ l → a ∈ l'.
Proof.
  intros Hsys Hstep. destruct (step_ok _ _ _ _ Hsys Hstep) as [l' Hsys'].
  exists l'. split; [done|].
  pose proof Hsys as (Hok & Hths & _). pose proof Hsys' as ((_ & _ & Hl' & _) & _).
  destruct Hstep as [sys|sys i th c σ' th' Hi Hready Hcall|sys i th σ' th' Hi Hstep];
    cbn [System.store] in Hl'.
  - destruct Hok as (_ & _ & Hl & _). by rewrite (children_functional _ _ _ Hl' Hl).
  - destruct (call_ok _ _ _ _ _ _ _ Hok (Hths _ _ Hi) Hready Hcall)
      as ((_ & _ & Hl & _) & _).
    by rewrite (children_functional _ _ _ Hl' Hl).
  - destruct (thread_step_ok _ _ _ _ _ _ Hok (Hths _ _ Hi) Hstep)
      as (l'' & x & (_ & _ & Hl & _) & _ & (_ & Hf & _) & _).
    rewrite (children_functional _ _ _ Hl' Hl). intros a Ha. by apply Hf.
Qed.

Lemma rtc_children_stay p sys sys' :
  rtc System.step sys sys' → ∀ l, sys_ok p sys l →
  ∃ l', sys_ok p sys' l' ∧
    ∀ a, a ∈ l → a ∈ l' ∧
      ∃ nd nd', Store.nodes (System.store sys) !! a = Some nd ∧
                Store.nodes (System.store sys') !! a = Some nd' ∧ evolves nd nd'.
Proof.
  induction 1 as [sys|sys s1 sys' Hstep _ IH]; intros l Hsys.
  - exists l. split; [done|]. intros a Ha. split; [done|].
    destruct Hsys as ((_ & _ & Hl & _) & _).
    destruct (lseg_lookup _ _ _ _ _ Hl Ha) as [nd Hnd].
    exists nd, nd. repeat split; try done. apply evolves_refl.
  - destruct (step_frame _ _ _ _ Hsys Hstep) as (l1 & Hsys1 & Hsub).
    destruct (IH _ Hsys1) as (l' & Hsys' & Hstay). exists l'. split; [done|].
    intros a Ha. destruct (Hstay a (Hsub a Ha)) as (Ha' & nd1 & nd' & Hnd1 & Hnd' & Hev).
    split; [done|]. destruct (step_nodes _ _ Hstep) as [_ Hn].
    destruct (Hn _ _ Hnd1) as [(nd & Hnd & Hev1)| ->].
    + exists nd, nd'. repeat split; try done. by eapply evolves_trans.
    + destruct Hsys as (Hok & _). pose proof (children_allocated _ _ _ _ Hok Ha). lia.
Qed.

(** Once a node is linked below a payload it stays linked, whatever the
    iterators do afterwards, and nothing of it changes but [sibling_]: its
    index, its edge and its counters are those it had. *)
Theorem children_stay_linked (p : LowNode.t) (sys sys' : System.t) (l : list addr) :
  System.reachable p sys → rtc System.step sys sys' →
  children (System.store sys) l →
  ∃ l', children (System.store sys') l' ∧
    ∀ a, a ∈ l → a ∈ l' ∧
      ∃ nd nd', Store.nodes (System.store sys) !! a = Some nd ∧
                Store.nodes (System.store sys') !! a = Some nd' ∧
                nd' = Node.set_sibling (Node.sibling_ nd') nd ∧
                Node.Index nd' = Node.Index nd.
Proof.
  intros Hr Hrtc Hl. destruct (reachable_ok _ _ Hr) as [l0 Hsys].
  pose proof Hsys as ((_ & _ & Hl0 & _) & _).
  rewrite (children_functional _ _ _ Hl Hl0).
  destruct (rtc_children_stay _ _ _ Hrtc _ Hsys) as (l' & ((_ & _ & Hl' & _) & _) & Hstay).
  exists l'. split; [done|]. intros a Ha.
  destruct (Hstay a Ha) as (Ha' & nd & nd' & Hnd & Hnd' & Hev).
  split; [done|]. exists nd, nd'. repeat split; try done.
  by apply evolves_Index.
Qed.

Lemma after_first_moves_on_steps :
  rtc System.step Sample.after_second_spawns Scenario.after_first_moves_on.
Proof. apply (schedule_rtc Scenario.first_moves_on). by vm_compute. Qed.

Lemma children_stay_linked_witness :
  System.reachable Sample.evaluated Sample.after_second_spawns ∧
  rtc System.step Sample.after_second_spawns Scenario.after_first_moves_on ∧
  children (System.store Sample.after_second_spawns) [0%nat] ∧
  ∃ l', children (System.store Scenario.after_first_moves_on) l' ∧
    ∀ a, a ∈ [0%nat] → a ∈ l' ∧
      ∃ nd nd', Store.nodes (System.store Sample.after_second_spawns) !! a = Some nd ∧
                Store.nodes (System.store Scenario.after_first_moves_on) !! a
                  = Some nd' ∧
                nd' = Node.set_sibling (Node.sibling_ nd') nd ∧
                Node.Index nd' = Node.Index nd.
Proof.
  split; [exact after_second_spawns_reachable|].
  split; [exact after_first_moves_on_steps|].
  split; [exact after_second_spawns_children|].
  exact (children_stay_linked Sample.evaluated Sample.after_second_spawns
           Scenario.after_first_moves_on [0%nat] after_second_spawns_reachable
           after_first_moves_on_steps after_second_spawns_children).
Defined.

(** ** No node is lost *)

Lemma thread_step_owned p σ l th σ' th' l' x :
  store_ok p σ l → thread_ok σ l th →
  Edge_Iterator.thread_step σ th = Some (σ', th') →
  children σ' l' → owns th = Some x →
  owns th' = Some x ∨ x ∈ l' ∨ Store.nodes σ' !! x = None.
Proof.
  intros Hok [Ht Hpc] Hstep Hl' Hown. unfold Edge_Iterator.thread_step in Hstep.
  unfold owns in *. destruct th as [it pc]. cbn in *.
  destruct pc as [|[|new_node]|new_node node]; simplify_eq.
  - destruct (Edge_Iterator.Actualize_load σ it) as [[it'|it' node]|];
      cbn [mbind option_bind] in Hstep; simplify_eq; [by left|].
    destruct (Edge_Iterator.node_ it') as [b|]; simplify_eq; [|left; reflexivity].
    right; right. destruct Hpc as (_ & _ & _ & _ & _ & nd & Hnd & _ & Hsib & _).
    rewrite (delete_node_single _ _ _ Hnd Hsib). cbn. apply lookup_delete_eq.
  - destruct Hpc as (_ & H0 & _ & Hbe & Hpr & Hnode).
    unfold atomic_unique_ptr.compare_exchange in Hstep.
    destruct (atomic_unique_ptr.get σ _) as [cur|] eqn:Hget;
      cbn [mbind option_bind] in Hstep; [|done].
    destruct (decide (cur = node)) as [->|Hne];
      cbn [mbind option_bind] in Hstep; simplify_eq; [|by left].
    right; left.
    destruct (exchange_ok _ _ _ _ _ _ _ Hok H0 Hbe Hpr Hnode Hget)
      as (l1 & l2 & _ & (_ & _ & Hl & _) & _).
    rewrite (children_functional _ _ _ Hl' Hl). apply elem_of_app. right. by left.
Qed.

Lemma call_owned c σ it σ' th' a nd :
  System.call c σ it = Some (σ', th') →
  Store.nodes σ' !! a = Some nd →
  is_Some (Store.nodes σ !! a) ∨ owns th' = Some a.
Proof.
  destruct c; cbn.
  - destruct (Edge_Iterator.incr_call it); cbn; [|done].
    intros [= <- <-]. eauto.
  - unfold Edge_Iterator.GetOrSpawnNode_call.
    destruct (Edge_Iterator.node_ it); [intros [= <- <-]; eauto|].
    destruct (LowNode.GetEdgeAt _ _) as [e|]; cbn; [|done].
    intros [= <- <-]. cbn. destruct (decide (a = Store.allocated σ)) as [->|Hne].
    + by right.
    + rewrite lookup_insert_ne by done. eauto.
Qed.

Lemma step_accounted p sys sys' l l' :
  sys_ok p sys l → accounted sys l → System.step sys sys' →
  sys_ok p sys' l' → accounted sys' l'.
Proof.
  intros Hsys Hacc Hstep Hsys'. pose proof Hsys as (Hok & Hths & _).
  pose proof Hsys' as ((_ & _ & Hl' & _) & _). unfold accounted in *.
  destruct (step_frame _ _ _ _ Hsys Hstep) as (l'' & ((_ & _ & Hl'' & _) & _) & Hsub).
  rewrite <- (children_functional _ _ _ Hl' Hl'') in Hsub. clear l'' Hl''.
  destruct Hstep as [sys|sys i th c σ' th' Hi Hready Hcall|sys i th σ' th' Hi Hstep];
    cbn [System.store System.threads] in *; intros a Ha.
  - destruct (Hacc a Ha) as [Hin|(j & thj & Hj & Hown)]; [left; auto|].
    right. exists j, thj. split; [|done]. by apply lookup_app_l_Some.
  - destruct Ha as [nd Hnd].
    destruct (call_owned _ _ _ _ _ _ _ Hcall Hnd) as [Hold|Hnew].
    + destruct (Hacc a Hold) as [Hin|(j & thj & Hj & Hown)]; [left; auto|].
      right. exists j, thj. split; [|done].
      rewrite list_lookup_insert_ne; [done|]. intros ->.
      unfold owns in Hown. simplify_eq. by rewrite Hready in Hown.
    + right. exists i, th'. split; [|done].
      apply list_lookup_insert_eq. by eapply lookup_lt_Some.
  - destruct Ha as [nd' Hnd'].
    destruct (thread_step_nodes _ _ _ _ Hstep) as (_ & _ & Hn).
    destruct (Hn _ _ Hnd') as (nd & Hnd & _).
    destruct (Hacc a (mk_is_Some _ _ Hnd)) as [Hin|(j & thj & Hj & Hown)]; [left; auto|].
    destruct (decide (j = i)) as [->|Hne].
    + simplify_eq.
      destruct (thread_step_owned _ _ _ _ _ _ _ _ Hok (Hths _ _ Hi) Hstep Hl' Hown)
        as [Hown'|[Hin|Hnone]]; [|by left|congruence].
      right. exists i, th'. split; [|done].
      apply list_lookup_insert_eq. by eapply lookup_lt_Some.
    + right. exists j, thj. split; [|done]. by rewrite list_lookup_insert_ne.
Qed.

Lemma reachable_accounted p sys :
  System.reachable p sys → ∃ l, sys_ok p sys l ∧ accounted sys l.
Proof.
  intros [Hp Hrtc]. revert sys Hrtc. apply rtc_ind_r.
  - exists []. split; [by apply initial_ok|].
    intros a [nd Hnd]. cbn in Hnd. by rewrite lookup_empty in Hnd.
  - intros s1 s2 _ Hstep (l & Hsys & Hacc).
    destruct (step_ok _ _ _ _ Hsys Hstep) as [l' Hsys'].
    exists l'. split; [done|]. exact (step_accounted _ _ _ _ _ Hsys Hacc Hstep Hsys').
Qed.

(** [GetOrSpawnNode] loses no node and frees none that is linked: every node
    in the store is either a child of the payload or the one node that
    exactly one call in progress has prepared and not yet linked, never both;
    once no call is in progress the store holds the children and nothing
    else. *)
Theorem no_node_is_lost (p : LowNode.t) (sys : System.t) (l : list addr) :
  System.reachable p sys → children (System.store sys) l →
  (∀ a, is_Some (Store.nodes (System.store sys) !! a) →
     a ∈ l ∨ ∃ i th, System.threads sys !! i = Some th ∧ owns th = Some a) ∧
  (∀ a i th, System.threads sys !! i = Some th → owns th = Some a →
     (a ∉ l) ∧ is_Some (Store.nodes (System.store sys) !! a) ∧
     ∀ j thj, System.threads sys !! j = Some thj → owns thj = Some a → j = i) ∧
  (Forall (λ th, Edge_Iterator.pc th = Edge_Iterator.Ready) (System.threads sys) →
   ∀ a, is_Some (Store.nodes (System.store sys) !! a) ↔ a ∈ l).
Proof.
  intros Hr Hl. destruct (reachable_accounted _ _ Hr) as (l0 & Hsys & Hacc).
  pose proof Hsys as ((_ & _ & Hl0 & _) & Hths & Huniq).
  rewrite (children_functional _ _ _ Hl Hl0). split; [done|]. split.
  - intros a i th Hi Hown. pose proof (Hths _ _ Hi) as Hth.
    split; [|split; [by eapply owns_in_store|]].
    + destruct Hth as [_ Hpc]. unfold owns in Hown.
      destruct (Edge_Iterator.pc th) as [|[|x]|x node]; simplify_eq.
      * by destruct Hpc as (_ & _ & _ & _ & Hnew & _).
      * by destruct Hpc as (_ & _ & _ & _ & [Hnew _] & _).
    + intros j thj Hj Hownj. by eapply Huniq.
  - intros Hready a. split.
    + intros Ha. destruct (Hacc a Ha) as [Hin|(i & th & Hi & Hown)]; [done|].
      rewrite Forall_lookup in Hready. specialize (Hready _ _ Hi).
      unfold owns in Hown. by rewrite Hready in Hown.
    + intros Ha. by eapply lseg_lookup.
Qed.

Lemma no_node_is_lost_witness :
  System.reachable Sample.evaluated Sample.after_winner ∧
  children (System.store Sample.after_winner) [1%nat] ∧
  (∀ a, is_Some (Store.nodes (System.store Sample.after_winner) !! a) →
     a ∈ [1%nat] ∨
     ∃ i th, System.threads Sample.after_winner !! i = Some th ∧ owns th = Some a) ∧
  (∀ a i th, System.threads Sample.after_winner !! i = Some th → owns th = Some a →
     (a ∉ [1%nat]) ∧ is_Some (Store.nodes (System.store Sample.after_winner) !! a) ∧
     ∀ j thj, System.threads Sample.after_winner !! j = Some thj →
              owns thj = Some a → j = i) ∧
  (Forall (λ th, Edge_Iterator.pc th = Edge_Iterator.Ready)
     (System.threads Sample.after_winner) →
   ∀ a, is_Some (Store.nodes (System.store Sample.after_winner) !! a) ↔ a ∈ [1%nat]).
Proof.
  split; [exact after_winner_reachable|]. split; [exact after_winner_children|].
  exact (no_node_is_lost Sample.evaluated Sample.after_winner [1%nat]
           after_winner_reachable after_winner_children).
Defined.

(** ** Iterating alone *)

Lemma node_at_elem ns l j a :
  node_at ns l j = Some a → a ∈ l ∧ index_of ns a = j.
Proof.
  unfold node_at. intros H%head_Some_elem_of.
  apply list_elem_of_filter in H as [? ?]. done.
Qed.

Lemma node_at_None ns l j :
  node_at ns l j = None ↔ ∀ a, a ∈ l → index_of ns a ≠ j.
Proof.
  unfold node_at. rewrite head_None. split.
  - intros H a Ha Hj. assert (Hin : a ∈ filter (λ a, index_of ns a = j) l).
    { by apply list_elem_of_filter. }
    rewrite H in Hin. by apply elem_of_nil in Hin.
  - intros H. induction l as [|a l IH]; [done|].
    rewrite filter_cons_False by (apply H; by left).
    apply IH. intros b Hb. apply H. by right.
Qed.

Lemma node_at_Some p σ l b :
  store_ok p σ l → b ∈ l →
  node_at (Store.nodes σ) l (index_of (Store.nodes σ) b) = Some b.
Proof.
  intros Hok Hb.
  destruct (node_at (Store.nodes σ) l (index_of (Store.nodes σ) b)) as [a|] eqn:Ha.
  - apply node_at_elem in Ha as [Ha Hi]. f_equal. by eapply unique_index.
  - rewrite node_at_None in Ha. by destruct (Ha b Hb).
Qed.

(** [Actualize] walks over the nodes with a smaller index; without a node at
    its index it stops in front of the first node with a larger one, or at
    the end of the list, and leaves [node_] null. *)
Lemma seek_absent_return σ post : ∀ pre it fuel,
  atomic_unique_ptr.get σ (Edge_Iterator.node_ptr_ it)
    = Some (head (pre ++ post)) →
  lseg (Store.nodes σ) (head (pre ++ post)) (pre ++ post) None →
  Forall (λ a, index_of (Store.nodes σ) a < Edge_Iterator.current_idx_ it) pre →
  (∀ e, head post = Some e →
        Edge_Iterator.current_idx_ it < index_of (Store.nodes σ) e) →
  Edge_Iterator.run (S (length pre) + fuel) σ
    {| Edge_Iterator.iter := it;
       Edge_Iterator.pc := Edge_Iterator.InActualize Edge_Iterator.KReturn |}
  = Some (σ,
      {| Edge_Iterator.iter :=
           {| Edge_Iterator.edge_ := Edge_Iterator.edge_ it;
              Edge_Iterator.node_ := None;
              Edge_Iterator.node_ptr_ := slot_after (Edge_Iterator.node_ptr_ it) pre;
              Edge_Iterator.current_idx_ := Edge_Iterator.current_idx_ it;
              Edge_Iterator.total_count_ := Edge_Iterator.total_count_ it |};
         Edge_Iterator.pc := Edge_Iterator.Ready |}).
Proof.
  induction pre as [|a pre IH]; intros it fuel Hget Hl Hlt Hpost;
    cbn [length Nat.add]; rewrite run_busy by (by intros [=]);
    cbn [Edge_Iterator.pc Edge_Iterator.iter Edge_Iterator.thread_step];
    unfold Edge_Iterator.Actualize_load; rewrite Hget; cbn [app mbind option_bind].
  - destruct post as [|e post]; cbn [head mbind option_bind].
    { by rewrite run_ready. }
    cbn in Hl. destruct Hl as (_ & nd & He & _). rewrite He.
    cbn [mbind option_bind]. specialize (Hpost e eq_refl).
    rewrite (index_of_lookup _ _ _ He) in Hpost.
    destruct (Z.ltb_spec (Node.Index nd) (Edge_Iterator.current_idx_ it)); [lia|].
    destruct (Z.eqb_spec (Node.Index nd) (Edge_Iterator.current_idx_ it)); [lia|].
    cbn [mbind option_bind]. by rewrite run_ready.
  - cbn in Hl. destruct Hl as (_ & nd & Ha & Hl). cbn [head]. rewrite Ha.
    cbn [mbind option_bind]. apply Forall_cons_1 in Hlt as [Hlta Hlt].
    rewrite (index_of_lookup _ _ _ Ha) in Hlta.
    apply Z.ltb_lt in Hlta. rewrite Hlta. cbn [mbind option_bind].
    pose proof (lseg_head _ _ _ Hl) as Hh.
    change (S (length pre + fuel)) with (S (length pre) + fuel)%nat.
    rewrite IH; cbn [Edge_Iterator.node_ptr_ Edge_Iterator.current_idx_
                     Edge_Iterator.edge_ Edge_Iterator.total_count_]; try done.
    + unfold slot_after. rewrite last_cons. by destruct (last pre).
    + cbn. rewrite Ha. cbn. by rewrite Hh.
    + by rewrite <- Hh.
Qed.

(** [Actualize] run alone, from a slot that is behind the iterator's index:
    [node_] becomes the child at that index, if there is one. *)
Lemma seek_return p σ l it fuel :
  store_ok p σ l → 0 ≤ Edge_Iterator.current_idx_ it →
  behind (Store.nodes σ) l (Edge_Iterator.current_idx_ it)
    (Edge_Iterator.node_ptr_ it) →
  (length l < fuel)%nat →
  ∃ it',
    Edge_Iterator.run fuel σ
      {| Edge_Iterator.iter := it;
         Edge_Iterator.pc := Edge_Iterator.InActualize Edge_Iterator.KReturn |}
    = Some (σ, {| Edge_Iterator.iter := it'; Edge_Iterator.pc := Edge_Iterator.Ready |}) ∧
    Edge_Iterator.edge_ it' = Edge_Iterator.edge_ it ∧
    Edge_Iterator.current_idx_ it' = Edge_Iterator.current_idx_ it ∧
    Edge_Iterator.total_count_ it' = Edge_Iterator.total_count_ it ∧
    Edge_Iterator.node_ it'
      = node_at (Store.nodes σ) l (Edge_Iterator.current_idx_ it) ∧
    match Edge_Iterator.node_ it' with
    | Some a => Edge_Iterator.node_ptr_ it' = SiblingSlot a
    | None => behind (Store.nodes σ) l (Edge_Iterator.current_idx_ it)
                (Edge_Iterator.node_ptr_ it')
    end.
Proof.
  intros Hok H0 Hbe Hf.
  destruct (node_at (Store.nodes σ) l (Edge_Iterator.current_idx_ it))
    as [b|] eqn:Hat.
  - apply node_at_elem in Hat as [Hb Hi].
    exists (Edge_Iterator.found it b). split; [|done].
    rewrite (seek_existing p σ l it Edge_Iterator.KReturn b fuel); try done. lia.
  - rewrite node_at_None in Hat.
    destruct (slot_split _ _ _ _ _ Hok H0 Hbe)
      as (l1 & l2 & -> & Hget & Hl2 & _ & Hbelow & _).
    destruct (split_below (Store.nodes σ) (Edge_Iterator.current_idx_ it) l2)
      as (pre & post & -> & Hpre & Hpost).
    assert (Hpost' : ∀ e, head post = Some e →
              Edge_Iterator.current_idx_ it < index_of (Store.nodes σ) e).
    { intros e He. specialize (Hpost e He).
      assert (Hin : e ∈ l1 ++ pre ++ post).
      { apply head_Some_elem_of in He. rewrite !elem_of_app. auto. }
      specialize (Hat e Hin). lia. }
    replace fuel with (S (length pre) + (fuel - S (length pre)))%nat
      by (rewrite !length_app in Hf; lia).
    rewrite (seek_absent_return _ post pre it _ Hget Hl2 Hpre Hpost').
    eexists. split; [reflexivity|]. cbn. do 4 (split; [done|]).
    by apply behind_slot_after.
Qed.

Lemma iterate_S fuel σ it e :
  Edge_Iterator.edge_ it = Some e →
  Edge_Iterator.iterate (S fuel) σ it
  = it' ← Edge_Iterator.incr (S fuel) σ it;
    rest ← Edge_Iterator.iterate fuel σ it';
    Some ((e, Edge_Iterator.node_ it) :: rest).
Proof. intros H. cbn [Edge_Iterator.iterate]. by rewrite H. Qed.

Lemma behind_weaken ns l cur cur' s :
  cur ≤ cur' → behind ns l cur s → behind ns l cur' s.
Proof. intros Hle. destruct s as [|a]; [done|]. cbn. intros [? ?]. split; [done|lia]. Qed.

(** From an iterator that stands at edge [j] with the child at index [j], the
    loop sees the remaining edges in order, each with its child. *)
Lemma iterate_enumerates p σ l :
  store_ok p σ l → ∀ n it j fuel,
  Edge_Iterator.edge_ it = Some j →
  Edge_Iterator.current_idx_ it = j →
  Edge_Iterator.total_count_ it = LowNode.num_edges_ p →
  0 ≤ j → j + Z.of_nat (S n) = LowNode.num_edges_ p →
  Edge_Iterator.node_ it = node_at (Store.nodes σ) l j →
  match Edge_Iterator.node_ it with
  | Some a => Edge_Iterator.node_ptr_ it = SiblingSlot a
  | None => behind (Store.nodes σ) l j (Edge_Iterator.node_ptr_ it)
  end →
  (S n + length l < fuel)%nat →
  Edge_Iterator.iterate fuel σ it
  = Some ((λ i, (i, node_at (Store.nodes σ) l i)) <$> seqZ j (Z.of_nat (S n))).
Proof.
  intros Hok. pose proof Hok as ((_ & _ & Hrange & _) & _).
  induction n as [|n IH]; intros it j fuel He Hj Ht H0 Hn Hnode Hptr Hf;
    (destruct fuel as [|fuel]; [lia|]);
    rewrite (iterate_S _ _ _ _ He); unfold Edge_Iterator.incr, Edge_Iterator.incr_call;
    rewrite He, Hj, Ht; cbn [mbind option_bind];
    (rewrite (Z.mod_small (j + 1)) by (unfold uint16_max, uint8_max in *; lia)).
  - rewrite (proj2 (Z.eqb_eq _ _)) by lia. cbn [mbind option_bind].
    rewrite run_ready by done. cbn [mbind option_bind].
    destruct fuel; cbn; by rewrite Hnode.
  - rewrite (proj2 (Z.eqb_neq _ _)) by lia. cbn [mbind option_bind].
    set (it1 := Edge_Iterator.mk (Some (j + 1)) (Edge_Iterator.node_ it)
                  (Edge_Iterator.node_ptr_ it) (j + 1) (LowNode.num_edges_ p)).
    assert (Hbe : behind (Store.nodes σ) l (Edge_Iterator.current_idx_ it1)
                    (Edge_Iterator.node_ptr_ it1)).
    { cbn. destruct (Edge_Iterator.node_ it) as [a|].
      - rewrite Hptr. symmetry in Hnode. apply node_at_elem in Hnode as [Ha Hi].
        split; [done|lia].
      - eapply behind_weaken; [|done]. lia. }
    destruct (seek_return p σ l it1 (S fuel) Hok ltac:(cbn; lia) Hbe ltac:(lia))
      as (it' & Hrun & He' & Hj' & Ht' & Hnode' & Hptr').
    rewrite Hrun. cbn [mbind option_bind Edge_Iterator.iter].
    cbn in He', Hj', Ht', Hnode', Hptr'.
    rewrite (IH it' (j + 1) fuel); try done; try lia.
    cbn [mbind option_bind]. rewrite (seqZ_cons j) by lia.
    rewrite fmap_cons, Hnode.
    replace (Z.pred (Z.of_nat (S (S n)))) with (Z.of_nat (S n)) by lia.
    by replace (Z.succ j) with (j + 1) by lia.
Qed.

(** Iterating over the edges of a payload that no other thread touches in
    the meantime sees every edge once, in the order of the array, and with
    each edge its child if the edge has one.  A payload that was never
    evaluated has no edge to see. *)
Theorem Edges_enumerates (p : LowNode.t) (sys : System.t) (l : list addr)
    (fuel : nat) :
  System.reachable p sys → children (System.store sys) l →
  LowNode.GetEdges p = None ∨ 0 < LowNode.GetNumEdges p →
  (Z.to_nat (LowNode.GetNumEdges p) + length l < fuel)%nat →
  Edge_Iterator.Edges fuel (System.store sys)
  = Some (edges_with_nodes (Store.nodes (System.store sys)) l (LowNode.GetNumEdges p)).
Proof.
  intros Hr Hl Hcase Hf. destruct (reachable_ok _ _ Hr) as (l0 & Hok & _).
  pose proof Hok as ((_ & _ & _ & Hnone) & _ & Hl0 & _).
  rewrite (children_functional _ _ _ Hl Hl0) in *. clear l Hl.
  unfold LowNode.GetEdges, LowNode.GetNumEdges, edges_with_nodes in *.
  destruct (LowNode.edges_ p) as [es|] eqn:Hes.
  - destruct Hcase as [[=]|Hpos].
    unfold Edge_Iterator.Edges, Edge_Iterator.begin, Edge_Iterator.begin_call.
    unfold LowNode.GetEdges, LowNode.GetNumEdges.
    rewrite (low_edges _ _ _ Hok), Hes, (store_ok_num_edges _ _ _ Hok).
    cbn [fmap option_fmap option_map Edge_Iterator.edge_].
    set (it0 := Edge_Iterator.mk (Some 0) None ChildSlot 0 (LowNode.num_edges_ p)).
    destruct (seek_return p _ l0 it0 fuel Hok ltac:(done) ltac:(done) ltac:(lia))
      as (it' & Hrun & He' & Hj' & Ht' & Hnode' & Hptr').
    rewrite Hrun. cbn [mbind option_bind Edge_Iterator.iter].
    cbn in He', Hj', Ht', Hnode', Hptr'.
    rewrite (iterate_enumerates p _ l0 Hok (Z.to_nat (LowNode.num_edges_ p) - 1)
               it' 0 fuel); try done; try lia.
    by replace (Z.of_nat (S (Z.to_nat (LowNode.num_edges_ p) - 1)))
      with (LowNode.num_edges_ p) by lia.
  - rewrite (Hnone eq_refl). cbn.
    apply (Edges_unevaluated (System.store sys) fuel).
    unfold LowNode.GetEdges. by rewrite (low_edges _ _ _ Hok).
Qed.

Lemma after_descent_children :
  children (System.store Sample.after_descent) [1%nat; 0%nat; 2%nat].
Proof.
  unfold children. cbn.
  repeat (split; [by vm_compute|]; eexists; split; [by vm_compute|]).
  by vm_compute.
Qed.

Lemma Edges_enumerates_witness :
  System.reachable Sample.evaluated Sample.after_descent ∧
  children (System.store Sample.after_descent) [1%nat; 0%nat; 2%nat] ∧
  (LowNode.GetEdges Sample.evaluated = None ∨ 0 < LowNode.GetNumEdges Sample.evaluated) ∧
  (Z.to_nat (LowNode.GetNumEdges Sample.evaluated) + length [1%nat; 0%nat; 2%nat]
   < 7)%nat ∧
  Edge_Iterator.Edges 7 (System.store Sample.after_descent)
  = Some (edges_with_nodes (Store.nodes (System.store Sample.after_descent))
            [1%nat; 0%nat; 2%nat] (LowNode.GetNumEdges Sample.evaluated)).
Proof.
  assert (H1 : LowNode.GetEdges Sample.evaluated = None
               ∨ 0 < LowNode.GetNumEdges Sample.evaluated) by (right; reflexivity).
  assert (H2 : (Z.to_nat (LowNode.GetNumEdges Sample.evaluated)
                + length [1%nat; 0%nat; 2%nat] < 7)%nat) by (cbn; lia).
  split; [exact after_descent_reachable|]. split; [exact after_descent_children|].
  split; [exact H1|]. split; [exact H2|].
  exact (Edges_enumerates Sample.evaluated Sample.after_descent [1%nat; 0%nat; 2%nat] 7
           after_descent_reachable after_descent_children H1 H2).
Defined.

(** In [Sample.after_descent] the loop sees the three edges with the nodes
    that were made for them, in the order of the edges. *)
Example Edges_after_descent :
  Edge_Iterator.Edges 7 (System.store Sample.after_descent)
  = Some [(0, Some 1%nat); (1, Some 0%nat); (2, Some 2%nat)].
Proof. by vm_compute. Qed.

(** ** A call run alone *)

(** A call of [GetOrSpawnNode] that has prepared its node and runs alone ends
    with a child at its index: the one that was there, or its own node. *)
Lemma spawn_run p σ l it new_node fuel :
  store_ok p σ l → 0 ≤ Edge_Iterator.current_idx_ it →
  behind (Store.nodes σ) l (Edge_Iterator.current_idx_ it)
    (Edge_Iterator.node_ptr_ it) →
  prepared σ l (Edge_Iterator.current_idx_ it) new_node None →
  (length l + 3 ≤ fuel)%nat →
  ∃ σ' a l',
    Edge_Iterator.run fuel σ
      {| Edge_Iterator.iter := it;
         Edge_Iterator.pc := Edge_Iterator.InActualize (Edge_Iterator.KSpawn new_node) |}
    = Some (σ', {| Edge_Iterator.iter := Edge_Iterator.found it a;
                   Edge_Iterator.pc := Edge_Iterator.Ready |}) ∧
    store_ok p σ' l' ∧ a ∈ l' ∧
    index_of (Store.nodes σ') a = Edge_Iterator.current_idx_ it ∧
    (∀ b, b ∈ l → b ∈ l') ∧ (∀ b, b ∈ l' → b ∈ l ∨ b = a).
Proof.
  intros Hok H0 Hbe Hpr Hf.
  destruct (node_at (Store.nodes σ) l (Edge_Iterator.current_idx_ it))
    as [b|] eqn:Hat.
  - apply node_at_elem in Hat as [Hb Hi].
    pose proof Hpr as (Hnew & nd & Hnd & _ & Hsib & _).
    destruct (delete_node_ok p σ l new_node nd Hok Hnew Hnd Hsib) as [Hok' Hfr].
    exists (Store.delete_node new_node σ), b, l.
    split; [|split; [done|split; [done|split; [|by auto]]]].
    + by rewrite (seek_existing p σ l it _ b fuel) by (done || lia).
    + destruct Hfr as (_ & Hfl & _). destruct (Hfl b Hb) as [_ ->]. done.
  - rewrite node_at_None in Hat.
    destruct (spawn_absent p σ l it new_node fuel Hok H0 Hbe Hpr Hat Hf)
      as (σ' & l1 & l2 & Hrun & -> & Hok' & Hi & _).
    exists σ', new_node, (l1 ++ new_node :: l2). split; [done|]. split; [done|].
    split; [apply elem_of_app; right; by left|]. split; [done|]. split.
    + intros b. rewrite !elem_of_app, elem_of_cons. tauto.
    + intros b. rewrite !elem_of_app, elem_of_cons. tauto.
Qed.

Lemma GetOrSpawnNode_node fuel σ it σ' it' r :
  Edge_Iterator.GetOrSpawnNode fuel σ it = Some (σ', it', r) →
  Edge_Iterator.node_ it' = r.
Proof.
  unfold Edge_Iterator.GetOrSpawnNode. intros H.
  destruct (Edge_Iterator.GetOrSpawnNode_call σ it) as [[σ1 th]|];
    cbn [mbind option_bind] in H; [|done].
  destruct (Edge_Iterator.run fuel σ1 th) as [[σ2 th']|];
    cbn [mbind option_bind] in H; [|done].
  by simplify_eq.
Qed.

Lemma GetOrSpawnNode_again fuel σ it a :
  Edge_Iterator.node_ it = Some a →
  Edge_Iterator.GetOrSpawnNode fuel σ it = Some (σ, it, Some a).
Proof.
  intros H. unfold Edge_Iterator.GetOrSpawnNode, Edge_Iterator.GetOrSpawnNode_call.
  rewrite H. cbn [mbind option_bind]. rewrite run_ready by done.
  cbn [mbind option_bind Edge_Iterator.iter]. by rewrite H.
Qed.

(** Whatever state the other iterators have left the list in, a call of
    [GetOrSpawnNode] that runs to its end undisturbed returns a child of the
    payload whose index is the iterator's; the iterator holds that node
    afterwards, so that a second call returns it again and changes nothing.
    The list has gained at most that node. *)
Theorem GetOrSpawnNode_returns_child (p : LowNode.t) (sys : System.t)
    (l : list addr) (i : nat) (th : Edge_Iterator.Thread) (fuel : nat) :
  System.reachable p sys → children (System.store sys) l →
  System.threads sys !! i = Some th →
  Edge_Iterator.pc th = Edge_Iterator.Ready →
  Edge_Iterator.edge_ (Edge_Iterator.iter th) ≠ None →
  0 < LowNode.GetNumEdges p →
  (length l + 3 ≤ fuel)%nat →
  ∃ σ' it' a l',
    Edge_Iterator.GetOrSpawnNode fuel (System.store sys) (Edge_Iterator.iter th)
      = Some (σ', it', Some a) ∧
    Edge_Iterator.node_ it' = Some a ∧
    children σ' l' ∧ a ∈ l' ∧
    index_of (Store.nodes σ') a = Edge_Iterator.current_idx_ (Edge_Iterator.iter th) ∧
    (∀ b, b ∈ l → b ∈ l') ∧ (∀ b, b ∈ l' → b ∈ l ∨ b = a) ∧
    Edge_Iterator.GetOrSpawnNode fuel σ' it' = Some (σ', it', Some a).
Proof.
  intros Hr Hl Hi Hready Hedge Hpos Hf.
  destruct (reachable_ok _ _ Hr) as [l0 Hsys].
  pose proof Hsys as ((_ & _ & Hl0 & _) & _).
  rewrite (children_functional _ _ _ Hl Hl0) in *. clear l Hl.
  destruct (node_at (Store.nodes (System.store sys)) l0
              (Edge_Iterator.current_idx_ (Edge_Iterator.iter th))) as [b|] eqn:Hat.
  - apply node_at_elem in Hat as [Hb Hib].
    destruct (spawn_existing_call p sys l0 i th b fuel Hsys Hi Hready Hb Hib
                ltac:(lia)) as (σ' & it' & Hrun & Hnode & Hlow & Hnodes & _).
    exists σ', it', b, l0. split; [done|]. split; [done|].
    split; [unfold children; by rewrite Hlow, Hnodes|]. split; [done|].
    split; [by rewrite Hnodes|]. split; [done|]. split; [by auto|].
    by apply GetOrSpawnNode_again.
  - rewrite node_at_None in Hat.
    destruct (GetOrSpawnNode_inserts p sys l0 i th fuel Hsys Hi Hready Hedge
                ltac:(unfold LowNode.GetNumEdges in Hpos; lia) Hat Hf)
      as (σ' & it' & l1 & l2 & Hrun & -> & (_ & _ & Hl' & _) & Hidx & _).
    pose proof (GetOrSpawnNode_node _ _ _ _ _ _ Hrun) as Hnode.
    exists σ', it', (Store.allocated (System.store sys)),
      (l1 ++ Store.allocated (System.store sys) :: l2).
    split; [done|]. split; [done|]. split; [done|].
    split; [apply elem_of_app; right; by left|]. split; [done|]. split; [|split].
    + intros b. rewrite !elem_of_app, elem_of_cons. tauto.
    + intros b. rewrite !elem_of_app, elem_of_cons. tauto.
    + by apply GetOrSpawnNode_again.
Qed.

Lemma first_iterator_thread :
  System.threads Sample.after_second_spawns !! 0%nat = Some Sample.first_iterator.
Proof. by vm_compute. Qed.

Lemma GetOrSpawnNode_returns_child_witness :
  System.reachable Sample.evaluated Sample.after_second_spawns ∧
  children (System.store Sample.after_second_spawns) [0%nat] ∧
  System.threads Sample.after_second_spawns !! 0%nat = Some Sample.first_iterator ∧
  Edge_Iterator.pc Sample.first_iterator = Edge_Iterator.Ready ∧
  is_Some (Edge_Iterator.edge_ (Edge_Iterator.iter Sample.first_iterator)) ∧
  0 < LowNode.GetNumEdges Sample.evaluated ∧
  (length [0%nat] + 3 ≤ 4)%nat ∧
  ∃ σ' it' a l',
    Edge_Iterator.GetOrSpawnNode 4 (System.store Sample.after_second_spawns)
      (Edge_Iterator.iter Sample.first_iterator) = Some (σ', it', Some a) ∧
    Edge_Iterator.node_ it' = Some a ∧
    children σ' l' ∧ a ∈ l' ∧
    index_of (Store.nodes σ') a
      = Edge_Iterator.current_idx_ (Edge_Iterator.iter Sample.first_iterator) ∧
    (∀ b, b ∈ [0%nat] → b ∈ l') ∧ (∀ b, b ∈ l' → b ∈ [0%nat] ∨ b = a) ∧
    Edge_Iterator.GetOrSpawnNode 4 σ' it' = Some (σ', it', Some a).
Proof.
  assert (H5 : (length [0%nat] + 3 ≤ 4)%nat) by (cbn; lia).
  split; [exact after_second_spawns_reachable|].
  split; [exact after_second_spawns_children|].
  split; [exact first_iterator_thread|]. split; [reflexivity|].
  split; [by eexists|]. split; [reflexivity|]. split; [exact H5|].
  exact (GetOrSpawnNode_returns_child Sample.evaluated Sample.after_second_spawns
           [0%nat] 0 Sample.first_iterator 4 after_second_spawns_reachable
           after_second_spawns_children first_iterator_thread eq_refl
           ltac:(discriminate) eq_refl H5).
Defined.


Lemma one_iterator_reachable :
  System.reachable Sample.evaluated Scenario.one_iterator.
Proof.
  split; [exact evaluated_ok|].
  apply (schedule_rtc [System.TBegin; System.TStep 0]). by vm_compute.
Qed.

Lemma one_iterator_children : children (System.store Scenario.one_iterator) [].
Proof. by vm_compute. Qed.

Lemma one_iterator_thread :
  System.threads Scenario.one_iterator !! 0%nat = Some Sample.first_iterator.
Proof. by vm_compute. Qed.


Lemma run_allocated fuel : ∀ σ th σ' th',
  Edge_Iterator.run fuel σ th = Some (σ', th') →
  Store.allocated σ' = Store.allocated σ.
Proof.
  induction fuel as [|fuel IH]; intros σ th σ' th'; cbn [Edge_Iterator.run].
  - destruct (Edge_Iterator.pc th); [|done..]. by intros [= <- <-].
  - destruct (Edge_Iterator.pc th) eqn:Hpc; [by intros [= <- <-]|..];
      (destruct (Edge_Iterator.thread_step σ th) as [[σ1 th1]|] eqn:Hstep;
       cbn [mbind option_bind]; [|done]; intros Hrun;
       destruct (thread_step_nodes _ _ _ _ Hstep) as (_ & <- & _);
       by eapply IH).
Qed.

(** Any call in progress, left to run alone from wherever the other threads
    have brought the list, returns after at most [length l + 4] accesses to
    shared memory: the loop of [GetOrSpawnNode] goes round again at most
    once, and it makes no second node when it does.  No child is unlinked on
    the way, and a call of [GetOrSpawnNode] ends with the iterator holding a
    child at its index. *)
Theorem call_completes_alone (p : LowNode.t) (sys : System.t) (l : list addr)
    (i : nat) (th : Edge_Iterator.Thread) (fuel : nat) :
  System.reachable p sys → children (System.store sys) l →
  System.threads sys !! i = Some th →
  (length l + 4 ≤ fuel)%nat →
  ∃ σ' th' l',
    Edge_Iterator.run fuel (System.store sys) th = Some (σ', th') ∧
    Edge_Iterator.pc th' = Edge_Iterator.Ready ∧
    Store.allocated σ' = Store.allocated (System.store sys) ∧
    children σ' l' ∧ (∀ b, b ∈ l → b ∈ l') ∧
    (is_Some (owns th) →
     ∃ a, Edge_Iterator.node_ (Edge_Iterator.iter th') = Some a ∧ a ∈ l' ∧
          index_of (Store.nodes σ') a
            = Edge_Iterator.current_idx_ (Edge_Iterator.iter th)).
Proof.
  intros Hr Hl Hi Hf.
  cut (∃ σ' th' l',
    Edge_Iterator.run fuel (System.store sys) th = Some (σ', th') ∧
    Edge_Iterator.pc th' = Edge_Iterator.Ready ∧
    children σ' l' ∧ (∀ b, b ∈ l → b ∈ l') ∧
    (is_Some (owns th) →
     ∃ a, Edge_Iterator.node_ (Edge_Iterator.iter th') = Some a ∧ a ∈ l' ∧
          index_of (Store.nodes σ') a
            = Edge_Iterator.current_idx_ (Edge_Iterator.iter th))).
  { intros (σ' & th' & l' & Hrun & Hrest). exists σ', th', l'.
    split; [done|]. destruct Hrest as (? & ? & ? & ?).
    split; [done|]. split; [by eapply run_allocated|]. done. }
  destruct (reachable_ok _ _ Hr) as [l0 Hsys].
  pose proof Hsys as (Hok & Hths & _). pose proof Hok as (_ & _ & Hl0 & _).
  rewrite (children_functional _ _ _ Hl Hl0) in *. clear l Hl.
  pose proof (Hths _ _ Hi) as [Ht Hpc]. destruct th as [it pc].
  set (σ := System.store sys) in *. unfold owns. cbn in Ht, Hpc |- *.
  destruct pc as [|[|new_node]|new_node node].
  - exists σ, (Edge_Iterator.mkThread it Edge_Iterator.Ready), l0.
    rewrite run_ready by done. repeat split; try done; by intros [? [=]].
  - destruct Hpc as (_ & H0 & _ & Hbe & _).
    destruct (seek_return p σ l0 it fuel Hok H0 Hbe ltac:(lia)) as (it' & Hrun & _).
    exists σ, (Edge_Iterator.mkThread it' Edge_Iterator.Ready), l0.
    repeat split; try done; by intros [? [=]].
  - destruct Hpc as (_ & H0 & _ & Hbe & Hpr).
    destruct (spawn_run p σ l0 it new_node fuel Hok H0 Hbe Hpr ltac:(lia))
      as (σ' & a & l' & Hrun & (_ & _ & Hl' & _) & Ha & Hia & Hsub & _).
    exists σ', (Edge_Iterator.mkThread (Edge_Iterator.found it a) Edge_Iterator.Ready), l'.
    repeat split; try done; intros _; by exists a.
  - destruct Hpc as (_ & H0 & _ & Hbe & Hpr & Hnode).
    destruct (slot_split _ _ _ _ _ Hok H0 Hbe) as (l1 & l2 & _ & Hget & _).
    destruct (decide (head l2 = node)) as [Heq|Hne].
    + rewrite Heq in Hget. destruct fuel as [|[|fuel]]; [lia..|].
      destruct (exchange_run p σ l0 it new_node node fuel Hok H0 Hbe Hpr Hnode Hget)
        as (σ' & k1 & k2 & Hrun & -> & (_ & _ & Hl' & _) & Hia & _).
      exists σ', (Edge_Iterator.mkThread (Edge_Iterator.found it new_node)
                   Edge_Iterator.Ready), (k1 ++ new_node :: k2).
      split; [done|]. split; [done|]. split; [done|]. split.
      * intros b. rewrite !elem_of_app, elem_of_cons. tauto.
      * intros _. exists new_node. split; [done|]. split; [|done].
        apply elem_of_app. right. by left.
    + destruct fuel as [|fuel]; [lia|]. rewrite run_busy by (by intros [=]).
      cbn [Edge_Iterator.pc Edge_Iterator.iter Edge_Iterator.thread_step].
      unfold atomic_unique_ptr.compare_exchange. rewrite Hget.
      cbn [mbind option_bind]. rewrite decide_False by done. cbn [mbind option_bind].
      pose proof Hpr as [Hnew _].
      destruct (set_sibling_ok p σ l0 new_node None Hok Hnew) as [Hok1 Hf1].
      pose proof (behind_frame _ _ _ _ _ _ _ Hf1 Hbe) as Hbe1.
      pose proof (prepared_set _ _ _ _ _ None Hpr) as Hpr1.
      destruct (spawn_run p _ l0 it new_node fuel Hok1 H0 Hbe1 Hpr1 ltac:(lia))
        as (σ' & a & l' & Hrun & (_ & _ & Hl' & _) & Ha & Hia & Hsub & _).
      exists σ', (Edge_Iterator.mkThread (Edge_Iterator.found it a) Edge_Iterator.Ready), l'.
      repeat split; try done; intros _; by exists a.
Qed.

Lemma loser_thread :
  System.threads Sample.after_winner !! 0%nat = Some Sample.loser.
Proof. by vm_compute. Qed.

Lemma call_completes_alone_witness :
  System.reachable Sample.evaluated Sample.after_winner ∧
  children (System.store Sample.after_winner) [1%nat] ∧
  System.threads Sample.after_winner !! 0%nat = Some Sample.loser ∧
  (length [1%nat] + 4 ≤ 5)%nat ∧
  ∃ σ' th' l',
    Edge_Iterator.run 5 (System.store Sample.after_winner) Sample.loser
      = Some (σ', th') ∧
    Edge_Iterator.pc th' = Edge_Iterator.Ready ∧
    Store.allocated σ' = Store.allocated (System.store Sample.after_winner) ∧
    children σ' l' ∧ (∀ b, b ∈ [1%nat] → b ∈ l') ∧
    (is_Some (owns Sample.loser) →
     ∃ a, Edge_Iterator.node_ (Edge_Iterator.iter th') = Some a ∧ a ∈ l' ∧
          index_of (Store.nodes σ') a
            = Edge_Iterator.current_idx_ (Edge_Iterator.iter Sample.loser)).
Proof.
  assert (H4 : (length [1%nat] + 4 ≤ 5)%nat) by (cbn; lia).
  split; [exact after_winner_reachable|]. split; [exact after_winner_children|].
  split; [exact loser_thread|]. split; [exact H4|].
  exact (call_completes_alone Sample.evaluated Sample.after_winner [1%nat] 0
           Sample.loser 5 after_winner_reachable after_winner_children
           loser_thread H4).
Defined.

(** The loser of the race of [Sample.after_winner], run alone: its exchange
    fails, it looks again, finds the winner's node and gives up its own. *)
Example loser_completes :
  (λ r, (dom (Store.nodes r.1), Edge_Iterator.node_ (Edge_Iterator.iter r.2),
         Edge_Iterator.pc r.2)) <$>
    Edge_Iterator.run 5 (System.store Sample.after_winner) Sample.loser
  = Some ({[ 1%nat ]}, Some 1%nat, Edge_Iterator.Ready).
Proof. by vm_compute. Qed.

(** * Further properties of the payloads *)

(** ** Evaluating a fresh payload *)



(** ** The number of parents *)

Lemma parent_peak_ge n os : n ≤ parent_peak n os.
Proof. destruct os; cbn; lia. Qed.

Lemma parent_ops_count os : ∀ l l',
  0 ≤ LowNode.GetNumParents l < uint16_max →
  (2 ≤ LowNode.GetNumParents l → LowNode.IsTransposition l = true) →
  LowNode.parent_ops false os l = Some l' →
  LowNode.GetNumParents l' = parent_balance (LowNode.GetNumParents l) os ∧
  0 ≤ LowNode.GetNumParents l' < uint16_max ∧
  (LowNode.IsTransposition l' = true ↔
   LowNode.IsTransposition l = true ∨ 2 ≤ parent_peak (LowNode.GetNumParents l) os).
Proof.
  unfold LowNode.GetNumParents, LowNode.IsTransposition, uint16_max.
  induction os as [|o os IH]; intros l l' Hr Hinv; cbn [LowNode.parent_ops].
  { intros [= <-]. cbn. split; [done|]. split; [done|]. split; [auto|].
    intros [?|?]; auto. }
  destruct (LowNode.parent_op false o l) as [l1|] eqn:Hop;
    cbn [mbind option_bind]; [|done].
  intros Hos. cbn [parent_balance foldl parent_peak].
  assert (H1 : LowNode.num_parents_ l1 = LowNode.num_parents_ l + parent_delta o ∧
               0 ≤ LowNode.num_parents_ l1 < 2 ^ 16 ∧
               (LowNode.is_transposition l1 = true ↔
                LowNode.is_transposition l = true ∨ 2 ≤ LowNode.num_parents_ l1) ∧
               LowNode.num_parents_ l1 ≤ LowNode.num_parents_ l + 1).
  { destruct o; cbn in Hop;
      unfold LowNode.AddParent, LowNode.RemoveParent, assert_, uint16_max in Hop;
      cbn in Hop.
    - destruct (Z.ltb_spec 0 ((LowNode.num_parents_ l + 1) mod 2 ^ 16)) as [Hpos|Hz];
        cbn in Hop; [|done]. injection Hop as <-. cbn.
      assert (LowNode.num_parents_ l + 1 < 2 ^ 16).
      { destruct (decide (LowNode.num_parents_ l + 1 = 2 ^ 16)) as [E|]; [|lia].
        rewrite E, Z.mod_same in Hpos by lia. lia. }
      rewrite Z.mod_small by lia. repeat split; try lia.
      + intros [?|?%Z.ltb_lt]%orb_true_iff; [by left|right; lia].
      + intros [->|?]; [done|]. apply orb_true_iff. right. apply Z.ltb_lt. lia.
    - destruct (Z.ltb_spec 0 (LowNode.num_parents_ l)) as [Hpos|Hz];
        cbn in Hop; [|done]. injection Hop as <-. cbn.
      rewrite Z.mod_small by lia. repeat split; try lia; [by left|].
      intros [?|?]; [done|]. apply Hinv. lia. }
  destruct H1 as (Hn1 & Hr1 & Hf1 & Hle).
  destruct (IH l1 l' Hr1 ltac:(intros ?; apply Hf1; by right) Hos)
    as (Hn & Hr' & Hf).
  rewrite Hn1 in Hn, Hf. split; [done|]. split; [done|].
  pose proof (parent_peak_ge (LowNode.num_parents_ l + parent_delta o) os).
  rewrite Hf, Hf1. split.
  - intros [[?|?]|?]; [by left|right; lia|right; lia].
  - intros [?|?]; [by left; left|].
    destruct (decide (2 ≤ parent_peak (LowNode.num_parents_ l + parent_delta o) os));
      [by right|].
    left. left. apply Hinv. lia.
Qed.

(** With assertions on, a sequence of [AddParent] and [RemoveParent] that a
    payload without parents accepts leaves it with as many parents as were
    added and not removed, and [IsTransposition()] tells whether the payload
    had two parents at some point of the sequence. *)
Theorem parent_count_exact (l l' : LowNode.t) (os : list LowNode.ParentOp) :
  LowNode.GetNumParents l = 0 → LowNode.IsTransposition l = false →
  LowNode.parent_ops false os l = Some l' →
  LowNode.GetNumParents l' = parent_balance 0 os ∧
  0 ≤ LowNode.GetNumParents l' < 2 ^ 16 ∧
  (LowNode.IsTransposition l' = true ↔ 2 ≤ parent_peak 0 os).
Proof.
  intros Hn Hf Hos.
  destruct (parent_ops_count os l l') as (H1 & H2 & H3);
    [unfold uint16_max; lia|lia|done|].
  rewrite Hn in H1, H3. split; [done|]. split; [done|].
  rewrite H3, Hf. split; [by intros [?|?]|by right].
Qed.

Lemma parent_count_exact_witness :
  LowNode.GetNumParents (LowNode.make 7) = 0 ∧
  LowNode.IsTransposition (LowNode.make 7) = false ∧
  LowNode.parent_ops false Scenario.parents (LowNode.make 7)
    = Some (LowNode.set_parents 1 true (LowNode.make 7)) ∧
  LowNode.GetNumParents (LowNode.set_parents 1 true (LowNode.make 7))
    = parent_balance 0 Scenario.parents ∧
  0 ≤ LowNode.GetNumParents (LowNode.set_parents 1 true (LowNode.make 7)) < 2 ^ 16 ∧
  (LowNode.IsTransposition (LowNode.set_parents 1 true (LowNode.make 7)) = true
   ↔ 2 ≤ parent_peak 0 Scenario.parents).
Proof.
  split; [reflexivity|]. split; [reflexivity|]. split; [reflexivity|].
  exact (parent_count_exact (LowNode.make 7)
           (LowNode.set_parents 1 true (LowNode.make 7)) Scenario.parents
           eq_refl eq_refl eq_refl).
Defined.

(** ** A payload constructed with its first child *)

Lemma LowNode_with_child_store hash moves index :
  0 ≤ index < Z.of_nat (length moves) → Z.of_nat (length moves) < 2 ^ 8 →
  ∃ σ, LowNode_with_child hash moves index = Some σ ∧
    store_ok (LowNode.set_child None (Store.low σ)) σ [0%nat] ∧
    index_of (Store.nodes σ) 0%nat = index ∧
    LowNode.GetNumEdges (Store.low σ) = Z.of_nat (length moves) ∧
    LowNode.IsTT (Store.low σ) = false.
Proof.
  intros Hi Hn. unfold LowNode_with_child. rewrite decide_True by lia.
  destruct (lookup_lt_is_Some_2 (Edge_FromMovelist moves) (Z.to_nat index))
    as [e He].
  { unfold Edge_FromMovelist. rewrite length_fmap. lia. }
  rewrite He. cbn [mbind option_bind]. eexists. split; [reflexivity|].
  assert (Hmod : Z.of_nat (length moves) mod uint8_max = Z.of_nat (length moves))
    by (apply Z.mod_small; unfold uint8_max; lia).
  rewrite Hmod. split; [|split; [|done]].
  - split; [|split; [done|split; [|split; [|split]]]].
    + split; [|split; [done|split; [|done]]]; cbn.
      * intros es [= <-]. unfold Edge_FromMovelist. by rewrite length_fmap.
      * unfold uint8_max. lia.
    + split; [done|]. eexists. split; [apply lookup_singleton_eq|done].
    + cbn. unfold index_of. rewrite lookup_singleton_eq. cbn. split; [lia|done].
    + cbn. unfold index_of. rewrite lookup_singleton_eq. cbn.
      constructor; [lia|constructor].
    + intros a [nd Hnd]. cbn in Hnd |- *.
      apply lookup_singleton_Some in Hnd as [<- _]. lia.
  - cbn. unfold index_of. by rewrite lookup_singleton_eq.
Qed.

(** The constructor [LowNode(hash, moves, index)], given an index inside a
    list of fewer than 256 moves, leaves a payload outside the table with one
    child at that index; whatever iterators do from there on, the child stays
    in the list and the list stays strictly ascending with indices in
    [[0, num_edges)]. *)
Theorem LowNode_with_child_ordered (hash : Z) (moves : list Move) (index : Z) :
  0 ≤ index < Z.of_nat (length moves) → Z.of_nat (length moves) < 2 ^ 8 →
  ∃ σ, LowNode_with_child hash moves index = Some σ ∧
    children σ [0%nat] ∧ index_of (Store.nodes σ) 0%nat = index ∧
    LowNode.GetNumEdges (Store.low σ) = Z.of_nat (length moves) ∧
    LowNode.IsTT (Store.low σ) = false ∧
    ∀ sys, rtc System.step {| System.store := σ; System.threads := [] |} sys →
      ∃ l, children (System.store sys) l ∧ 0%nat ∈ l ∧
        index_of (Store.nodes (System.store sys)) 0%nat = index ∧
        StronglySorted Z.lt (indices (System.store sys) l) ∧
        Forall (λ i, 0 ≤ i < Z.of_nat (length moves)) (indices (System.store sys) l).
Proof.
  intros Hi Hn.
  destruct (LowNode_with_child_store hash moves index Hi Hn)
    as (σ & Hσ & Hok & Hidx & Hne & Htt).
  exists σ. split; [done|]. split; [by destruct Hok as (_ & _ & ? & _)|].
  do 3 (split; [done|]). intros sys Hrtc.
  assert (Hsys : sys_ok (LowNode.set_child None (Store.low σ))
                   {| System.store := σ; System.threads := [] |} [0%nat]).
  { split; [done|]. split.
    - intros i th H. cbn in H. by rewrite lookup_nil in H.
    - intros i j thi thj a H. cbn in H. by rewrite lookup_nil in H. }
  destruct (rtc_children_stay _ _ _ Hrtc _ Hsys)
    as (l & ((_ & _ & Hl & Hasc & Hb & _) & _) & Hstay).
  destruct (Hstay 0%nat ltac:(by left)) as (H0 & nd & nd' & Hnd & Hnd' & Hev).
  exists l. split; [done|]. split; [done|]. split; [|split].
  - cbn in Hnd. rewrite <- Hidx. unfold index_of. rewrite Hnd, Hnd'. cbn.
    by apply evolves_Index.
  - by eapply ascending_StronglySorted.
  - pose proof (ascending_above _ _ Hasc) as Hlo.
    apply Forall_and. split.
    + eapply Forall_impl; [exact Hlo|]. cbn. lia.
    + eapply Forall_impl; [exact Hb|]. cbn. intros x Hx.
      unfold LowNode.GetNumEdges in Hne. cbn in Hne. by rewrite <- Hne.
Qed.

Lemma LowNode_with_child_ordered_witness :
  0 ≤ 1 < Z.of_nat (length [796; 731; 666]) ∧
  Z.of_nat (length [796; 731; 666]) < 2 ^ 8 ∧
  ∃ σ, LowNode_with_child 9 [796; 731; 666] 1 = Some σ ∧
    children σ [0%nat] ∧ index_of (Store.nodes σ) 0%nat = 1 ∧
    LowNode.GetNumEdges (Store.low σ) = Z.of_nat (length [796; 731; 666]) ∧
    LowNode.IsTT (Store.low σ) = false ∧
    ∀ sys, rtc System.step {| System.store := σ; System.threads := [] |} sys →
      ∃ l, children (System.store sys) l ∧ 0%nat ∈ l ∧
        index_of (Store.nodes (System.store sys)) 0%nat = 1 ∧
        StronglySorted Z.lt (indices (System.store sys) l) ∧
        Forall (λ i, 0 ≤ i < Z.of_nat (length [796; 731; 666]))
          (indices (System.store sys) l).
Proof.
  assert (H1 : 0 ≤ 1 < Z.of_nat (length [796; 731; 666])) by (cbn; lia).
  assert (H2 : Z.of_nat (length [796; 731; 666]) < 2 ^ 8) by reflexivity.
  split; [exact H1|]. split; [exact H2|].
  exact (LowNode_with_child_ordered 9 [796; 731; 666] 1 H1 H2).
Defined.

(** An index outside the moves makes the constructor read past the array. *)
Lemma LowNode_with_child_outside hash moves index :
  Z.of_nat (length moves) ≤ index → LowNode_with_child hash moves index = None.
Proof.
  intros Hi. unfold LowNode_with_child. rewrite decide_True by lia.
  rewrite (lookup_ge_None_2 (Edge_FromMovelist moves)); [done|].
  unfold Edge_FromMovelist. rewrite length_fmap. lia.
Qed.

(** * Further properties: what an iterator points to *)

Lemma thread_step_node σ th σ' th' :
  Edge_Iterator.thread_step σ th = Some (σ', th') →
  Edge_Iterator.edge_ (Edge_Iterator.iter th')
    = Edge_Iterator.edge_ (Edge_Iterator.iter th) ∧
  (Edge_Iterator.node_ (Edge_Iterator.iter th')
     = Edge_Iterator.node_ (Edge_Iterator.iter th) ∨
   Edge_Iterator.node_ (Edge_Iterator.iter th') = None ∨
   Edge_Iterator.pc th' = Edge_Iterator.Ready).
Proof.
  unfold Edge_Iterator.thread_step. destruct th as [it pc]. cbn.
  destruct pc as [|k|new_node node]; [done|..].
  - unfold Edge_Iterator.Actualize_load.
    destruct (atomic_unique_ptr.get σ _) as [[a|]|]; cbn; [| |done].
    + destruct (Store.nodes σ !! a) as [nd|]; cbn; [|done].
      destruct (Node.Index nd <? _); cbn; [intros [= <- <-]; cbn; auto|].
      destruct (Node.Index nd =? _); cbn; destruct k; cbn;
        intros [= <- <-]; cbn; auto.
    + destruct k; cbn; intros [= <- <-]; cbn; auto.
  - destruct (atomic_unique_ptr.compare_exchange _ _ _ _) as [[σ1 []]|]; cbn;
      [| |done]; intros [= <- <-]; cbn; auto.
Qed.

Lemma call_node c σ it σ' th' :
  System.call c σ it = Some (σ', th') →
  Edge_Iterator.node_ (Edge_Iterator.iter th') = Edge_Iterator.node_ it.
Proof.
  destruct c; cbn.
  - unfold Edge_Iterator.incr_call. destruct (Edge_Iterator.edge_ it); cbn; [|done].
    destruct (_ =? _); intros [= <- <-]; done.
  - unfold Edge_Iterator.GetOrSpawnNode_call.
    destruct (Edge_Iterator.node_ it) eqn:Hn; [by intros [= <- <-]|].
    destruct (LowNode.GetEdgeAt _ _); cbn; [|done]. by intros [= <- <-].
Qed.

Lemma step_node_ok p sys sys' l l' :
  sys_ok p sys l →
  (∀ i th, System.threads sys !! i = Some th → node_ok l th) →
  System.step sys sys' → sys_ok p sys' l' →
  ∀ i th, System.threads sys' !! i = Some th → node_ok l' th.
Proof.
  intros Hsys Hnode Hstep Hsys'. pose proof Hsys as (Hok & Hths & _).
  pose proof Hsys' as ((_ & _ & Hl' & _) & Hths' & _).
  destruct (step_frame _ _ _ _ Hsys Hstep) as (l'' & ((_ & _ & Hl'' & _) & _) & Hsub).
  rewrite <- (children_functional _ _ _ Hl' Hl'') in Hsub. clear l'' Hl''.
  assert (Hkeep : ∀ th, node_ok l th → node_ok l' th).
  { intros th H a Ha. apply Hsub. by apply H. }
  destruct Hstep as [sys|sys i th c σ' th' Hi Hready Hcall|sys i th σ' th' Hi Hstep];
    cbn [System.store System.threads] in *; intros j thj Hj.
  - apply lookup_snoc_Some in Hj as [[_ Hj]|[_ <-]]; [by eapply Hkeep, Hnode|].
    intros a. unfold Edge_Iterator.begin_call. cbn. done.
  - destruct (decide (j = i)) as [->|Hne].
    + rewrite list_lookup_insert_eq in Hj by (by eapply lookup_lt_Some).
      simplify_eq. intros a. rewrite (call_node _ _ _ _ _ Hcall).
      intros Ha. exact (Hkeep _ (Hnode _ _ Hi) _ Ha).
    + rewrite list_lookup_insert_ne in Hj by done. by eapply Hkeep, Hnode.
  - destruct (decide (j = i)) as [->|Hne].
    + rewrite list_lookup_insert_eq in Hj by (by eapply lookup_lt_Some).
      simplify_eq. intros a Ha.
      destruct (thread_step_node _ _ _ _ Hstep) as [He [Hsame|[Hnone|Hready]]].
      * rewrite Hsame in Ha. exact (Hkeep _ (Hnode _ _ Hi) _ Ha).
      * congruence.
      * assert (Hi' : <[i:=thj]> (System.threads sys) !! i = Some thj).
        { apply list_lookup_insert_eq. by eapply lookup_lt_Some. }
        pose proof (Hths' _ _ Hi') as [_ Hpc']. rewrite Hready in Hpc'.
        destruct Hpc' as [Hpc' _].
        assert (Hedge : Edge_Iterator.edge_ (Edge_Iterator.iter thj) ≠ None).
        { rewrite He. pose proof (Hths _ _ Hi) as [_ Hpc].
          unfold Edge_Iterator.thread_step in Hstep.
          destruct (Edge_Iterator.pc th); [done|by destruct Hpc..]. }
        destruct (Hpc' Hedge) as (_ & _ & Hn). rewrite Ha in Hn. by destruct Hn as (_ & ? & _).
    + rewrite list_lookup_insert_ne in Hj by done. by eapply Hkeep, Hnode.
Qed.

Lemma reachable_node_ok p sys :
  System.reachable p sys →
  ∃ l, sys_ok p sys l ∧
    ∀ i th, System.threads sys !! i = Some th → node_ok l th.
Proof.
  intros [Hp Hrtc]. revert sys Hrtc. apply rtc_ind_r.
  - exists []. split; [by apply initial_ok|].
    intros i th H. cbn in H. by rewrite lookup_nil in H.
  - intros s1 s2 _ Hstep (l & Hsys & Hnode).
    destruct (step_ok _ _ _ _ Hsys Hstep) as [l' Hsys'].
    exists l'. split; [done|]. exact (step_node_ok _ _ _ _ _ Hsys Hnode Hstep Hsys').
Qed.

(** In every state the iterators can reach, what an iterator holds in
    [node_] is null or a child of the payload, never a node that was deleted,
    and unless it is the end iterator its [node_ptr_] is the payload's
    [child_] or the [sibling_] of a child.  The getters of [EdgeAndNode]
    therefore read live nodes; as no node was visited yet, they report for an
    edge with a node what they report for an edge without. *)
Theorem iterator_pointers_live (p : LowNode.t) (sys : System.t) (l : list addr)
    (i : nat) (th : Edge_Iterator.Thread) :
  System.reachable p sys → children (System.store sys) l →
  System.threads sys !! i = Some th →
  let ns := Store.nodes (System.store sys) in
  let it := Edge_Iterator.iter th in
  (∀ a, Edge_Iterator.node_ it = Some a → a ∈ l ∧ is_Some (ns !! a)) ∧
  (EdgeAndNode.to_bool it = true ∨ is_Some (owns th) →
   match Edge_Iterator.node_ptr_ it with
   | ChildSlot => True
   | SiblingSlot a => a ∈ l
   end ∧
   is_Some (atomic_unique_ptr.get (System.store sys) (Edge_Iterator.node_ptr_ it))) ∧
  EdgeAndNode.GetN ns it = Some 0 ∧
  EdgeAndNode.GetNStarted ns it = Some 0 ∧
  EdgeAndNode.GetNInFlight ns it = Some 0 ∧
  EdgeAndNode.IsTerminal ns it = Some false ∧
  EdgeAndNode.IsTbTerminal ns it = Some false ∧
  EdgeAndNode.GetBounds ns it = Some (BLACK_WON, WHITE_WON).
Proof.
  intros Hr Hl Hi ns it. destruct (reachable_node_ok _ _ Hr) as (l0 & Hsys & Hnode).
  pose proof Hsys as ((_ & _ & Hl0 & _) & Hths & _).
  rewrite (children_functional _ _ _ Hl Hl0) in *. clear l Hl.
  destruct (reachable_as_spawned _ _ Hr) as [_ Hsp].
  assert (Hlive : ∀ a, Edge_Iterator.node_ it = Some a →
            a ∈ l0 ∧ ∃ nd e, ns !! a = Some nd ∧
              nd = Node.set_sibling (Node.sibling_ nd) (Node.make e (Node.Index nd))).
  { intros a Ha. pose proof (Hnode _ _ Hi a Ha) as Hin. split; [done|].
    destruct (lseg_lookup _ _ _ _ _ Hl0 Hin) as [nd Hnd].
    destruct (Hsp _ _ Hnd) as (e & _ & Hev). by exists nd, e. }
  split; [|split].
  - intros a Ha. destruct (Hlive a Ha) as (Hin & nd & _ & Hnd & _). eauto.
  - intros Hcase.
    assert (Hslot : match Edge_Iterator.node_ptr_ it with
                    | ChildSlot => True
                    | SiblingSlot a => a ∈ l0
                    end).
    { pose proof (Hths _ _ Hi) as [_ Hpc]. subst it. unfold owns in Hcase.
      destruct (Edge_Iterator.pc th) as [|k|x node].
      - destruct Hcase as [Hb|[? [=]]]. unfold EdgeAndNode.to_bool in Hb.
        apply bool_decide_eq_true in Hb. destruct Hpc as [Hpc _].
        destruct (Hpc Hb) as (_ & _ & Hn).
        destruct (Edge_Iterator.node_ (Edge_Iterator.iter th)) as [a|].
        + destruct Hn as (-> & ? & _). done.
        + by destruct (Edge_Iterator.node_ptr_ _); [|destruct Hn].
      - destruct Hpc as (_ & _ & _ & Hbe & _).
        by destruct (Edge_Iterator.node_ptr_ _); [|destruct Hbe].
      - destruct Hpc as (_ & _ & _ & Hbe & _).
        by destruct (Edge_Iterator.node_ptr_ _); [|destruct Hbe]. }
    split; [done|]. destruct (Edge_Iterator.node_ptr_ it) as [|a]; cbn; [done|].
    destruct (lseg_lookup _ _ _ _ _ Hl0 Hslot) as [nd ->]. done.
  - unfold EdgeAndNode.GetN, EdgeAndNode.GetNStarted, EdgeAndNode.GetNInFlight,
      EdgeAndNode.IsTerminal, EdgeAndNode.IsTbTerminal, EdgeAndNode.GetBounds,
      EdgeAndNode.via_node.
    destruct (Edge_Iterator.node_ it) as [a|]; [|done].
    destruct (Hlive a eq_refl) as (_ & nd & e & -> & ->). done.
Qed.

Lemma at_edge_2_thread :
  System.threads Sample.after_descent !! 0%nat = Some Scenario.at_edge_2.
Proof. by vm_compute. Qed.

Lemma iterator_pointers_live_witness :
  System.reachable Sample.evaluated Sample.after_descent ∧
  children (System.store Sample.after_descent) [1%nat; 0%nat; 2%nat] ∧
  System.threads Sample.after_descent !! 0%nat = Some Scenario.at_edge_2 ∧
  let ns := Store.nodes (System.store Sample.after_descent) in
  let it := Edge_Iterator.iter Scenario.at_edge_2 in
  (∀ a, Edge_Iterator.node_ it = Some a →
        a ∈ [1%nat; 0%nat; 2%nat] ∧ is_Some (ns !! a)) ∧
  (EdgeAndNode.to_bool it = true ∨ is_Some (owns Scenario.at_edge_2) →
   match Edge_Iterator.node_ptr_ it with
   | ChildSlot => True
   | SiblingSlot a => a ∈ [1%nat; 0%nat; 2%nat]
   end ∧
   is_Some (atomic_unique_ptr.get (System.store Sample.after_descent)
              (Edge_Iterator.node_ptr_ it))) ∧
  EdgeAndNode.GetN ns it = Some 0 ∧
  EdgeAndNode.GetNStarted ns it = Some 0 ∧
  EdgeAndNode.GetNInFlight ns it = Some 0 ∧
  EdgeAndNode.IsTerminal ns it = Some false ∧
  EdgeAndNode.IsTbTerminal ns it = Some false ∧
  EdgeAndNode.GetBounds ns it = Some (BLACK_WON, WHITE_WON).
Proof.
  split; [exact after_descent_reachable|]. split; [exact after_descent_children|].
  split; [exact at_edge_2_thread|].
  exact (iterator_pointers_live Sample.evaluated Sample.after_descent
           [1%nat; 0%nat; 2%nat] 0 Scenario.at_edge_2 after_descent_reachable
           after_descent_children at_edge_2_thread).
Defined.

(** * Properties of the cache in front of the network *)

Global Instance list_counts (Input : Type) : CountsInputs (list Input) Input.
Proof. intros x q. cbn. rewrite length_app. cbn. lia. Qed.

Lemma seqZ_snoc (n : Z) : 0 ≤ n → seqZ 0 (n + 1) = seqZ 0 n ++ [n].
Proof. intros Hn. by rewrite seqZ_app by lia. Qed.

Section caching.
Context {P Input : Type} `{!NetworkComputation P Input}.
Implicit Types c : CachingComputation.t P.

Lemma misses_snoc (q q' : P) k k' b x :
  CachingComputation.misses (CachingComputation.mk q (b ++ [x]) k)
  = CachingComputation.misses (CachingComputation.mk q' b k')
    ++ (if CachingComputation.is_miss x then [x] else []).
Proof.
  unfold CachingComputation.misses. cbn. rewrite filter_app. f_equal.
  destruct (CachingComputation.is_miss x) eqn:E.
  - by rewrite filter_cons_True.
  - rewrite filter_cons_False; [done|]. by rewrite E.
Qed.

Lemma hits_snoc (q q' : P) k k' b x :
  CachingComputation.hits (CachingComputation.mk q (b ++ [x]) k)
  = CachingComputation.hits (CachingComputation.mk q' b k')
    ++ (if CachingComputation.is_miss x then [] else [x]).
Proof.
  unfold CachingComputation.hits. cbn. rewrite filter_app. f_equal.
  destruct (CachingComputation.is_miss x) eqn:E.
  - rewrite filter_cons_False; [done|]. by rewrite E.
  - by rewrite filter_cons_True.
Qed.

Lemma hits_misses_length c :
  (length (CachingComputation.hits c) + length (CachingComputation.misses c)
   = length (CachingComputation.batch_ c))%nat.
Proof.
  unfold CachingComputation.hits, CachingComputation.misses.
  induction (CachingComputation.batch_ c) as [|x l IH]; [done|].
  destruct (CachingComputation.is_miss x) eqn:E.
  - rewrite filter_cons_False by (by rewrite E). rewrite filter_cons_True by done.
    cbn. lia.
  - rewrite filter_cons_True by done. rewrite filter_cons_False by (by rewrite E).
    cbn. lia.
Qed.

(** Adding a hit keeps the agreement. *)
Lemma batch_ok_hit (q : P) b k h e :
  CachingComputation.batch_ok (CachingComputation.mk q b k) →
  k !! h = Some e →
  CachingComputation.batch_ok
    (CachingComputation.mk q
       (b ++ [CachingComputation.mkWorkItem h (Some e) (-1) None 0]) k).
Proof.
  intros (H0 & H1 & H2) He. unfold CachingComputation.batch_ok.
  rewrite (misses_snoc q q k k), (hits_snoc q q k k). cbn. rewrite app_nil_r.
  split; [done|]. split; [done|]. apply Forall_app. split; [done|].
  constructor; [|constructor]. cbn. by rewrite He.
Qed.

(** Adding a miss keeps it, when the wrapped computation counts its
    inputs. *)
Lemma batch_ok_miss `{!CountsInputs P Input} (q : P) b k h input ev tr :
  CachingComputation.batch_ok (CachingComputation.mk q b k) →
  CachingComputation.batch_ok
    (CachingComputation.mk (parent_AddInput input q)
       (b ++ [CachingComputation.mkWorkItem h None (parent_GetBatchSize q) ev tr]) k).
Proof.
  intros (H0 & H1 & H2). unfold CachingComputation.batch_ok.
  unfold CachingComputation.GetCacheMisses in *. cbn [CachingComputation.parent_] in *.
  assert (E : CachingComputation.is_miss
                (CachingComputation.mkWorkItem h None (parent_GetBatchSize q) ev tr)
              = true).
  { unfold CachingComputation.is_miss. cbn. rewrite H0. apply Z.leb_le. lia. }
  rewrite (misses_snoc _ q k k), (hits_snoc _ q k k), E, app_nil_r.
  rewrite length_app, fmap_app. cbn [length fmap list_fmap CachingComputation.idx_in_parent].
  rewrite counts_inputs, H0, H1. split; [lia|]. split; [|done].
  replace (Z.of_nat (length (CachingComputation.misses (CachingComputation.mk q b k)) + 1))
    with (Z.of_nat (length (CachingComputation.misses (CachingComputation.mk q b k))) + 1)
    by lia.
  by rewrite seqZ_snoc by lia.
Qed.

(** Taking the last item away keeps it when the item is a hit. *)
Lemma batch_ok_pop (q : P) b k x :
  CachingComputation.batch_ok (CachingComputation.mk q (b ++ [x]) k) →
  CachingComputation.idx_in_parent x = -1 →
  CachingComputation.batch_ok (CachingComputation.mk q b k).
Proof.
  intros (H0 & H1 & H2) Hx.
  assert (E : CachingComputation.is_miss x = false).
  { unfold CachingComputation.is_miss. by rewrite Hx. }
  rewrite (misses_snoc q q k k), E, app_nil_r in H0, H1.
  rewrite (hits_snoc q q k k), E in H2. apply Forall_app in H2 as [H2 _]. done.
Qed.

Lemma op_batch_ok `{!CountsInputs P Input} o c c' :
  CachingComputation.batch_ok c →
  CachingComputation.op false o c = Some c' →
  CachingComputation.batch_ok c' ∧
  CachingComputation.cache_ c' = CachingComputation.cache_ c.
Proof.
  intros Hok. destruct c as [q b k].
  destruct o as [h input tr moves|h| |]; cbn [CachingComputation.op].
  - unfold CachingComputation.AddInput, CachingComputation.AddInputByHash.
    cbn [CachingComputation.cache_ CachingComputation.parent_
         CachingComputation.batch_].
    destruct (k !! h) as [e|] eqn:He; cbn.
    + intros [= <-]. split; [by apply batch_ok_hit|done].
    + intros [= <-]. split; [by apply batch_ok_miss|done].
  - unfold CachingComputation.AddInputByHash.
    cbn [CachingComputation.cache_]. destruct (k !! h) as [e|] eqn:He; cbn.
    + intros [= <-]. split; [by apply batch_ok_hit|done].
    + by intros [= <-].
  - unfold CachingComputation.PopCacheHit. cbn [CachingComputation.batch_].
    destruct (last b) as [x|] eqn:Hlast; cbn [mbind option_bind]; [|done].
    apply last_Some in Hlast as [b' ->]. unfold assert_. cbn [orb].
    destruct (bool_decide _); cbn [mbind option_bind]; [|done].
    destruct (Z.eqb_spec (CachingComputation.idx_in_parent x) (-1)) as [Hx|];
      cbn [mbind option_bind]; [|done].
    intros [= <-]. rewrite removelast_last. cbn. split; [|done].
    by eapply batch_ok_pop.
  - unfold CachingComputation.PopLastInputHit. cbn [CachingComputation.batch_].
    destruct (last b) as [x|] eqn:Hlast; cbn [mbind option_bind]; [|done].
    apply last_Some in Hlast as [b' ->]. unfold assert_. cbn [orb].
    destruct (Z.eqb_spec (CachingComputation.idx_in_parent x) (-1)) as [Hx|];
      cbn [mbind option_bind]; [|done].
    intros [= <-]. rewrite removelast_last. cbn. split; [|done].
    by eapply batch_ok_pop.
Qed.

Lemma ops_batch_ok `{!CountsInputs P Input} os : ∀ c c',
  CachingComputation.batch_ok c →
  CachingComputation.ops false os c = Some c' →
  CachingComputation.batch_ok c' ∧
  CachingComputation.cache_ c' = CachingComputation.cache_ c.
Proof.
  induction os as [|o os IH]; intros c c' Hok; cbn [CachingComputation.ops].
  - by intros [= <-].
  - destruct (CachingComputation.op false o c) as [c1|] eqn:Hop;
      cbn [mbind option_bind]; [|done].
    destruct (op_batch_ok _ _ _ Hok Hop) as [Hok1 Hc1]. intros Hos.
    destruct (IH _ _ Hok1 Hos) as [Hok' Hc']. split; [done|congruence].
Qed.


(** Asking for a hash adds an item exactly when the cache has an entry for
    it, never touches the wrapped computation, and [PopCacheHit] takes that
    item back: the computation is as it was. *)
Theorem AddInputByHash_PopCacheHit (ndebug : bool) (h : Z)
    (c : CachingComputation.t P) :
  ∃ c' hit,
    CachingComputation.AddInputByHash ndebug h c = Some (c', hit) ∧
    (hit = true ↔ is_Some (CachingComputation.cache_ c !! h)) ∧
    CachingComputation.GetCacheMisses c' = CachingComputation.GetCacheMisses c ∧
    (hit = false → c' = c) ∧
    (hit = true →
     CachingComputation.GetBatchSize c' = CachingComputation.GetBatchSize c + 1 ∧
     CachingComputation.GetNNEval (CachingComputation.GetBatchSize c) c'
       = Some (CachingComputation.cache_ c !! h) ∧
     CachingComputation.PopCacheHit ndebug c' = Some c ∧
     CachingComputation.PopLastInputHit ndebug c' = Some c).
Proof.
  destruct c as [q b k]. unfold CachingComputation.AddInputByHash.
  cbn [CachingComputation.cache_]. destruct (k !! h) as [e|] eqn:He.
  - unfold CachingComputation.AddInputByHash_lock, assert_.
    rewrite bool_decide_eq_true_2 by done. rewrite orb_true_r.
    cbn [mbind option_bind]. do 2 eexists. split; [reflexivity|].
    split; [done|]. split; [done|]. split; [done|]. intros _.
    unfold CachingComputation.GetBatchSize, CachingComputation.GetNNEval,
      CachingComputation.PopCacheHit, CachingComputation.PopLastInputHit.
    cbn [CachingComputation.batch_ CachingComputation.parent_
         CachingComputation.cache_].
    rewrite length_app, last_snoc, removelast_last. cbn [length mbind option_bind].
    rewrite decide_True by lia. rewrite Nat2Z.id.
    rewrite lookup_app_r, Nat.sub_diag by lia. cbn.
    unfold assert_. rewrite !orb_true_r. cbn. split; [lia|done].
  - do 2 eexists. split; [reflexivity|]. split.
    { split; [done|]. by intros [? [=]]. }
    split; [done|]. split; [done|]. done.
Qed.
End caching.


(** The requests of [Scenario.requests]: position 5 is served by the cache,
    positions 6 and 7 are queued for the network, in this order. *)
Example requests_batch :
  (λ x, (CachingComputation.hash x, CachingComputation.idx_in_parent x)) <$>
    CachingComputation.batch_ Scenario.after_requests = [(5, -1); (6, 0); (7, 1)] ∧
  CachingComputation.parent_ Scenario.after_requests = [11; 12].
Proof. by vm_compute. Qed.
